(** * Region allocator, epoch callbacks and reader-bitmap slots

    A shallow embedding of [src/dbcore/sm-alloc.cpp] (the per-socket region
    allocator and the epoch-manager callbacks of namespace [RA]) and of the
    reader-bitmap part of [src/dbcore/serial.cpp] (namespace [TXN]).

    Conventions.
    - A [uint64_t] is a [Z] in [0, 2^64); every arithmetic result is
      reduced with [wrap64].
    - A pointer is its address, a [Z]; [&base[i]] is [base + i].
    - [int _state] holds one of the four [RA_*] constants.
    - A [throw] is a constructor of the result type; the allocator record
      that comes with it is the object as the exception leaves it. *)

From Stdlib Require Import ZArith Lia Bool.
From stdpp Require Import base list gmap.

Local Open Scope Z_scope.

(** ** Machine integers *)

Definition wrap64 (x : Z) : Z := x mod 2 ^ 64.

(** [uint64_t{x} << n], defined by the language for [n < 64]. *)
Definition shl64 (x n : Z) : Z := wrap64 (Z.shiftl x n).

(** [1 << n] where [1] is a plain [int] (32 bits) and the result is then
    converted to [uint64_t] for an addition with a [uint64_t]:
    - [n < 31]: the value [2^n];
    - [n = 31]: [INT_MIN], whose conversion to [uint64_t] is [2^64 - 2^31];
    - [n >= 32]: the shift count reaches the width of [int]: undefined. *)
Definition int_one_shl (n : Z) : option Z :=
  if n <? 31 then Some (2 ^ n)
  else if n =? 31 then Some (2 ^ 64 - 2 ^ 31)
  else None.

(** ** The allocator object *)

Definition RA_NORMAL : Z := 0.
Definition RA_GC_REQUESTED : Z := 1.
Definition RA_GC_IN_PROG : Z := 2.
Definition RA_GC_FINISHED : Z := 3.

Definition NUM_SEGMENT_BITS : Z := 2.
Definition NUM_SEGMENTS : Z := Z.shiftl 1 NUM_SEGMENT_BITS.

Record region_allocator := mk_region_allocator {
  _hot_data : Z;
  _cold_data : Z;
  _segment_bits : Z;
  _hot_bits : Z;
  _hot_capacity : Z;
  _cold_capacity : Z;
  _hot_mask : Z;
  _cold_mask : Z;
  _reclaimed_offset : Z;
  _socket : Z;
  _allocated_hot_offset : Z;
  _allocated_cold_offset : Z;
  _allocated : Z;
  _state : Z
}.

Definition with_reclaimed_offset (v : Z) (r : region_allocator) :=
  mk_region_allocator (_hot_data r) (_cold_data r) (_segment_bits r)
    (_hot_bits r) (_hot_capacity r) (_cold_capacity r) (_hot_mask r)
    (_cold_mask r) v (_socket r) (_allocated_hot_offset r)
    (_allocated_cold_offset r) (_allocated r) (_state r).

Definition with_allocated_hot_offset (v : Z) (r : region_allocator) :=
  mk_region_allocator (_hot_data r) (_cold_data r) (_segment_bits r)
    (_hot_bits r) (_hot_capacity r) (_cold_capacity r) (_hot_mask r)
    (_cold_mask r) (_reclaimed_offset r) (_socket r) v
    (_allocated_cold_offset r) (_allocated r) (_state r).

Definition with_allocated_cold_offset (v : Z) (r : region_allocator) :=
  mk_region_allocator (_hot_data r) (_cold_data r) (_segment_bits r)
    (_hot_bits r) (_hot_capacity r) (_cold_capacity r) (_hot_mask r)
    (_cold_mask r) (_reclaimed_offset r) (_socket r)
    (_allocated_hot_offset r) v (_allocated r) (_state r).

Definition with_allocated (v : Z) (r : region_allocator) :=
  mk_region_allocator (_hot_data r) (_cold_data r) (_segment_bits r)
    (_hot_bits r) (_hot_capacity r) (_cold_capacity r) (_hot_mask r)
    (_cold_mask r) (_reclaimed_offset r) (_socket r)
    (_allocated_hot_offset r) (_allocated_cold_offset r) v (_state r).

(** [int state()] and [void set_state(int s)]. *)
Definition state (r : region_allocator) : Z := _state r.

Definition set_state (s : Z) (r : region_allocator) :=
  mk_region_allocator (_hot_data r) (_cold_data r) (_segment_bits r)
    (_hot_bits r) (_hot_capacity r) (_cold_capacity r) (_hot_mask r)
    (_cold_mask r) (_reclaimed_offset r) (_socket r)
    (_allocated_hot_offset r) (_allocated_cold_offset r) (_allocated r) s.

(** [region_allocator::region_allocator(one_segment_bits, skt)].  The two
    addresses are what [numa_alloc_local] hands back for the hot and the
    cold region. *)
Definition new_region_allocator (hot_base cold_base : Z)
    (one_segment_bits skt : Z) : region_allocator :=
  let segment_bits := one_segment_bits in
  let hot_bits := wrap64 (NUM_SEGMENT_BITS + segment_bits) in
  let hot_capacity := shl64 1 hot_bits in
  let cold_capacity := wrap64 (shl64 1 segment_bits * 2) in
  {| _hot_data := hot_base;
     _cold_data := cold_base;
     _segment_bits := segment_bits;
     _hot_bits := hot_bits;
     _hot_capacity := hot_capacity;
     _cold_capacity := cold_capacity;
     _hot_mask := wrap64 (hot_capacity - 1);
     _cold_mask := wrap64 (cold_capacity - 1);
     _reclaimed_offset := hot_capacity;
     _socket := skt;
     _allocated_hot_offset := 0;
     _allocated_cold_offset := 0;
     _allocated := 0;
     _state := RA_NORMAL |}.

(** ** Allocation *)

Module RAconst.
Definition PAGE_SIZE_BITS : Z := 16.
Definition MEM_SEGMENT_BITS : Z := 30.
Definition TRIM_MARK : Z := 16 * 1024 * 1024.
End RAconst.

Inductive alloc_result :=
  | Returned (p : Z)        (* the pointer handed to the caller *)
  | BadAlloc                (* [std::bad_alloc] *)
  | RuntimeError            (* "GC requested before last round finishes." *)
  | OutOfFuel.              (* the [retry] loop was cut short by the model *)

(** How one pass through the body of [region_allocator::allocate] ends:
    with the call over, or at [goto retry]. *)
Inductive pass_result :=
  | Finished (res : alloc_result)
  | Retry.

(** The body of [region_allocator::allocate] from the label [retry] on.
    [THROW_IF(c, e)], a macro from a header outside these files, throws
    [e] when [c] holds.

    [epoch_advanced] is the answer of the epoch manager, which is not part
    of these files: whether [new_epoch_possible()] and then [new_epoch()]
    both say yes when the allocator asks. *)
Definition allocate_pass (size : Z) (epoch_advanced : bool)
    (r : region_allocator) : pass_result * region_allocator :=
  let noffset := wrap64 (_allocated_hot_offset r + size) in
  let r := with_allocated_hot_offset noffset r in
  if _reclaimed_offset r <? noffset then (Finished BadAlloc, r)
  else
    let r := with_allocated (wrap64 (_allocated r + size)) r in
    let sbits := _segment_bits r in
    if negb (Z.shiftr (wrap64 (noffset - 1)) sbits
             =? Z.shiftr (wrap64 (noffset - size)) sbits)
    then
      if negb (state r =? RA_NORMAL) then (Finished RuntimeError, r)
      else (Retry, set_state RA_GC_REQUESTED r)
    else
      let r :=
        if RAconst.TRIM_MARK <=? _allocated r then
          if epoch_advanced
          then with_allocated
                 (wrap64 (_allocated r + wrap64 (- _allocated r))) r
          else r
        else r in
      (Finished
         (Returned
            (_hot_data r + Z.land (wrap64 (noffset - size)) (_hot_mask r))),
       r).

(** The loop that [goto retry] makes; [fuel] bounds the number of passes. *)
Fixpoint allocate_loop (fuel : nat) (size : Z) (epoch_advanced : bool)
    (r : region_allocator) : alloc_result * region_allocator :=
  match fuel with
  | O => (OutOfFuel, r)
  | S fuel' =>
    match allocate_pass size epoch_advanced r with
    | (Finished res, r') => (res, r')
    | (Retry, r') => allocate_loop fuel' size epoch_advanced r'
    end
  end.

(** [region_allocator::allocate].  A second pass through [retry] starts
    with the state already [RA_GC_REQUESTED], so it cannot jump back a
    second time: two passes are all the loop can make
    (see [allocate_loop_fuel]). *)
Definition allocate (size : Z) (epoch_advanced : bool)
    (r : region_allocator) : alloc_result * region_allocator :=
  allocate_loop 2 size epoch_advanced r.

(** [region_allocator::allocate_cold]. *)
Definition allocate_cold (size : Z) (r : region_allocator)
    : alloc_result * region_allocator :=
  let noffset := wrap64 (_allocated_cold_offset r + size) in
  let r := with_allocated_cold_offset noffset r in
  if _cold_capacity r <? noffset then (BadAlloc, r)
  else (Returned (_cold_data r + Z.land (wrap64 (noffset - size)) (_cold_mask r)),
        r).

(** ** Namespace [RA]: the allocator array and the epoch callbacks *)

Inductive fault :=
  | NullDereference     (* reading the cell behind a null epoch cookie *)
  | ShiftUndefined      (* [1 << n] on an [int] with [n >= 32] *)
  | AssertionFailed     (* an [ASSERT] that does not hold, where checked *)
  | NoSuchSocket.       (* an index outside the allocator array *)

Inductive result (A : Type) :=
  | Ok (a : A)
  | Fault (f : fault).

Arguments Ok {A} a.
Arguments Fault {A} f.

Definition bind {A B} (m : result A) (k : A -> result B) : result B :=
  match m with
  | Ok a => k a
  | Fault f => Fault f
  end.

Notation "'try!' x ':=' m 'in' k" := (bind m (fun x => k))
  (at level 10, x name, m at level 100, k at level 200).

(** An [LSN] is its 64-bit [_val]. *)
Definition LSN := Z.

(** How a call ends where the code has no error path of its own: it runs
    to its end, an [ASSERT] fails, or it does something the language leaves
    undefined (a division by zero, [__builtin_ctzll(0)], an index outside
    an array). *)
Inductive outcome (A : Type) :=
  | Done (a : A)
  | Asserted
  | Undefined.

Arguments Done {A} a.
Arguments Asserted {A}.
Arguments Undefined {A}.

(** Arithmetic on [int] as the atomic built-ins do it, wrapping. *)
Definition wrap_int (x : Z) : Z := (x + 2 ^ 31) mod 2 ^ 32 - 2 ^ 31.

Module RA.

Record globals := mk_globals {
  ra : list region_allocator;     (* [ra], with [ra_nsock = length ra] *)
  trim_lsn : LSN;
  system_loading : bool
}.

Definition ra_nsock (g : globals) : nat := length (ra g).

Section Callbacks.

(** [INVALID_LSN] is declared in a header outside these files. *)
Variable INVALID_LSN : LSN.

(** The globals as static storage has them before [RA::init] runs. *)
Definition at_startup : globals :=
  {| ra := []; trim_lsn := 0; system_loading := false |}.

(** [RA::init], for a machine whose nodes get the regions listed in
    [regions] (hot address, cold address); a second call does nothing. *)
Definition init (regions : list (Z * Z)) (g : globals) : globals :=
  if negb (Nat.eqb (ra_nsock g) 0) then g
  else
    {| ra := imap (fun i hc =>
                new_region_allocator (fst hc) (snd hc)
                  RAconst.MEM_SEGMENT_BITS (Z.of_nat i)) regions;
       trim_lsn := INVALID_LSN;
       system_loading := true |}.

(** The [for] loop of [RA::epoch_ended]: the first allocator that
    asks for or has finished a collection decides.  [None] is the
    [NULL] cookie, [Some l] a fresh cell holding [l]. *)
Fixpoint epoch_ended_loop (rcu_is_active : bool) (cur_lsn : LSN)
    (rs : list region_allocator) : option LSN :=
  match rs with
  | [] => None
  | r :: rs' =>
    let s := state r in
    if (s =? RA_GC_REQUESTED) || (s =? RA_GC_FINISHED)
    then Some (if rcu_is_active then cur_lsn else INVALID_LSN)
    else epoch_ended_loop rcu_is_active cur_lsn rs'
  end.

(** [RA::epoch_ended].  [rcu_is_active] is [RCU::rcu_is_active()] and
    [cur_lsn] is [transaction_base::logger->cur_lsn()]. *)
Definition epoch_ended (rcu_is_active : bool) (cur_lsn : LSN)
    (g : globals) : option LSN :=
  epoch_ended_loop rcu_is_active cur_lsn (ra g).

(** [RA::epoch_ended_thread] hands the epoch cookie on. *)
Definition epoch_ended_thread (epoch_cookie thread_cookie : option LSN)
    : option LSN :=
  epoch_cookie.

(** The body of the [for] loop of [RA::epoch_reclaimed] for one
    allocator.  [trigger_reclaim] wakes the daemon and changes nothing
    in the object. *)
Definition reclaim_one (r : region_allocator) : result region_allocator :=
  let s := state r in
  if s =? RA_GC_REQUESTED then Ok (set_state RA_GC_IN_PROG r)
  else if s =? RA_GC_FINISHED then
    match int_one_shl (_segment_bits r) with
    | None => Fault ShiftUndefined
    | Some one_segment =>
      Ok (set_state RA_NORMAL
            (with_reclaimed_offset
               (wrap64 (_reclaimed_offset r + one_segment)) r))
    end
  else Ok r.

Fixpoint reclaim_all (rs : list region_allocator)
    : result (list region_allocator) :=
  match rs with
  | [] => Ok []
  | r :: rs' =>
    try! r' := reclaim_one r in
    try! rs'' := reclaim_all rs' in
    Ok (r' :: rs'')
  end.

(** [RA::epoch_reclaimed]. *)
Definition epoch_reclaimed (epoch_cookie : option LSN) (g : globals)
    : result globals :=
  match epoch_cookie with
  | None => Fault NullDereference
  | Some lsn =>
    let trim := if negb (lsn =? INVALID_LSN) then lsn else trim_lsn g in
    try! rs := reclaim_all (ra g) in
    Ok {| ra := rs; trim_lsn := trim;
          system_loading := system_loading g |}
  end.

(** The end of one round of [region_allocator::reclaim_daemon]: the
    table walk only touches the allocator through [allocate] and
    [allocate_cold]; then comes
    [ASSERT(myra->state() == RA_GC_IN_PROG)] and the state change. *)
Definition reclaim_daemon_finish (r : region_allocator)
    : result region_allocator :=
  if state r =? RA_GC_IN_PROG then Ok (set_state RA_GC_FINISHED r)
  else Fault AssertionFailed.

(** *** Histories

    What can happen to the allocator array: a call of a method on the
    allocator of one socket, the end of a daemon round, a reclaimed
    epoch. *)
Inductive event :=
  | EvAllocate (socket : nat) (size : Z) (epoch_advanced : bool)
  | EvAllocateCold (socket : nat) (size : Z)
  | EvDaemonFinish (socket : nat)
  | EvEpochReclaimed (epoch_cookie : option LSN).

Definition on_socket (i : nat) (g : globals)
    (f : region_allocator -> result region_allocator) : result globals :=
  match ra g !! i with
  | None => Fault NoSuchSocket
  | Some r =>
    try! r' := f r in
    Ok {| ra := <[i := r']> (ra g); trim_lsn := trim_lsn g;
          system_loading := system_loading g |}
  end.

Definition exec (ev : event) (g : globals) : result globals :=
  match ev with
  | EvAllocate i size adv =>
      on_socket i g (fun r => Ok (snd (allocate size adv r)))
  | EvAllocateCold i size =>
      on_socket i g (fun r => Ok (snd (allocate_cold size r)))
  | EvDaemonFinish i => on_socket i g reclaim_daemon_finish
  | EvEpochReclaimed c => epoch_reclaimed c g
  end.

Fixpoint run (evs : list event) (g : globals) : result globals :=
  match evs with
  | [] => Ok g
  | ev :: evs' => try! g' := exec ev g in run evs' g'
  end.

(** A property of every step of a history. *)
Fixpoint every_step (P : event -> globals -> bool) (evs : list event)
    (g : globals) : bool :=
  match evs with
  | [] => true
  | ev :: evs' =>
    P ev g &&
    match exec ev g with
    | Ok g' => every_step P evs' g'
    | Fault _ => true
    end
  end.

(** The 64-bit counters do not wrap in this step, and a hot
    allocation asks for at least one byte.  An [allocate] adds [size]
    to the cursor once per pass, at most twice. *)
Definition in_range (ev : event) (g : globals) : bool :=
  match ev with
  | EvAllocate i size _ =>
    match ra g !! i with
    | Some r => (0 <? size) && (_allocated_hot_offset r + 2 * size <? 2 ^ 64)
    | None => true
    end
  | EvEpochReclaimed _ =>
    forallb (fun r => _reclaimed_offset r + 2 ^ _segment_bits r <? 2 ^ 64)
            (ra g)
  | _ => true
  end.

(** The step is not an [allocate] that throws [std::bad_alloc]. *)
Definition no_bad_alloc (ev : event) (g : globals) : bool :=
  match ev with
  | EvAllocate i size adv =>
    match ra g !! i with
    | Some r =>
      match fst (allocate size adv r) with
      | BadAlloc => false
      | _ => true
      end
    | None => true
    end
  | _ => true
  end.

End Callbacks.

(** [RA::register_thread].  [ra_nthreads] is the global ticket counter,
    [tls_ra] the calling thread's allocator, as an index into [ra]
    ([None] for the null pointer).  The result is the pair of both after
    the call. *)
Definition register_thread (g : globals) (ra_nthreads : Z)
    (tls_ra : option Z) : outcome (Z * option Z) :=
  match tls_ra with
  | Some _ => Done (ra_nthreads, tls_ra)
  | None =>
    let rnum := ra_nthreads in
    let ra_nthreads := wrap_int (ra_nthreads + 1) in
    if Nat.eqb (ra_nsock g) 0 then Undefined
    else
      let snum := Z.rem rnum (Z.of_nat (ra_nsock g)) in
      Done (ra_nthreads, Some snum)
  end.

(** The allocator a call works on: [tls_ra], or for a thread that never
    registered [&ra[sched_getcpu() % ra_nsock]]; [cpu] is what
    [sched_getcpu()] answers. *)
Definition my_ra (g : globals) (tls_ra : option Z) (cpu : Z) : outcome nat :=
  let at_index (i : Z) : outcome nat :=
    if (0 <=? i) && (i <? Z.of_nat (ra_nsock g)) then Done (Z.to_nat i)
    else Undefined in
  match tls_ra with
  | Some i => at_index i
  | None =>
    if Nat.eqb (ra_nsock g) 0 then Undefined
    else at_index (Z.rem cpu (Z.of_nat (ra_nsock g)))
  end.

Definition update_ra (i : nat) (r : region_allocator) (g : globals)
    : globals :=
  {| ra := <[i := r]> (ra g); trim_lsn := trim_lsn g;
     system_loading := system_loading g |}.

(** [RA::allocate]. *)
Definition allocate (tls_ra : option Z) (cpu : Z) (size : Z)
    (epoch_advanced : bool) (g : globals)
    : outcome (alloc_result * globals) :=
  match my_ra g tls_ra cpu with
  | Done i =>
    match ra g !! i with
    | Some myra =>
      if negb (system_loading g) then
        let (res, myra') := allocate size epoch_advanced myra in
        Done (res, update_ra i myra' g)
      else
        let (res, myra') := allocate_cold size myra in
        Done (res, update_ra i myra' g)
    | None => Undefined
    end
  | Asserted => Asserted
  | Undefined => Undefined
  end.

(** [RA::allocate_cold]. *)
Definition allocate_cold (tls_ra : option Z) (cpu : Z) (size : Z)
    (g : globals) : outcome (alloc_result * globals) :=
  match my_ra g tls_ra cpu with
  | Done i =>
    match ra g !! i with
    | Some myra =>
      let (res, myra') := allocate_cold size myra in
      Done (res, update_ra i myra' g)
    | None => Undefined
    end
  | Asserted => Asserted
  | Undefined => Undefined
  end.

(** The segment a round of [region_allocator::reclaim_daemon] drains:
    [start_offset] and [end_offset], with the two [ASSERT]s on them.
    [seg_size] is [1 << _segment_bits] computed on an [int]. *)
Definition reclaim_daemon_segment (myra : region_allocator)
    : result (Z * Z) :=
  match int_one_shl (_segment_bits myra) with
  | None => Fault ShiftUndefined
  | Some seg_size =>
    let start_offset := Z.land (_reclaimed_offset myra) (_hot_mask myra) in
    let end_offset := wrap64 (start_offset + seg_size) in
    if negb (Z.land start_offset (wrap64 (seg_size - 1)) =? 0)
    then Fault AssertionFailed
    else if negb (Z.land end_offset (wrap64 (seg_size - 1)) =? 0)
    then Fault AssertionFailed
    else Ok (start_offset, end_offset)
  end.

End RA.

(** ** Namespace [TXN]: reader-bitmap slots *)

Module TXN.

Section Bitmap.

(** [rl_bitmap_t] is [dbtuple::rl_bitmap_t], an unsigned integer type
    declared outside these files; [W] is its width in bits. *)
Variable W : Z.

Definition wrapW (x : Z) : Z := x mod 2 ^ W.

(** The part of a [dbtuple] the reader protocol touches. *)
Record dbtuple := mk_dbtuple { rl_bitmap : Z }.

(** [tls_bitmap_entry] of the calling thread and the process-wide
    [claimed_bitmap_entries]. *)
Record slots := mk_slots {
  tls_bitmap_entry : Z;
  claimed_bitmap_entries : Z
}.

(** [serial_get_tuple_readers]. *)
Definition serial_get_tuple_readers (tls : Z) (tup : dbtuple)
    (exclude_self : bool) : Z :=
  if exclude_self
  then Z.land (rl_bitmap tup) (wrapW (Z.lnot tls))
  else rl_bitmap tup.

(** The [retry] loop of [assign_reader_bitmap_entry].  [old_bitmap] is
    what this thread last saw in [claimed_bitmap_entries].  The word
    still holds that value when the compare-and-swap runs unless
    another thread stored something in between; [stores] lists those
    values, one per attempt that another thread got ahead of.  The
    result is the new [tls_bitmap_entry] and the word as the swap
    leaves it. *)
Fixpoint assign_retry (stores : list Z) (old_bitmap : Z) : Z * Z :=
  let new_bitmap := Z.lor old_bitmap (wrapW (old_bitmap + 1)) in
  match stores with
  | [] => (Z.lxor new_bitmap old_bitmap, new_bitmap)
  | cur_bitmap :: stores' =>
    if negb (old_bitmap =? cur_bitmap)
    then assign_retry stores' cur_bitmap
    else (Z.lxor new_bitmap old_bitmap, new_bitmap)
  end.

(** [assign_reader_bitmap_entry]. *)
Definition assign_reader_bitmap_entry (stores : list Z) (s : slots)
    : slots :=
  if negb (tls_bitmap_entry s =? 0) then s
  else
    let old_bitmap := claimed_bitmap_entries s in
    let (tls, claimed) := assign_retry stores old_bitmap in
    {| tls_bitmap_entry := tls; claimed_bitmap_entries := claimed |}.

(** [deassign_reader_bitmap_entry], with its two [ASSERT]s. *)
Definition deassign_reader_bitmap_entry (s : slots) : result slots :=
  if tls_bitmap_entry s =? 0 then Fault AssertionFailed
  else if Z.land (claimed_bitmap_entries s) (tls_bitmap_entry s) =? 0
  then Fault AssertionFailed
  else Ok {| tls_bitmap_entry := 0;
             claimed_bitmap_entries :=
               Z.lxor (claimed_bitmap_entries s) (tls_bitmap_entry s) |}.

(** [serial_register_reader_tx]; the [xid] plays no part.  The
    function returns [true] unless its [ASSERT] fails. *)
Definition serial_register_reader_tx (tls : Z) (t : dbtuple)
    : result (bool * dbtuple) :=
  let old_bitmap := rl_bitmap t in
  if Z.land old_bitmap tls =? 0 then
    let t := {| rl_bitmap := Z.lor (rl_bitmap t) tls |} in
    if Z.land (rl_bitmap t) tls =? 0 then Fault AssertionFailed
    else Ok (true, t)
  else Ok (true, t).

(** [serial_deregister_reader_tx], with the [ASSERT] on entry and the
    one on exit. *)
Definition serial_deregister_reader_tx (tls : Z) (t : dbtuple)
    : result dbtuple :=
  if tls =? 0 then Fault AssertionFailed
  else
    let t :=
      if negb (Z.land (rl_bitmap t) tls =? 0)
      then {| rl_bitmap := Z.lxor (rl_bitmap t) tls |}
      else t in
    if Z.land (rl_bitmap t) tls =? 0 then Ok t
    else Fault AssertionFailed.

(** [n] calls of [serial_deregister_reader_tx] on the same tuple, as
    post-commit makes them for a tuple read [n] times. *)
Fixpoint deregister_times (n : nat) (tls : Z) (t : dbtuple)
    : result dbtuple :=
  match n with
  | O => Ok t
  | S n' =>
    try! t' := serial_deregister_reader_tx tls t in
    deregister_times n' tls t'
  end.

End Bitmap.

(** *** The readers list *)

Fixpoint trailing_zeros (p : positive) : nat :=
  match p with
  | xO q => S (trailing_zeros q)
  | xI _ => O
  | xH => O
  end.

(** [__builtin_ctzll], which the compiler leaves undefined for [0]. *)
Definition ctzll (x : Z) : outcome nat :=
  match x with
  | Zpos p => Done (trailing_zeros p)
  | _ => Undefined
  end.

(** [rlist]: the two arrays of [readers_list], each entry its [_val]. *)
Record readers_list := mk_readers_list {
  xids : list Z;
  last_read_mostly_clsns : list Z
}.

(** [serial_register_tx], for a calling thread whose [tls_bitmap_entry]
    is [tls]. *)
Definition serial_register_tx (tls : Z) (xid : Z) (rlist : readers_list)
    : outcome readers_list :=
  match ctzll tls with
  | Done i =>
    match xids rlist !! i with
    | Some v =>
      if negb (v =? 0) then Asserted
      else Done {| xids := <[i := xid]> (xids rlist);
                   last_read_mostly_clsns := last_read_mostly_clsns rlist |}
    | None => Undefined
    end
  | Asserted => Asserted
  | Undefined => Undefined
  end.

(** [serial_deregister_tx]; the [ASSERT] after the store always holds. *)
Definition serial_deregister_tx (tls : Z) (xid : Z) (rlist : readers_list)
    : outcome readers_list :=
  match ctzll tls with
  | Done i =>
    match xids rlist !! i with
    | Some _ =>
      Done {| xids := <[i := 0]> (xids rlist);
              last_read_mostly_clsns := last_read_mostly_clsns rlist |}
    | None => Undefined
    end
  | Asserted => Asserted
  | Undefined => Undefined
  end.

(** [serial_stamp_last_committed_lsn]. *)
Definition serial_stamp_last_committed_lsn (tls : Z) (lsn : LSN)
    (rlist : readers_list) : outcome readers_list :=
  match ctzll tls with
  | Done i =>
    match last_read_mostly_clsns rlist !! i with
    | Some _ =>
      Done {| xids := xids rlist;
              last_read_mostly_clsns :=
                <[i := lsn]> (last_read_mostly_clsns rlist) |}
    | None => Undefined
    end
  | Asserted => Asserted
  | Undefined => Undefined
  end.

(** [serial_get_last_read_mostly_cstamp]; [offset] is [LSN::offset()],
    which a header outside these files defines. *)
Definition serial_get_last_read_mostly_cstamp (offset : LSN -> Z)
    (xid_idx : Z) (rlist : readers_list) : outcome Z :=
  if xid_idx <? 0 then Undefined
  else
    match last_read_mostly_clsns rlist !! Z.to_nat xid_idx with
    | Some lsn => Done (offset lsn)
    | None => Undefined
    end.

(** *** Readers of one tuple

    Threads, each named by the position of its bit, registering and
    deregistering as readers of one tuple, one call after the other. *)
Inductive reader_event :=
  | Register (slot : Z)
  | Deregister (slot : Z).

Definition reader_step (ev : reader_event) (t : dbtuple) : result dbtuple :=
  match ev with
  | Register i =>
    try! done := serial_register_reader_tx (2 ^ i) t in Ok (snd done)
  | Deregister i => serial_deregister_reader_tx (2 ^ i) t
  end.

Fixpoint reader_run (evs : list reader_event) (t : dbtuple)
    : result dbtuple :=
  match evs with
  | [] => Ok t
  | ev :: evs' => try! t' := reader_step ev t in reader_run evs' t'
  end.

(** *** Threads coming and going

    [tls_bitmap_entry] of every thread, by thread number, beside the one
    [claimed_bitmap_entries]. *)
Record process := mk_process {
  threads : list Z;
  claimed : Z
}.

Inductive slot_event :=
  | Assign (thread : nat)
  | Deassign (thread : nat).

(** One call of [assign_reader_bitmap_entry] or
    [deassign_reader_bitmap_entry] by a thread, with no other thread
    writing the claimed word meanwhile.  An event of a thread number that
    is not in the list is no call at all. *)
Definition slot_step (W : Z) (ev : slot_event) (p : process)
    : result process :=
  match ev with
  | Assign t =>
    match threads p !! t with
    | None => Ok p
    | Some tls =>
      let s := assign_reader_bitmap_entry W []
                 {| tls_bitmap_entry := tls;
                    claimed_bitmap_entries := claimed p |} in
      Ok {| threads := <[t := tls_bitmap_entry s]> (threads p);
            claimed := claimed_bitmap_entries s |}
    end
  | Deassign t =>
    match threads p !! t with
    | None => Ok p
    | Some tls =>
      try! s := deassign_reader_bitmap_entry
                  {| tls_bitmap_entry := tls;
                     claimed_bitmap_entries := claimed p |} in
      Ok {| threads := <[t := tls_bitmap_entry s]> (threads p);
            claimed := claimed_bitmap_entries s |}
    end
  end.

Fixpoint slot_run (W : Z) (evs : list slot_event) (p : process)
    : result process :=
  match evs with
  | [] => Ok p
  | ev :: evs' => try! p' := slot_step W ev p in slot_run W evs' p'
  end.

End TXN.

(** A run of [allocate_cold] calls on one allocator, with what each call
    gave. *)
Fixpoint allocate_cold_all (sizes : list Z) (r : region_allocator)
    : list alloc_result * region_allocator :=
  match sizes with
  | [] => ([], r)
  | size :: sizes' =>
    let (res, r1) := allocate_cold size r in
    let (ress, r2) := allocate_cold_all sizes' r1 in
    (res :: ress, r2)
  end.

(** A run of [allocate] calls on one allocator, each with its size and
    the epoch manager's answer, and what each call gave. *)
Fixpoint allocate_all (requests : list (Z * bool)) (r : region_allocator)
    : list alloc_result * region_allocator :=
  match requests with
  | [] => ([], r)
  | (size, epoch_advanced) :: requests' =>
    let (res, r1) := allocate size epoch_advanced r in
    let (ress, r2) := allocate_all requests' r1 in
    (res :: ress, r2)
  end.

(** ** The table walk of [region_allocator::reclaim_daemon]

    One round of the daemon with no other thread running: a
    compare-and-swap succeeds exactly when the word still holds the value
    the daemon expects. *)

Module Reclaim.

(** An [object] with the [dbtuple] it carries, as far as the daemon looks
    at them: [_size], [_next] ([0] for the null pointer) and the [clsn] of
    the tuple in [payload()]. *)
Record object := mk_object {
  _size : Z;
  _next : Z;
  clsn : Z
}.

Definition with_next (next : Z) (o : object) : object :=
  {| _size := _size o; _next := next; clsn := clsn o |}.

(** What the daemon works on: the objects by address, the tuple vector of
    every registered table (entry [oid] is what [begin(oid)] reads and
    [begin_ptr(oid)] points to), the allocator of the daemon's socket, and
    the answers the epoch manager will give to the calls of [allocate],
    in order ([false] once the list is used up). *)
Record store := mk_store {
  heap : gmap Z object;
  tables : list (list Z);
  myra : region_allocator;
  answers : list bool
}.

Definition with_heap (h : gmap Z object) (st : store) : store :=
  mk_store h (tables st) (myra st) (answers st).

Definition with_head (table oid : nat) (p : Z) (st : store) : store :=
  match tables st !! table with
  | Some v =>
    mk_store (heap st) (<[table := <[oid := p]> v]> (tables st))
             (myra st) (answers st)
  | None => st
  end.

Definition begin (table oid : nat) (st : store) : option Z :=
  match tables st !! table with
  | Some v => v !! oid
  | None => None
  end.

(** How a piece of the round ends: it goes on, [allocate] or
    [allocate_cold] throws and nothing catches it, a pointer that is
    followed leads to no object, an [ASSERT] fails or the shift that gives
    [seg_size] is undefined, [memcpy] is called on ranges that overlap, or
    the walk is cut short by its bound. *)
Inductive ended (A : Type) :=
  | Went (a : A)
  | Threw (e : alloc_result)
  | Dangling
  | Faulted (f : fault)
  | Overlap
  | Spent.

Arguments Went {A} a.
Arguments Threw {A} e.
Arguments Dangling {A}.
Arguments Faulted {A} f.
Arguments Overlap {A}.
Arguments Spent {A}.

(** An object occupies the [_size] bytes from its address on.  The ranges
    [p, p + n) and [q, q + m) have a byte in common. *)
Definition overlaps (p n q m : Z) : bool :=
  Z.max p q <? Z.min (p + n) (q + m).

(** [memcpy(dst, src, size)] for the object [o] of [size] bytes at [src],
    on ranges that do not overlap: [dst] holds [o], and every object that
    had a byte in [dst, dst + size) is overwritten; the heap holds it no
    more. *)
Definition memcpy (dst : Z) (o : object) (h : gmap Z object)
    : gmap Z object :=
  <[dst := o]>
    (filter (fun qo : Z * object =>
               overlaps dst (_size o) (fst qo) (_size (snd qo)) = false) h).

Section Walk.

(** [LSN::from_ptr] and the order on [LSN] come from headers outside these
    files. *)
Variable from_ptr : Z -> LSN.
Variable lsn_lt : LSN -> LSN -> bool.

Variables (tlsn : LSN) (start_offset end_offset : Z).

(** [offset >= start_offset && offset + size <= end_offset] for the
    object at [cur]. *)
Definition in_segment (st : store) (cur size : Z) : bool :=
  let offset := wrap64 (cur - _hot_data (myra st)) in
  (start_offset <=? offset) && (wrap64 (offset + size) <=? end_offset).

(** [myra->allocate(size)], with the next answer of the epoch manager. *)
Definition hot_copy (size : Z) (st : store) : alloc_result * store :=
  let adv := match answers st with a :: _ => a | [] => false end in
  let (res, r) := allocate size adv (myra st) in
  (res, mk_store (heap st) (tables st) r (tail (answers st))).

(** [new_obj = myra->allocate_cold(size); memcpy(new_obj, cur, size);
    new_obj->_next = NULL] for the object [obj] at [cur]. *)
Definition cold_copy (cur : Z) (obj : object) (st : store)
    : ended (Z * store) :=
  let size := _size obj in
  match allocate_cold size (myra st) with
  | (Returned new_obj, r) =>
    if overlaps new_obj size cur size then Overlap
    else
      let h := memcpy new_obj obj (heap st) in
      Went (new_obj,
            mk_store (<[new_obj := with_next 0 obj]> h) (tables st) r
                     (answers st))
  | (e, _) => Threw e
  end.

(** [__sync_bool_compare_and_swap(&prev->_next, cur, new_obj)]. *)
Definition cas_next (prev cur new_obj : Z) (st : store)
    : ended (bool * store) :=
  match heap st !! prev with
  | None => Dangling
  | Some pobj =>
    if _next pobj =? cur
    then Went (true, with_heap (<[prev := with_next new_obj pobj]> (heap st)) st)
    else Went (false, st)
  end.

(** [__sync_bool_compare_and_swap(v->begin_ptr(oid), cur, new_obj)]. *)
Definition cas_head (table oid : nat) (cur new_obj : Z) (st : store)
    : ended (bool * store) :=
  match begin table oid st with
  | None => Dangling
  | Some p =>
    if p =? cur then Went (true, with_head table oid new_obj st)
    else Went (false, st)
  end.

(** The [while (cur)] loop.  The flag of the result says whether the walk
    of this [oid] is over ([true]) or starts over ([false]). *)
Fixpoint chain_loop (fuel : nat) (table oid : nat) (head cur prev : Z)
    (st : store) : ended (bool * store) :=
  match fuel with
  | O => Spent
  | S fuel' =>
    if cur =? 0 then Went (true, st)
    else
      match heap st !! cur with
      | None => Dangling
      | Some obj =>
        let size := _size obj in
        if in_segment st cur size then
          if lsn_lt (from_ptr (clsn obj)) tlsn && negb (prev =? 0) then
            cas_next prev cur 0 st
          else
            match hot_copy size st with
            | (Returned new_obj, st) =>
              let st := with_heap (<[new_obj := obj]> (heap st)) st in
              let swapped :=
                if cur =? head then
                  if negb (prev =? 0) then Faulted AssertionFailed
                  else cas_head table oid cur new_obj st
                else
                  if prev =? 0 then Faulted AssertionFailed
                  else cas_next prev cur new_obj st in
              match swapped with
              | Went (true, st) =>
                match heap st !! cur with
                | None => Dangling
                | Some obj' =>
                  chain_loop fuel' table oid head (_next obj') cur st
                end
              | other => other
              end
            | (e, _) => Threw e
            end
        else chain_loop fuel' table oid head (_next obj) cur st
      end
  end.

(** The body of the [for] loop over [oid], from [start_over] on. *)
Fixpoint walk_oid (fuel : nat) (table oid : nat) (st : store)
    : ended store :=
  match fuel with
  | O => Spent
  | S fuel' =>
    match begin table oid st with
    | None => Dangling
    | Some head =>
      let cur := head in
      if cur =? 0 then Went st
      else
        match heap st !! cur with
        | None => Dangling
        | Some obj =>
          let size := _size obj in
          if in_segment st cur size && lsn_lt (from_ptr (clsn obj)) tlsn then
            match cold_copy cur obj st with
            | Went (new_obj, st) =>
              match cas_head table oid cur new_obj st with
              | Went (true, st) => Went st
              | Went (false, st) => walk_oid fuel' table oid st
              | Threw e => Threw e
              | Dangling => Dangling
              | Faulted f => Faulted f
              | Overlap => Overlap
              | Spent => Spent
              end
            | Threw e => Threw e
            | Dangling => Dangling
            | Faulted f => Faulted f
            | Overlap => Overlap
            | Spent => Spent
            end
          else
            match chain_loop fuel' table oid head cur 0 st with
            | Went (true, st) => Went st
            | Went (false, st) => walk_oid fuel' table oid st
            | Threw e => Threw e
            | Dangling => Dangling
            | Faulted f => Faulted f
            | Overlap => Overlap
            | Spent => Spent
            end
        end
    end
  end.

(** [for (oid_type oid = 1; oid < v->size(); oid++)], given the [oid]s
    still to come. *)
Fixpoint walk_oids (fuel : nat) (table : nat) (oids : list nat) (st : store)
    : ended store :=
  match oids with
  | [] => Went st
  | oid :: oids' =>
    match walk_oid fuel table oid st with
    | Went st => walk_oids fuel table oids' st
    | other => other
    end
  end.

(** [for (uint i = 0; i < RA::tables.size(); i++)], given the tables still
    to come. *)
Fixpoint walk_tables (fuel : nat) (todo : list nat) (st : store)
    : ended store :=
  match todo with
  | [] => Went st
  | table :: todo' =>
    match tables st !! table with
    | None => Dangling
    | Some v =>
      match walk_oids fuel table (seq 1 (length v - 1)) st with
      | Went st => walk_tables fuel todo' st
      | other => other
      end
    end
  end.

End Walk.

(** One round of the daemon after it is woken: the segment to drain, the
    walk over all tables with [tlsn = RA::trim_lsn], the [ASSERT] on the
    state and the change to [RA_GC_FINISHED]. *)
Definition reclaim_daemon_round (from_ptr : Z -> LSN)
    (lsn_lt : LSN -> LSN -> bool) (fuel : nat) (trim_lsn : LSN)
    (st : store) : ended store :=
  match RA.reclaim_daemon_segment (myra st) with
  | Fault f => Faulted f
  | Ok (start_offset, end_offset) =>
    match walk_tables from_ptr lsn_lt trim_lsn start_offset end_offset
            fuel (seq 0 (length (tables st))) st with
    | Went st =>
      match RA.reclaim_daemon_finish (myra st) with
      | Ok r => Went (mk_store (heap st) (tables st) r (answers st))
      | Fault f => Faulted f
      end
    | other => other
    end
  end.

End Reclaim.

(** ** Vocabulary of the statements *)

(** The hot region is a ring of [2^k] bytes addressed through its mask. *)
Definition hot_ring (r : region_allocator) : Prop :=
  exists k, 0 <= k /\ _hot_capacity r = 2 ^ k /\ _hot_mask r = 2 ^ k - 1.

(** The fields that no method writes after construction. *)
Definition same_layout (r r' : region_allocator) : Prop :=
  _hot_data r' = _hot_data r /\ _cold_data r' = _cold_data r /\
  _segment_bits r' = _segment_bits r /\ _hot_bits r' = _hot_bits r /\
  _hot_capacity r' = _hot_capacity r /\ _cold_capacity r' = _cold_capacity r /\
  _hot_mask r' = _hot_mask r /\ _cold_mask r' = _cold_mask r /\
  _socket r' = _socket r.

(** An allocator as the constructor leaves it, for a segment size whose
    [1 << _segment_bits] fits a plain [int]. *)
Definition fresh (r : region_allocator) : Prop :=
  exists hot_base cold_base s skt,
    0 <= s <= 30 /\ r = new_region_allocator hot_base cold_base s skt.

(** The window between the allocation cursor and the reclaimed bound. *)
Definition window (r : region_allocator) : Z :=
  _reclaimed_offset r - _allocated_hot_offset r.

(** A collection that was asked for and whose segment has not been handed
    back yet is worth one segment. *)
Definition pending (r : region_allocator) : Z :=
  if state r =? RA_NORMAL then 0 else 2 ^ _segment_bits r.

(** The cursor has entered at least as many segments as were handed back
    or are on their way. *)
Definition upper_inv (r : region_allocator) : Prop :=
  0 <= _segment_bits r <= 30
  /\ 0 <= _allocated_hot_offset r < 2 ^ 64
  /\ 0 <= _reclaimed_offset r
  /\ _reclaimed_offset r + pending r
     <= _hot_capacity r
        + 2 ^ _segment_bits r * (_allocated_hot_offset r / 2 ^ _segment_bits r).

Definition lower_inv (r : region_allocator) : Prop :=
  _allocated_hot_offset r <= _reclaimed_offset r.

(** What a history keeps true of every allocator; the lower bound only
    when [strict] histories are looked at. *)
Definition window_inv (strict : bool) (r : region_allocator) : Prop :=
  upper_inv r /\ (strict = true -> lower_inv r).

(** ** Sample machines and histories *)

(** A one-socket machine right after [RA::init]. *)
Definition one_socket : RA.globals :=
  RA.init 0 [(65536, 2 ^ 40)] RA.at_startup.

(** One collection cycle: fill the first segment, cross its end, let the
    epoch callback start the daemon, let the daemon relocate something and
    finish, reclaim. *)
Definition one_cycle : list RA.event :=
  [RA.EvAllocate 0 (2 ^ 30 - 8) false;
   RA.EvAllocate 0 64 false;
   RA.EvEpochReclaimed (Some 5);
   RA.EvAllocateCold 0 100;
   RA.EvDaemonFinish 0;
   RA.EvEpochReclaimed (Some 7)].

(** A cycle set off by a request of no bytes. *)
Definition empty_request_cycle : list RA.event :=
  [RA.EvAllocate 0 0 false;
   RA.EvEpochReclaimed (Some 5);
   RA.EvDaemonFinish 0;
   RA.EvEpochReclaimed (Some 7)].

(** A history without [std::bad_alloc] in which the cursor wraps: after a
    first cycle and a request that asks for the next one, a request of
    [2^64 - 3 * 2^30 - 1] bytes brings the cursor back to [2]. *)
Definition wrapping_history : list RA.event :=
  [RA.EvAllocate 0 (2 ^ 30 - 1) false;
   RA.EvAllocate 0 2 false;
   RA.EvEpochReclaimed (Some 5);
   RA.EvDaemonFinish 0;
   RA.EvEpochReclaimed (Some 7);
   RA.EvAllocate 0 (2 ^ 30) false;
   RA.EvAllocate 0 (2 ^ 64 - 3 * 2 ^ 30 - 1) false].




(** The allocator asks for a collection or has one finished. *)
Definition wants_epoch (r : region_allocator) : Prop :=
  state r = RA_GC_REQUESTED \/ state r = RA_GC_FINISHED.

(** A machine whose second socket waits for its collection to start. *)
Definition two_sockets_one_requested : RA.globals :=
  {| RA.ra := [new_region_allocator 65536 (2 ^ 40) 30 0;
               set_state RA_GC_REQUESTED
                 (new_region_allocator (2 ^ 41) (2 ^ 42) 30 1)];
     RA.trim_lsn := 1234;
     RA.system_loading := false |}.

(** The bytes asked for by a list of requests. *)
Definition total (sizes : list Z) : Z := foldr Z.add 0 sizes.

(** The cold region is [2^k] bytes addressed through its mask. *)
Definition cold_ring (k : Z) (r : region_allocator) : Prop :=
  0 <= k < 64 /\ _cold_capacity r = 2 ^ k /\ _cold_mask r = 2 ^ k - 1.

(** The byte ranges [[p, p + n)] and [[q, q + m)] have no byte in common. *)
Definition disjoint_ranges (p n q m : Z) : Prop :=
  forall x, ~ (p <= x < p + n /\ q <= x < q + m).

(** Requests that fill the cold region of the shipped configuration to the
    last byte, followed by a request of no bytes. *)
Definition fill_then_empty : list Z := [2 ^ 31; 0].
Definition three_cold_requests : list Z := [100; 0; 2 ^ 31 - 100].

(** The hot ring of an allocator built for segments of [2^s] bytes. *)
Definition laid_out (s : Z) (r : region_allocator) : Prop :=
  0 <= s <= 61 /\ _segment_bits r = s
  /\ _hot_capacity r = 2 ^ (s + 2) /\ _hot_mask r = 2 ^ (s + 2) - 1.

(** The sizes of a run of requests, each counted twice: a call moves the
    cursor by its size once or twice. *)
Definition twice_total (requests : list (Z * bool)) : Z :=
  foldr (fun q acc => 2 * fst q + acc) 0 requests.

(** Four requests on the shipped configuration, the third one crossing
    into the second segment. *)
Definition four_requests : list (Z * bool) :=
  [(2 ^ 29, false); (2 ^ 29 - 16, true); (64, false); (4096, false)].

(** Requests made after the regions ran out. *)
Definition late_cold_requests : list Z := [8; 0; 4096].
Definition late_requests : list (Z * bool) := [(8, false); (0, true); (4096, false)].

(** The changes of collection state the code makes, and what happens to
    [_reclaimed_offset] on each. *)
Definition gc_arc (r r' : region_allocator) : Prop :=
  (state r' = state r /\ _reclaimed_offset r' = _reclaimed_offset r)
  \/ (state r = RA_NORMAL /\ state r' = RA_GC_REQUESTED
      /\ _reclaimed_offset r' = _reclaimed_offset r)
  \/ (state r = RA_GC_REQUESTED /\ state r' = RA_GC_IN_PROG
      /\ _reclaimed_offset r' = _reclaimed_offset r)
  \/ (state r = RA_GC_IN_PROG /\ state r' = RA_GC_FINISHED
      /\ _reclaimed_offset r' = _reclaimed_offset r)
  \/ (state r = RA_GC_FINISHED /\ state r' = RA_NORMAL
      /\ exists one_segment,
           int_one_shl (_segment_bits r) = Some one_segment
           /\ _reclaimed_offset r'
              = wrap64 (_reclaimed_offset r + one_segment)).

(** [_reclaimed_offset] is a whole number of segments. *)
Definition aligned (r : region_allocator) : Prop :=
  0 <= _segment_bits r <= 30
  /\ laid_out (_segment_bits r) r
  /\ 0 <= _reclaimed_offset r
  /\ _reclaimed_offset r mod 2 ^ _segment_bits r = 0.

(** A four-socket machine right after [RA::init]. *)
Definition four_sockets : RA.globals :=
  RA.init 0 [(2 ^ 36, 2 ^ 40); (2 ^ 37, 2 ^ 41); (2 ^ 38, 2 ^ 42);
             (2 ^ 39, 2 ^ 43)] RA.at_startup.

(** What the calls of a history make of bit [k], which started as [b]:
    the last call of the thread that owns the bit decides. *)
Definition bit_after (evs : list TXN.reader_event) (k : Z) (b : bool) : bool :=
  fold_left (fun b ev =>
               match ev with
               | TXN.Register i => if i =? k then true else b
               | TXN.Deregister i => if i =? k then false else b
               end) evs b.

Definition event_slot (ev : TXN.reader_event) : Z :=
  match ev with
  | TXN.Register i => i
  | TXN.Deregister i => i
  end.

(** Two readers of one tuple, the first reading it twice. *)
Definition two_readers : list TXN.reader_event :=
  [TXN.Register 0; TXN.Register 5; TXN.Register 0;
   TXN.Deregister 0; TXN.Deregister 5; TXN.Deregister 0].

(** Every thread holds no slot or one bit, a bit of the claimed word is
    on exactly when some thread holds it, and no two threads hold the
    same bit. *)
Definition slots_ok (W : Z) (p : TXN.process) : Prop :=
  0 <= TXN.claimed p < 2 ^ W
  /\ (forall t m, TXN.threads p !! t = Some m ->
        m = 0 \/ exists k, 0 <= k < W /\ m = 2 ^ k)
  /\ (forall k, 0 <= k ->
        (Z.testbit (TXN.claimed p) k = true
         <-> exists t, TXN.threads p !! t = Some (2 ^ k)))
  /\ (forall t t' k, 0 <= k ->
        TXN.threads p !! t = Some (2 ^ k) ->
        TXN.threads p !! t' = Some (2 ^ k) -> t = t').

(** Three threads on a two-bit bitmap: all three ask for a slot, the
    first leaves, the third asks again. *)
Definition three_threads : TXN.process :=
  {| TXN.threads := [0; 0; 0]; TXN.claimed := 0 |}.

Definition crowded : list TXN.slot_event :=
  [TXN.Assign 0; TXN.Assign 1; TXN.Assign 2; TXN.Deassign 0; TXN.Assign 2].

(** A readers list of four slots, the second one in use. *)
Definition small_rlist : TXN.readers_list :=
  {| TXN.xids := [0; 77; 0; 0];
     TXN.last_read_mostly_clsns := [10; 20; 30; 40] |}.

(** The version chain that starts at [p]: the objects met by following
    [_next] down to the null pointer. *)
Inductive chain (h : gmap Z Reclaim.object)
    : Z -> list (Z * Reclaim.object) -> Prop :=
  | chain_end : chain h 0 []
  | chain_link (p : Z) (o : Reclaim.object) (rest : list (Z * Reclaim.object)) :
      p <> 0 -> h !! p = Some o -> chain h (Reclaim._next o) rest ->
      chain h p ((p, o) :: rest).

(** No object of the chain lies in the segment that is drained. *)
Definition outside (start_offset end_offset : Z) (st : Reclaim.store)
    (l : list (Z * Reclaim.object)) : Prop :=
  Forall (fun po =>
            Reclaim.in_segment start_offset end_offset st (fst po)
              (Reclaim._size (snd po)) = false) l.

(** A store for the shipped configuration, the allocator in the middle of
    a collection of the first segment: one table with one tuple, whose
    newest version [A] (at offset [256], commit stamp [50]) and its
    predecessor [B] (offset [64], stamp [7]) both lie in that segment, and
    an older version in cold storage. *)
Definition hot_base : Z := 2 ^ 36.
Definition cold_base : Z := 2 ^ 40.

Definition draining : region_allocator :=
  set_state RA_GC_IN_PROG
    (with_allocated_hot_offset (2 ^ 30 + 4096)
       (with_allocated_cold_offset 4096
          (new_region_allocator hot_base cold_base 30 0))).

Definition version_C : Reclaim.object :=
  {| Reclaim._size := 100; Reclaim._next := 0; Reclaim.clsn := 3 |}.


(** The same tuple with only the cold version left. *)
Definition only_cold : Reclaim.store :=
  {| Reclaim.heap := <[cold_base + 8 := version_C]> ∅;
     Reclaim.tables := [[0; cold_base + 8]];
     Reclaim.myra := draining;
     Reclaim.answers := [] |}.


(** * Properties *)

(** Case analysis on every test of a conditional in the goal, or in a
    hypothesis. *)
Ltac case_ifs :=
  repeat match goal with
         | |- context [if ?c then _ else _] => destruct c
         end.

Ltac case_ifs_in H :=
  repeat match type of H with
         | context [if ?c then _ else _] => destruct c
         end.

(** ** The hot allocator *)

Section Allocate.

Variables (size : Z) (epoch_advanced : bool) (r : region_allocator).

(** The value the fetch-and-add of a pass produces. *)
Let noffset := wrap64 (_allocated_hot_offset r + size).

(** The object after the two fetch-and-adds of a pass. *)
Let counted :=
  with_allocated (wrap64 (_allocated r + size))
    (with_allocated_hot_offset noffset r).

Let spans : bool :=
  negb (Z.shiftr (wrap64 (noffset - 1)) (_segment_bits r)
        =? Z.shiftr (wrap64 (noffset - size)) (_segment_bits r)).

Lemma allocate_pass_cursor :
  _allocated_hot_offset (snd (allocate_pass size epoch_advanced r)) = noffset.
Proof.
  unfold allocate_pass; cbn.
  case_ifs;
    reflexivity.
Qed.

Lemma allocate_pass_reclaimed :
  _reclaimed_offset (snd (allocate_pass size epoch_advanced r))
  = _reclaimed_offset r.
Proof.
  unfold allocate_pass; cbn.
  case_ifs;
    reflexivity.
Qed.

Lemma allocate_pass_bad_alloc :
  fst (allocate_pass size epoch_advanced r) = Finished BadAlloc
  <-> _reclaimed_offset r < noffset.
Proof.
  unfold allocate_pass; cbn. fold noffset.
  destruct (Z.ltb_spec (_reclaimed_offset r) noffset) as [Hlt | Hge]; cbn.
  - tauto.
  - split; [| lia].
    case_ifs;
      cbn; discriminate.
Qed.

Lemma allocate_pass_retry :
  fst (allocate_pass size epoch_advanced r) = Retry ->
  snd (allocate_pass size epoch_advanced r) = set_state RA_GC_REQUESTED counted
  /\ state r = RA_NORMAL /\ spans = true /\ ~ _reclaimed_offset r < noffset.
Proof.
  unfold allocate_pass; cbn. fold noffset. fold spans.
  destruct (Z.ltb_spec (_reclaimed_offset r) noffset); cbn; [discriminate |].
  destruct spans; cbn; [| discriminate].
  unfold state; cbn.
  destruct (Z.eqb_spec (_state r) RA_NORMAL); cbn; [| discriminate].
  intros _. repeat split; [assumption | lia].
Qed.

(** A pass that starts outside [RA_NORMAL] never reaches [goto retry]. *)
Lemma allocate_pass_no_retry :
  state r <> RA_NORMAL ->
  fst (allocate_pass size epoch_advanced r) <> Retry.
Proof.
  intros Hs Hr. apply allocate_pass_retry in Hr. tauto.
Qed.

End Allocate.

(** Two passes are enough: more fuel changes nothing, and the loop is never
    cut short. *)
Lemma allocate_loop_fuel (n : nat) (size : Z) (adv : bool) (r : region_allocator) :
  allocate_loop (S (S n)) size adv r = allocate size adv r
  /\ fst (allocate size adv r) <> OutOfFuel.
Proof.
  unfold allocate.
  cbn [allocate_loop].
  destruct (allocate_pass size adv r) as [[res | ] r1] eqn:E1.
  - split; [reflexivity |].
    cbn. intros ->.
    unfold allocate_pass in E1.
    case_ifs_in E1;
      discriminate.
  - assert (Hst : state r1 <> RA_NORMAL).
    { pose proof (allocate_pass_retry size adv r) as H.
      rewrite E1 in H. cbn in H. destruct (H eq_refl) as [-> _]. discriminate. }
    pose proof (allocate_pass_no_retry size adv r1 Hst) as Hnr.
    destruct (allocate_pass size adv r1) as [[res | ] r2] eqn:E2.
    + split; [reflexivity |].
      cbn. intros ->.
      unfold allocate_pass in E2.
      case_ifs_in E2;
        discriminate.
    + exfalso. apply Hnr. reflexivity.
Qed.

Local Arguments allocate : simpl never.

Lemma same_layout_refl (r : region_allocator) : same_layout r r.
Proof. unfold same_layout; tauto. Qed.

Lemma same_layout_trans (r1 r2 r3 : region_allocator) :
  same_layout r1 r2 -> same_layout r2 r3 -> same_layout r1 r3.
Proof. unfold same_layout; intuition congruence. Qed.

Lemma allocate_pass_layout (size : Z) (adv : bool) (r : region_allocator) :
  same_layout r (snd (allocate_pass size adv r)).
Proof.
  unfold allocate_pass, same_layout; cbn.
  case_ifs;
    cbn; tauto.
Qed.


(** What a call is in terms of its passes. *)
Lemma allocate_unfold (size : Z) (adv : bool) (r : region_allocator) :
  (exists res, allocate_pass size adv r
               = (Finished res, snd (allocate size adv r))
               /\ fst (allocate size adv r) = res)
  \/ (exists r1 res,
        allocate_pass size adv r = (Retry, r1)
        /\ allocate_pass size adv r1 = (Finished res, snd (allocate size adv r))
        /\ fst (allocate size adv r) = res).
Proof.
  unfold allocate; cbn [allocate_loop].
  destruct (allocate_pass size adv r) as [[res | ] r1] eqn:E1.
  - left. exists res. split; reflexivity.
  - right. exists r1.
    assert (Hst : state r1 <> RA_NORMAL).
    { pose proof (allocate_pass_retry size adv r) as H.
      rewrite E1 in H. cbn in H. destruct (H eq_refl) as [-> _]. discriminate. }
    pose proof (allocate_pass_no_retry size adv r1 Hst) as Hnr.
    destruct (allocate_pass size adv r1) as [[res | ] r2] eqn:E2.
    + exists res. repeat split; reflexivity.
    + exfalso. apply Hnr. reflexivity.
Qed.

Lemma allocate_layout (size : Z) (adv : bool) (r : region_allocator) :
  same_layout r (snd (allocate size adv r)).
Proof.
  destruct (allocate_unfold size adv r) as [(res & E & _) | (r1 & res & E1 & E2 & _)].
  - pose proof (allocate_pass_layout size adv r) as H. rewrite E in H. exact H.
  - pose proof (allocate_pass_layout size adv r) as H1. rewrite E1 in H1.
    pose proof (allocate_pass_layout size adv r1) as H2. rewrite E2 in H2.
    eapply same_layout_trans; eassumption.
Qed.

Lemma allocate_reclaimed (size : Z) (adv : bool) (r : region_allocator) :
  _reclaimed_offset (snd (allocate size adv r)) = _reclaimed_offset r.
Proof.
  destruct (allocate_unfold size adv r) as [(res & E & _) | (r1 & res & E1 & E2 & _)].
  - pose proof (allocate_pass_reclaimed size adv r) as H. rewrite E in H. exact H.
  - pose proof (allocate_pass_reclaimed size adv r) as H1. rewrite E1 in H1.
    pose proof (allocate_pass_reclaimed size adv r1) as H2. rewrite E2 in H2.
    cbn in *. congruence.
Qed.



Lemma new_region_allocator_hot_ring (hot_base cold_base s skt : Z) :
  0 <= s <= 61 -> hot_ring (new_region_allocator hot_base cold_base s skt).
Proof.
  intros Hs. exists (s + 2).
  assert (H64 : 2 ^ (s + 2) < 2 ^ 64) by (apply Z.pow_lt_mono_r; lia).
  assert (Hpos : 0 < 2 ^ (s + 2)) by (apply Z.pow_pos_nonneg; lia).
  assert (Hb : wrap64 (NUM_SEGMENT_BITS + s) = s + 2).
  { unfold wrap64, NUM_SEGMENT_BITS. rewrite Z.mod_small; lia. }
  assert (Hc : shl64 1 (s + 2) = 2 ^ (s + 2)).
  { unfold shl64, wrap64. rewrite Z.shiftl_1_l. apply Z.mod_small. lia. }
  cbn. rewrite Hb, Hc.
  repeat split; [lia |].
  unfold wrap64. apply Z.mod_small. lia.
Qed.


(** C3. In a pass of [allocate] that gets past the out-of-memory test:
    - if [noffset - 1] and [noffset - size] lie in different segments and
      the state is [RA_NORMAL], the chunk is given up, the state becomes
      [RA_GC_REQUESTED] and the call starts over on that object with a new
      fetch-and-add, which moves the cursor to [noffset + size];
    - if they lie in different segments and the state is not [RA_NORMAL],
      the call throws the runtime error;
    - otherwise the call returns [_hot_data + ((noffset - size) & _hot_mask)]. *)
Theorem allocate_spanning_chunk (size : Z) (adv : bool) (r : region_allocator) :
  let noffset := wrap64 (_allocated_hot_offset r + size) in
  let counted :=
    with_allocated (wrap64 (_allocated r + size))
      (with_allocated_hot_offset noffset r) in
  let spans :=
    Z.shiftr (wrap64 (noffset - 1)) (_segment_bits r)
    <> Z.shiftr (wrap64 (noffset - size)) (_segment_bits r) in
  ~ _reclaimed_offset r < noffset ->
  (spans -> state r = RA_NORMAL ->
     allocate size adv r = allocate size adv (set_state RA_GC_REQUESTED counted)
     /\ state (snd (allocate size adv r)) = RA_GC_REQUESTED
     /\ _allocated_hot_offset (snd (allocate size adv r))
        = wrap64 (noffset + size))
  /\ (spans -> state r <> RA_NORMAL ->
        allocate size adv r = (RuntimeError, counted))
  /\ (~ spans ->
        fst (allocate size adv r)
        = Returned (_hot_data r + Z.land (wrap64 (noffset - size)) (_hot_mask r))).
Proof.
  intros noffset counted spans Hmem.
  assert (Hlt : (_reclaimed_offset r <? noffset) = false)
    by (apply Z.ltb_ge; lia).
  split; [| split].
  - intros Hsp Hst.
    assert (Hpass : allocate_pass size adv r
                    = (Retry, set_state RA_GC_REQUESTED counted)).
    { unfold allocate_pass; cbn. fold noffset. rewrite Hlt.
      destruct (Z.eqb_spec (Z.shiftr (wrap64 (noffset - 1)) (_segment_bits r))
                  (Z.shiftr (wrap64 (noffset - size)) (_segment_bits r)))
        as [Heq | _]; [contradiction |].
      cbn. unfold state; cbn. unfold state in Hst. rewrite Hst. reflexivity. }
    assert (Hnr := allocate_pass_no_retry size adv
                     (set_state RA_GC_REQUESTED counted)).
    assert (Hcur := allocate_pass_cursor size adv
                      (set_state RA_GC_REQUESTED counted)).
    assert (Hstate : state (snd (allocate_pass size adv
                                   (set_state RA_GC_REQUESTED counted)))
                     = RA_GC_REQUESTED).
    { unfold allocate_pass; cbn.
      case_ifs;
        reflexivity. }
    unfold allocate at 1 3 4. cbn [allocate_loop]. rewrite Hpass.
    unfold allocate. cbn [allocate_loop].
    destruct (allocate_pass size adv (set_state RA_GC_REQUESTED counted))
      as [[res | ] r2] eqn:E2.
    + cbn in Hcur, Hstate. repeat split; assumption.
    + exfalso. apply Hnr; [discriminate | reflexivity].
  - intros Hsp Hst.
    unfold allocate; cbn [allocate_loop].
    unfold allocate_pass; cbn. fold noffset. rewrite Hlt.
    destruct (Z.eqb_spec (Z.shiftr (wrap64 (noffset - 1)) (_segment_bits r))
                (Z.shiftr (wrap64 (noffset - size)) (_segment_bits r)))
      as [Heq | _]; [contradiction |].
    cbn. unfold state in *; cbn.
    destruct (Z.eqb_spec (_state r) RA_NORMAL); [contradiction |].
    reflexivity.
  - intros Hsp.
    unfold allocate; cbn [allocate_loop].
    unfold allocate_pass; cbn. fold noffset. rewrite Hlt.
    destruct (Z.eqb_spec (Z.shiftr (wrap64 (noffset - 1)) (_segment_bits r))
                (Z.shiftr (wrap64 (noffset - size)) (_segment_bits r)))
      as [_ | Hne]; [| contradiction].
    cbn.
    case_ifs;
      reflexivity.
Qed.

Lemma allocate_spanning_chunk_witness :
  let r := with_allocated_hot_offset (2 ^ 30 - 8)
             (new_region_allocator 65536 0 30 0) in
  ~ _reclaimed_offset r < wrap64 (_allocated_hot_offset r + 64)
  /\ state (snd (allocate 64 false r)) = RA_GC_REQUESTED
  /\ _allocated_hot_offset (snd (allocate 64 false r)) = 2 ^ 30 + 120.
Proof.
  intros r.
  assert (Hmem : ~ _reclaimed_offset r < wrap64 (_allocated_hot_offset r + 64)).
  { vm_compute. discriminate. }
  split; [exact Hmem |].
  destruct (allocate_spanning_chunk 64 false r Hmem) as [Hretry _].
  assert (Hspan : Z.shiftr (wrap64 (wrap64 (_allocated_hot_offset r + 64) - 1))
                    (_segment_bits r)
                  <> Z.shiftr (wrap64 (wrap64 (_allocated_hot_offset r + 64) - 64))
                       (_segment_bits r)).
  { vm_compute. discriminate. }
  destruct (Hretry Hspan eq_refl) as (_ & Hst & Hcur).
  split; [exact Hst |].
  rewrite Hcur. reflexivity.
Defined.

(** ** The window between cursor and reclaimed bound *)

(** C1, as stated, fails: on a new allocator with the shipped segment size,
    an [allocate] of one byte more than the hot region throws
    [std::bad_alloc] and leaves the cursor beyond [_reclaimed_offset]. *)
Lemma window_negative_after_bad_alloc :
  let r0 := new_region_allocator 65536 0 RAconst.MEM_SEGMENT_BITS 0 in
  let r1 := snd (allocate (2 ^ 32 + 1) false r0) in
  fst (allocate (2 ^ 32 + 1) false r0) = BadAlloc
  /\ window r1 = -1
  /\ ~ (0 <= _reclaimed_offset r1 - _allocated_hot_offset r1 <= _hot_capacity r1).
Proof.
  vm_compute. split; [reflexivity | split; [reflexivity |]].
  intros [H _]. apply H. reflexivity.
Qed.

Lemma fresh_upper_inv (r : region_allocator) : fresh r -> upper_inv r.
Proof.
  intros (hb & cb & s & skt & Hs & ->).
  unfold upper_inv, pending; cbn.
  assert (0 <= shl64 1 (wrap64 (NUM_SEGMENT_BITS + s)))
    by (unfold shl64, wrap64; apply Z.mod_pos_bound; lia).
  rewrite Z.div_0_l by lia.
  lia.
Qed.

Lemma fresh_lower_inv (r : region_allocator) : fresh r -> lower_inv r.
Proof.
  intros (hb & cb & s & skt & Hs & ->).
  unfold lower_inv; cbn.
  unfold shl64, wrap64; apply Z.mod_pos_bound; lia.
Qed.

Lemma pass_upper_inv (size : Z) (adv : bool) (r : region_allocator) :
  upper_inv r -> 0 < size -> _allocated_hot_offset r + size < 2 ^ 64 ->
  upper_inv (snd (allocate_pass size adv r)).
Proof.
  destruct r as [hd cd s hb cap ccap hm cm rec sk a ac al st].
  unfold upper_inv, pending, state, allocate_pass; cbn.
  intros (Hs & Ha & Hr & Hinv) Hsize Hfit.
  assert (Hpow : 0 < 2 ^ s) by (apply Z.pow_pos_nonneg; lia).
  assert (Hn : wrap64 (a + size) = a + size)
    by (unfold wrap64; apply Z.mod_small; lia).
  assert (Hn1 : wrap64 (a + size - 1) = a + size - 1)
    by (unfold wrap64; apply Z.mod_small; lia).
  assert (Hn0 : wrap64 (a + size - size) = a)
    by (unfold wrap64; replace (a + size - size) with a by lia;
        apply Z.mod_small; lia).
  assert (Hmono1 : a / 2 ^ s <= (a + size - 1) / 2 ^ s)
    by (apply Z.div_le_mono; lia).
  assert (Hmono2 : (a + size - 1) / 2 ^ s <= (a + size) / 2 ^ s)
    by (apply Z.div_le_mono; lia).
  assert (Hkeep : 2 ^ s * (a / 2 ^ s) <= 2 ^ s * ((a + size) / 2 ^ s))
    by (apply Z.mul_le_mono_nonneg_l; lia).
  assert (Hspan : (a + size - 1) / 2 ^ s <> a / 2 ^ s ->
                  2 ^ s * (a / 2 ^ s) + 2 ^ s
                  <= 2 ^ s * ((a + size) / 2 ^ s)).
  { intros Hne.
    replace (2 ^ s * (a / 2 ^ s) + 2 ^ s) with (2 ^ s * (a / 2 ^ s + 1)) by ring.
    apply Z.mul_le_mono_nonneg_l; lia. }
  rewrite Hn, Hn1, Hn0.
  rewrite !Z.shiftr_div_pow2 by lia.
  destruct (Z.ltb_spec rec (a + size)); cbn.
  { destruct (st =? RA_NORMAL); repeat split; lia. }
  destruct (Z.eqb_spec ((a + size - 1) / 2 ^ s) (a / 2 ^ s)) as [Heq | Hne]; cbn.
  - repeat (match goal with
            | |- context [if ?c then _ else _] => destruct c
            end; cbn);
      repeat split; lia.
  - specialize (Hspan Hne).
    destruct (Z.eqb_spec st RA_NORMAL) as [Hst | Hst]; cbn.
    + repeat split; lia.
    + destruct (Z.eqb_spec st RA_NORMAL); [contradiction |].
      repeat split; lia.
Qed.

Lemma allocate_upper_inv (size : Z) (adv : bool) (r : region_allocator) :
  upper_inv r -> 0 < size -> _allocated_hot_offset r + 2 * size < 2 ^ 64 ->
  upper_inv (snd (allocate size adv r)).
Proof.
  intros Hinv Hsize Hfit.
  assert (Ha : 0 <= _allocated_hot_offset r) by (destruct Hinv; lia).
  destruct (allocate_unfold size adv r)
    as [(res & E & _) | (r1 & res & E1 & E2 & _)].
  - pose proof (pass_upper_inv size adv r Hinv Hsize) as H.
    rewrite E in H. apply H. lia.
  - pose proof (pass_upper_inv size adv r Hinv Hsize) as H1.
    pose proof (allocate_pass_cursor size adv r) as Hc.
    rewrite E1 in H1, Hc. cbn in H1, Hc.
    assert (Hn : wrap64 (_allocated_hot_offset r + size)
                 = _allocated_hot_offset r + size)
      by (unfold wrap64; apply Z.mod_small; lia).
    pose proof (pass_upper_inv size adv r1 (H1 ltac:(lia)) Hsize) as H2.
    rewrite E2 in H2. apply H2. lia.
Qed.

Lemma allocate_lower_inv (size : Z) (adv : bool) (r : region_allocator) :
  fst (allocate size adv r) <> BadAlloc ->
  lower_inv (snd (allocate size adv r)).
Proof.
  intros Hres. unfold lower_inv.
  rewrite allocate_reclaimed.
  destruct (allocate_unfold size adv r)
    as [(res & E & Hr) | (r1 & res & E1 & E2 & Hr)].
  - pose proof (allocate_pass_bad_alloc size adv r) as Hb.
    pose proof (allocate_pass_cursor size adv r) as Hc.
    rewrite E in Hb, Hc. cbn in Hb, Hc. rewrite Hc.
    destruct (Z.lt_ge_cases (_reclaimed_offset r)
                (wrap64 (_allocated_hot_offset r + size))) as [Hlt | Hge];
      [| lia].
    apply Hb in Hlt. congruence.
  - pose proof (allocate_pass_bad_alloc size adv r1) as Hb.
    pose proof (allocate_pass_cursor size adv r1) as Hc.
    pose proof (allocate_pass_reclaimed size adv r) as Hrec.
    rewrite E2 in Hb, Hc. rewrite E1 in Hrec. cbn in Hb, Hc, Hrec.
    rewrite Hc, <- Hrec.
    destruct (Z.lt_ge_cases (_reclaimed_offset r1)
                (wrap64 (_allocated_hot_offset r1 + size))) as [Hlt | Hge];
      [| lia].
    apply Hb in Hlt. congruence.
Qed.

Lemma pending_nonneg (r : region_allocator) :
  0 <= _segment_bits r -> 0 <= pending r.
Proof.
  intros Hs. unfold pending.
  destruct (state r =? RA_NORMAL); [lia |].
  apply Z.pow_nonneg; lia.
Qed.

Lemma upper_inv_window (r : region_allocator) :
  upper_inv r -> window r <= _hot_capacity r.
Proof.
  intros (Hs & Ha & Hr & Hinv). unfold window.
  pose proof (pending_nonneg r ltac:(lia)).
  assert (Hpow : 0 < 2 ^ _segment_bits r) by (apply Z.pow_pos_nonneg; lia).
  pose proof (Z.mul_div_le (_allocated_hot_offset r) _ Hpow).
  lia.
Qed.

Lemma allocate_cold_window_inv (strict : bool) (size : Z) (r : region_allocator) :
  window_inv strict r -> window_inv strict (snd (allocate_cold size r)).
Proof.
  destruct r as [hd cd s hb cap ccap hm cm rec sk a ac al st].
  unfold window_inv, upper_inv, lower_inv, pending, state, allocate_cold; cbn.
  destruct (ccap <? wrap64 (ac + size)); cbn; tauto.
Qed.

Section Histories.

Variable INVALID_LSN : LSN.

Lemma daemon_window_inv (strict : bool) (r r' : region_allocator) :
  window_inv strict r -> RA.reclaim_daemon_finish r = Ok r' ->
  window_inv strict r'.
Proof.
  destruct r as [hd cd s hb cap ccap hm cm rec sk a ac al st].
  unfold window_inv, upper_inv, lower_inv, pending, state,
    RA.reclaim_daemon_finish; cbn.
  destruct (Z.eqb_spec st RA_GC_IN_PROG) as [-> | ]; [| discriminate].
  intros H E; inversion E; subst; cbn in *. exact H.
Qed.

Lemma reclaim_one_window_inv (strict : bool) (r r' : region_allocator) :
  window_inv strict r ->
  _reclaimed_offset r + 2 ^ _segment_bits r < 2 ^ 64 ->
  RA.reclaim_one r = Ok r' ->
  window_inv strict r'.
Proof.
  destruct r as [hd cd s hb cap ccap hm cm rec sk a ac al st].
  unfold window_inv, upper_inv, lower_inv, pending, state,
    RA.reclaim_one, int_one_shl; cbn.
  intros ((Hs & Ha & Hr & Hinv) & Hlow) Hfit.
  assert (Hpow : 0 < 2 ^ s) by (apply Z.pow_pos_nonneg; lia).
  destruct (Z.eqb_spec st RA_GC_REQUESTED) as [-> | Hreq].
  { intros E; inversion E; subst; cbn in *. tauto. }
  destruct (Z.eqb_spec st RA_GC_FINISHED) as [-> | Hfin].
  - destruct (Z.ltb_spec s 31); [| lia].
    intros E; inversion E; subst; cbn in *.
    assert (Hw : wrap64 (rec + 2 ^ s) = rec + 2 ^ s)
      by (unfold wrap64; apply Z.mod_small; lia).
    rewrite Hw. repeat split; try lia.
    intros Hst. specialize (Hlow Hst). lia.
  - intros E; inversion E; subst; cbn in *. tauto.
Qed.

Lemma reclaim_all_window_inv (strict : bool) (rs rs' : list region_allocator) :
  Forall (window_inv strict) rs ->
  forallb (fun r => _reclaimed_offset r + 2 ^ _segment_bits r <? 2 ^ 64) rs
  = true ->
  RA.reclaim_all rs = Ok rs' ->
  Forall (window_inv strict) rs'.
Proof.
  revert rs'. induction rs as [| r rs IH]; intros rs' Hinv Hfit E; cbn in E.
  - inversion E. constructor.
  - inversion Hinv as [| ? ? Hr Hrs]; subst.
    cbn in Hfit. apply andb_true_iff in Hfit as [Hf1 Hf2].
    apply Z.ltb_lt in Hf1.
    destruct (RA.reclaim_one r) as [r1 | ] eqn:E1; cbn in E; [| discriminate].
    destruct (RA.reclaim_all rs) as [rs1 | ] eqn:E2; cbn in E; [| discriminate].
    inversion E; subst. constructor.
    + eapply reclaim_one_window_inv; eassumption.
    + apply IH; auto.
Qed.

Lemma exec_window_inv (strict : bool) (ev : RA.event) (g g' : RA.globals) :
  Forall (window_inv strict) (RA.ra g) ->
  RA.in_range ev g = true ->
  (strict = true -> RA.no_bad_alloc ev g = true) ->
  RA.exec INVALID_LSN ev g = Ok g' ->
  Forall (window_inv strict) (RA.ra g').
Proof.
  intros Hinv Hfit Hoom E.
  destruct ev as [i size adv | i size | i | c]; cbn in E, Hfit, Hoom.
  - unfold RA.on_socket in E.
    destruct (RA.ra g !! i) as [r | ] eqn:Hi; [| discriminate].
    cbn in E. inversion E; subst; cbn.
    apply andb_true_iff in Hfit as [Hsz Hf].
    apply Z.ltb_lt in Hsz, Hf.
    pose proof (proj1 (Forall_lookup _ _) Hinv i r Hi) as [Hup Hlow].
    apply Forall_insert; [assumption |].
    split.
    + apply allocate_upper_inv; assumption.
    + intros Hst. apply allocate_lower_inv.
      specialize (Hoom Hst). intros Hbad. rewrite Hbad in Hoom. discriminate.
  - unfold RA.on_socket in E.
    destruct (RA.ra g !! i) as [r | ] eqn:Hi; [| discriminate].
    cbn in E. inversion E; subst; cbn.
    apply Forall_insert; [assumption |].
    apply allocate_cold_window_inv.
    exact (proj1 (Forall_lookup _ _) Hinv i r Hi).
  - unfold RA.on_socket in E.
    destruct (RA.ra g !! i) as [r | ] eqn:Hi; [| discriminate].
    destruct (RA.reclaim_daemon_finish r) as [r' | ] eqn:Ed;
      cbn in E; [| discriminate].
    inversion E; subst; cbn.
    apply Forall_insert; [assumption |].
    eapply daemon_window_inv; [| eassumption].
    exact (proj1 (Forall_lookup _ _) Hinv i r Hi).
  - unfold RA.epoch_reclaimed in E.
    destruct c as [lsn | ]; [| discriminate].
    destruct (RA.reclaim_all (RA.ra g)) as [rs | ] eqn:Er;
      cbn in E; [| discriminate].
    inversion E; subst; cbn.
    eapply reclaim_all_window_inv; eassumption.
Qed.

Lemma run_window_inv (strict : bool) (evs : list RA.event) :
  forall g g',
    Forall (window_inv strict) (RA.ra g) ->
    RA.every_step INVALID_LSN RA.in_range evs g = true ->
    (strict = true ->
     RA.every_step INVALID_LSN RA.no_bad_alloc evs g = true) ->
    RA.run INVALID_LSN evs g = Ok g' ->
    Forall (window_inv strict) (RA.ra g').
Proof.
  induction evs as [| ev evs IH]; intros g g' Hinv Hfit Hoom E; cbn in *.
  - inversion E; subst. exact Hinv.
  - destruct (RA.exec INVALID_LSN ev g) as [g1 | ] eqn:E1;
      cbn in E; [| discriminate].
    apply andb_true_iff in Hfit as [Hf1 Hf2].
    apply (IH g1 g'); [| assumption | | assumption].
    + eapply exec_window_inv; [eassumption .. | | eassumption].
      intros Hst. specialize (Hoom Hst).
      apply andb_true_iff in Hoom. tauto.
    + intros Hst. specialize (Hoom Hst).
      apply andb_true_iff in Hoom. tauto.
Qed.

(** C1, amended.  Start from allocators as the constructor leaves them
    (segment size of at most [2^30] bytes) and let any history of
    [allocate] and [allocate_cold] calls, daemon rounds and reclaimed
    epochs run to its end without a fault, every hot allocation asking
    for at least one byte and no 64-bit counter wrapping.  Then in every
    allocator [_reclaimed_offset - _allocated_hot_offset] is at most
    [_hot_capacity], also after an [allocate] that threw
    [std::bad_alloc]; and it is at least [0] when no [allocate] of the
    history threw [std::bad_alloc]. *)
Theorem window_invariant (evs : list RA.event) (g0 g : RA.globals) :
  Forall fresh (RA.ra g0) ->
  RA.run INVALID_LSN evs g0 = Ok g ->
  RA.every_step INVALID_LSN RA.in_range evs g0 = true ->
  Forall (fun r => window r <= _hot_capacity r) (RA.ra g)
  /\ (RA.every_step INVALID_LSN RA.no_bad_alloc evs g0 = true ->
      Forall (fun r => 0 <= window r <= _hot_capacity r) (RA.ra g)).
Proof.
  intros Hfresh Hrun Hfit. split.
  - assert (H0 : Forall (window_inv false) (RA.ra g0)).
    { eapply Forall_impl; [exact Hfresh |].
      intros r Hr. split; [apply fresh_upper_inv; exact Hr | discriminate]. }
    pose proof (run_window_inv false evs g0 g H0 Hfit
                  ltac:(discriminate) Hrun) as H.
    eapply Forall_impl; [exact H |].
    intros r [Hup _]. apply upper_inv_window. exact Hup.
  - intros Hoom.
    assert (H0 : Forall (window_inv true) (RA.ra g0)).
    { eapply Forall_impl; [exact Hfresh |].
      intros r Hr. split;
        [apply fresh_upper_inv; exact Hr
        | intros _; apply fresh_lower_inv; exact Hr]. }
    pose proof (run_window_inv true evs g0 g H0 Hfit (fun _ => Hoom) Hrun)
      as H.
    eapply Forall_impl; [exact H |].
    intros r [Hup Hlow]. split.
    + specialize (Hlow eq_refl). unfold lower_inv in Hlow. unfold window. lia.
    + apply upper_inv_window. exact Hup.
Qed.

End Histories.

Lemma window_invariant_witness :
  Forall fresh (RA.ra one_socket)
  /\ exists g,
      RA.run 0 one_cycle one_socket = Ok g
      /\ RA.every_step 0 RA.in_range one_cycle one_socket = true
      /\ RA.every_step 0 RA.no_bad_alloc one_cycle one_socket = true
      /\ Forall (fun r => 0 <= window r <= _hot_capacity r) (RA.ra g).
Proof.
  assert (Hfresh : Forall fresh (RA.ra one_socket)).
  { constructor; [| constructor].
    exists 65536, (2 ^ 40), 30, 0. split; [lia | reflexivity]. }
  split; [exact Hfresh |].
  assert (Hfit : RA.every_step 0 RA.in_range one_cycle one_socket = true)
    by (vm_compute; reflexivity).
  assert (Hoom : RA.every_step 0 RA.no_bad_alloc one_cycle one_socket = true)
    by (vm_compute; reflexivity).
  destruct (RA.run 0 one_cycle one_socket) as [g | f] eqn:Hrun.
  - exists g. repeat (split; [assumption || reflexivity |]).
    exact (proj2 (window_invariant 0 one_cycle one_socket g Hfresh Hrun Hfit)
                 Hoom).
  - vm_compute in Hrun. discriminate Hrun.
Defined.

(** With requests of no bytes the upper bound is lost as well: on a new
    allocator [allocate(0)] sees the empty chunk as spanning a segment
    boundary and asks for a collection although the cursor has not moved,
    so the cycle hands back a segment that was never entered. *)
Lemma window_above_capacity_after_empty_request :
  exists g r,
    RA.run 0 empty_request_cycle one_socket = Ok g /\ RA.ra g = [r]
    /\ window r = _hot_capacity r + 2 ^ 30.
Proof.
  destruct (RA.run 0 empty_request_cycle one_socket) as [g | f] eqn:Hrun;
    vm_compute in Hrun; [| discriminate Hrun].
  inversion Hrun; subst g.
  eexists. eexists. split; [reflexivity |]. split; reflexivity.
Qed.

(** So is it when the cursor wraps around [2^64], with no [std::bad_alloc]
    anywhere in the history. *)
Lemma window_above_capacity_after_wrap :
  exists g r,
    RA.run 0 wrapping_history one_socket = Ok g /\ RA.ra g = [r]
    /\ RA.every_step 0 RA.no_bad_alloc wrapping_history one_socket = true
    /\ _allocated_hot_offset r = 2
    /\ window r = _hot_capacity r + 2 ^ 30 - 2.
Proof.
  destruct (RA.run 0 wrapping_history one_socket) as [g | f] eqn:Hrun;
    vm_compute in Hrun; [| discriminate Hrun].
  inversion Hrun; subst g.
  eexists. eexists. split; [reflexivity |]. split; [reflexivity |].
  split; [vm_compute; reflexivity |]. split; reflexivity.
Qed.

(** ** What histories keep *)

Lemma Forall2_insert_right {A : Type} (Q : A -> A -> Prop) (l : list A) :
  forall (i : nat) (x y : A),
    (forall z, Q z z) -> l !! i = Some x -> Q x y ->
    Forall2 Q l (<[i := y]> l).
Proof.
  induction l as [| z l IH]; intros i x y Hrefl Hi Hxy; [discriminate |].
  destruct i as [| i]; cbn in *.
  - inversion Hi; subst. constructor; [assumption |].
    clear -Hrefl. induction l; constructor; auto.
  - constructor; [apply Hrefl | eapply IH; eassumption].
Qed.

Lemma Forall2_chain {A : Type} (Q : A -> A -> Prop) :
  (forall x y z, Q x y -> Q y z -> Q x z) ->
  forall l1 l2 l3 : list A,
    Forall2 Q l1 l2 -> Forall2 Q l2 l3 -> Forall2 Q l1 l3.
Proof.
  intros Htrans l1 l2 l3 H12. revert l3.
  induction H12 as [| x y l1 l2 Hxy _ IH]; intros l3 H23;
    inversion H23; subst; constructor; eauto.
Qed.

Section Steps.

Variable INVALID_LSN : LSN.

(** A relation between an allocator before and after, kept by every
    method, is kept by every event, socket by socket. *)
Section Related.

Variable Q : region_allocator -> region_allocator -> Prop.
Hypothesis Q_refl : forall r, Q r r.
Hypothesis Q_allocate :
  forall size adv r, Q r (snd (allocate size adv r)).
Hypothesis Q_allocate_cold :
  forall size r, Q r (snd (allocate_cold size r)).
Hypothesis Q_daemon :
  forall r r', RA.reclaim_daemon_finish r = Ok r' -> Q r r'.
Hypothesis Q_reclaim :
  forall r r', RA.reclaim_one r = Ok r' -> Q r r'.

Lemma reclaim_all_related (rs : list region_allocator) :
  forall rs', RA.reclaim_all rs = Ok rs' -> Forall2 Q rs rs'.
Proof.
  induction rs as [| r rs IH]; intros rs' E; cbn in E.
  - inversion E. constructor.
  - destruct (RA.reclaim_one r) as [r1 | ] eqn:E1; cbn in E; [| discriminate].
    destruct (RA.reclaim_all rs) as [rs1 | ] eqn:E2; cbn in E; [| discriminate].
    inversion E; subst. constructor; auto.
Qed.

Lemma exec_related (ev : RA.event) (g g' : RA.globals) :
  RA.exec INVALID_LSN ev g = Ok g' -> Forall2 Q (RA.ra g) (RA.ra g').
Proof.
  intros E.
  destruct ev as [i size adv | i size | i | c]; cbn in E.
  - unfold RA.on_socket in E.
    destruct (RA.ra g !! i) as [r | ] eqn:Hi; [| discriminate].
    cbn in E. inversion E; subst; cbn.
    eapply Forall2_insert_right; eauto.
  - unfold RA.on_socket in E.
    destruct (RA.ra g !! i) as [r | ] eqn:Hi; [| discriminate].
    cbn in E. inversion E; subst; cbn.
    eapply Forall2_insert_right; eauto.
  - unfold RA.on_socket in E.
    destruct (RA.ra g !! i) as [r | ] eqn:Hi; [| discriminate].
    destruct (RA.reclaim_daemon_finish r) as [r' | ] eqn:Ed;
      cbn in E; [| discriminate].
    inversion E; subst; cbn.
    eapply Forall2_insert_right; eauto.
  - unfold RA.epoch_reclaimed in E.
    destruct c as [lsn | ]; [| discriminate].
    destruct (RA.reclaim_all (RA.ra g)) as [rs | ] eqn:Er;
      cbn in E; [| discriminate].
    inversion E; subst; cbn.
    apply reclaim_all_related. exact Er.
Qed.

Hypothesis Q_trans : forall x y z, Q x y -> Q y z -> Q x z.

Lemma run_related (evs : list RA.event) :
  forall g g',
    RA.run INVALID_LSN evs g = Ok g' -> Forall2 Q (RA.ra g) (RA.ra g').
Proof.
  induction evs as [| ev evs IH]; intros g g' E; cbn in E.
  - inversion E; subst.
    clear -Q_refl. induction (RA.ra g'); constructor; auto.
  - destruct (RA.exec INVALID_LSN ev g) as [g1 | ] eqn:E1;
      cbn in E; [| discriminate].
    eapply Forall2_chain; [exact Q_trans | | apply IH; exact E].
    exact (exec_related ev g g1 E1).
Qed.

End Related.

(** A property of allocators kept by every method (by [reclaim_one] when
    the bound does not wrap) holds at the end of every history that keeps
    the counters in range. *)
Section Kept.

Variable P : region_allocator -> Prop.
Hypothesis P_allocate :
  forall size adv r, P r -> P (snd (allocate size adv r)).
Hypothesis P_allocate_cold :
  forall size r, P r -> P (snd (allocate_cold size r)).
Hypothesis P_daemon :
  forall r r', P r -> RA.reclaim_daemon_finish r = Ok r' -> P r'.
Hypothesis P_reclaim :
  forall r r',
    P r -> _reclaimed_offset r + 2 ^ _segment_bits r < 2 ^ 64 ->
    RA.reclaim_one r = Ok r' -> P r'.

Lemma reclaim_all_kept (rs : list region_allocator) :
  forall rs',
    Forall P rs ->
    forallb (fun r => _reclaimed_offset r + 2 ^ _segment_bits r <? 2 ^ 64) rs
    = true ->
    RA.reclaim_all rs = Ok rs' -> Forall P rs'.
Proof.
  induction rs as [| r rs IH]; intros rs' HP Hfit E; cbn in E.
  - inversion E. constructor.
  - inversion HP as [| ? ? Hr Hrs]; subst.
    cbn in Hfit. apply andb_true_iff in Hfit as [Hf1 Hf2].
    apply Z.ltb_lt in Hf1.
    destruct (RA.reclaim_one r) as [r1 | ] eqn:E1; cbn in E; [| discriminate].
    destruct (RA.reclaim_all rs) as [rs1 | ] eqn:E2; cbn in E; [| discriminate].
    inversion E; subst. constructor; eauto.
Qed.

Lemma run_kept (evs : list RA.event) :
  forall g g',
    Forall P (RA.ra g) ->
    RA.every_step INVALID_LSN RA.in_range evs g = true ->
    RA.run INVALID_LSN evs g = Ok g' ->
    Forall P (RA.ra g').
Proof.
  induction evs as [| ev evs IH]; intros g g' HP Hfit E; cbn in *.
  - inversion E; subst. exact HP.
  - destruct (RA.exec INVALID_LSN ev g) as [g1 | ] eqn:E1;
      cbn in E; [| discriminate].
    apply andb_true_iff in Hfit as [Hf1 Hf2].
    apply (IH g1 g'); [| assumption | assumption].
    clear IH E Hf2.
    destruct ev as [i size adv | i size | i | c]; cbn in E1, Hf1.
    + unfold RA.on_socket in E1.
      destruct (RA.ra g !! i) as [r | ] eqn:Hi; [| discriminate].
      cbn in E1. inversion E1; subst; cbn.
      apply Forall_insert; [assumption |].
      apply P_allocate. exact (proj1 (Forall_lookup _ _) HP i r Hi).
    + unfold RA.on_socket in E1.
      destruct (RA.ra g !! i) as [r | ] eqn:Hi; [| discriminate].
      cbn in E1. inversion E1; subst; cbn.
      apply Forall_insert; [assumption |].
      apply P_allocate_cold. exact (proj1 (Forall_lookup _ _) HP i r Hi).
    + unfold RA.on_socket in E1.
      destruct (RA.ra g !! i) as [r | ] eqn:Hi; [| discriminate].
      destruct (RA.reclaim_daemon_finish r) as [r' | ] eqn:Ed;
        cbn in E1; [| discriminate].
      inversion E1; subst; cbn.
      apply Forall_insert; [assumption |].
      eapply P_daemon; [| eassumption].
      exact (proj1 (Forall_lookup _ _) HP i r Hi).
    + unfold RA.epoch_reclaimed in E1.
      destruct c as [lsn | ]; [| discriminate].
      destruct (RA.reclaim_all (RA.ra g)) as [rs | ] eqn:Er;
        cbn in E1; [| discriminate].
      inversion E1; subst; cbn.
      eapply reclaim_all_kept; eassumption.
Qed.

End Kept.

End Steps.


(** ** Reclaimed epochs *)

Section EpochCallbacks.

Variable INVALID_LSN : LSN.

Lemma reclaim_one_finished (r : region_allocator) :
  state r = RA_GC_FINISHED ->
  0 <= _segment_bits r <= 30 ->
  0 <= _reclaimed_offset r ->
  _reclaimed_offset r + 2 ^ _segment_bits r < 2 ^ 64 ->
  RA.reclaim_one r
  = Ok (set_state RA_NORMAL
          (with_reclaimed_offset
             (_reclaimed_offset r + 2 ^ _segment_bits r) r)).
Proof.
  intros Hst Hs Hr Hfit.
  unfold RA.reclaim_one, int_one_shl. rewrite Hst. cbn.
  destruct (Z.ltb_spec (_segment_bits r) 31); [| lia].
  assert (Hpow : 0 < 2 ^ _segment_bits r) by (apply Z.pow_pos_nonneg; lia).
  unfold wrap64. rewrite Z.mod_small by lia. reflexivity.
Qed.

Lemma reclaim_one_fault (r : region_allocator) (f : fault) :
  RA.reclaim_one r = Fault f -> f = ShiftUndefined.
Proof.
  unfold RA.reclaim_one.
  repeat match goal with
         | |- context [if ?c then _ else _] => destruct c
         | |- context [match ?c with Some _ => _ | None => _ end] => destruct c
         end; intros E; inversion E; reflexivity.
Qed.

Lemma reclaim_all_fault (rs : list region_allocator) (f : fault) :
  RA.reclaim_all rs = Fault f -> f = ShiftUndefined.
Proof.
  induction rs as [| r rs IH]; cbn; [discriminate |].
  destruct (RA.reclaim_one r) as [r1 | f1] eqn:E1; cbn.
  - destruct (RA.reclaim_all rs) as [rs1 | f2]; cbn; [discriminate |].
    intros E; inversion E; subst. apply IH. reflexivity.
  - intros E; inversion E; subst. eapply reclaim_one_fault; eassumption.
Qed.






Lemma epoch_ended_loop_some (rcu : bool) (cur_lsn : LSN)
    (rs : list region_allocator) :
  Exists wants_epoch rs ->
  RA.epoch_ended_loop INVALID_LSN rcu cur_lsn rs
  = Some (if rcu then cur_lsn else INVALID_LSN).
Proof.
  induction rs as [| r rs IH]; intros H; [inversion H |].
  cbn.
  destruct (Z.eqb_spec (state r) RA_GC_REQUESTED) as [| Hreq];
    [reflexivity |].
  destruct (Z.eqb_spec (state r) RA_GC_FINISHED) as [| Hfin];
    [reflexivity |].
  cbn. apply IH.
  inversion H as [? ? [Hw | Hw] | ]; subst; [contradiction .. | assumption].
Qed.

Lemma epoch_ended_loop_none (rcu : bool) (cur_lsn : LSN)
    (rs : list region_allocator) :
  ~ Exists wants_epoch rs ->
  RA.epoch_ended_loop INVALID_LSN rcu cur_lsn rs = None.
Proof.
  induction rs as [| r rs IH]; intros H; [reflexivity |].
  cbn.
  destruct (Z.eqb_spec (state r) RA_GC_REQUESTED) as [Hreq | Hreq].
  { exfalso. apply H. constructor. left. assumption. }
  destruct (Z.eqb_spec (state r) RA_GC_FINISHED) as [Hfin | Hfin].
  { exfalso. apply H. constructor. right. assumption. }
  cbn. apply IH. intros H'. apply H. apply Exists_cons_tl. assumption.
Qed.

Lemma Exists_wants_epoch_dec (rs : list region_allocator) :
  Exists wants_epoch rs \/ ~ Exists wants_epoch rs.
Proof.
  induction rs as [| r rs [IH | IH]].
  - right. intros H. inversion H.
  - left. apply Exists_cons_tl. assumption.
  - unfold wants_epoch at 1 2.
    destruct (Z.eq_dec (state r) RA_GC_REQUESTED) as [Hreq | Hreq].
    { left. constructor. left. assumption. }
    destruct (Z.eq_dec (state r) RA_GC_FINISHED) as [Hfin | Hfin].
    { left. constructor. right. assumption. }
    right. intros H. inversion H as [? ? [Hw | Hw] | ]; subst; tauto.
Qed.

(** C8. When some allocator asks for a collection or has one finished
    and the caller is outside every RCU region, [epoch_ended] hands back
    a cookie that holds [INVALID_LSN]; and [epoch_reclaimed] on a cookie
    that holds [INVALID_LSN] goes through all allocators as for any other
    cookie and keeps [trim_lsn] as it was. *)
Theorem epoch_ended_thread_exit (cur_lsn : LSN) (g g2 : RA.globals) :
  Exists wants_epoch (RA.ra g) ->
  RA.epoch_ended INVALID_LSN false cur_lsn g = Some INVALID_LSN
  /\ RA.epoch_reclaimed INVALID_LSN (Some INVALID_LSN) g2
     = (try! rs := RA.reclaim_all (RA.ra g2) in
        Ok {| RA.ra := rs; RA.trim_lsn := RA.trim_lsn g2;
              RA.system_loading := RA.system_loading g2 |})
  /\ (forall g3,
        RA.epoch_reclaimed INVALID_LSN (Some INVALID_LSN) g2 = Ok g3 ->
        RA.trim_lsn g3 = RA.trim_lsn g2
        /\ RA.reclaim_all (RA.ra g2) = Ok (RA.ra g3)).
Proof.
  intros Hw.
  assert (Heq : RA.epoch_reclaimed INVALID_LSN (Some INVALID_LSN) g2
                = (try! rs := RA.reclaim_all (RA.ra g2) in
                   Ok {| RA.ra := rs; RA.trim_lsn := RA.trim_lsn g2;
                         RA.system_loading := RA.system_loading g2 |})).
  { unfold RA.epoch_reclaimed. rewrite Z.eqb_refl. reflexivity. }
  split; [| split].
  - unfold RA.epoch_ended.
    apply (epoch_ended_loop_some false cur_lsn (RA.ra g) Hw).
  - exact Heq.
  - intros g3 E. rewrite Heq in E.
    destruct (RA.reclaim_all (RA.ra g2)) as [rs | f]; cbn in E;
      [| discriminate].
    inversion E; subst; cbn. split; reflexivity.
Qed.

(** C9. [epoch_ended] hands back a cookie other than [NULL] exactly when
    some allocator of the array is in [RA_GC_REQUESTED] or
    [RA_GC_FINISHED]; and [epoch_reclaimed] reads through a null pointer
    exactly when its cookie is [NULL]. *)
Theorem epoch_cookie_null (rcu : bool) (cur_lsn : LSN) (g g2 : RA.globals)
    (c : option LSN) :
  (RA.epoch_ended INVALID_LSN rcu cur_lsn g <> None
   <-> Exists wants_epoch (RA.ra g))
  /\ (RA.epoch_reclaimed INVALID_LSN c g2 = Fault NullDereference
      <-> c = None).
Proof.
  split.
  - unfold RA.epoch_ended.
    destruct (Exists_wants_epoch_dec (RA.ra g)) as [H | H].
    + rewrite (epoch_ended_loop_some rcu cur_lsn _ H).
      split; [intros _; exact H | discriminate].
    + rewrite (epoch_ended_loop_none rcu cur_lsn _ H).
      split; [congruence | contradiction].
  - unfold RA.epoch_reclaimed. destruct c as [lsn | ].
    + split; [| discriminate].
      destruct (RA.reclaim_all (RA.ra g2)) as [rs | f] eqn:E; cbn;
        [discriminate |].
      apply reclaim_all_fault in E. subst f. discriminate.
    + split; reflexivity.
Qed.

End EpochCallbacks.


Lemma epoch_ended_thread_exit_witness :
  Exists wants_epoch (RA.ra two_sockets_one_requested)
  /\ RA.epoch_ended 0 false 77 two_sockets_one_requested = Some 0
  /\ exists g3,
      RA.epoch_reclaimed 0 (Some 0) two_sockets_one_requested = Ok g3
      /\ RA.trim_lsn g3 = 1234.
Proof.
  assert (Hw : Exists wants_epoch (RA.ra two_sockets_one_requested)).
  { apply Exists_cons_tl. constructor. left. reflexivity. }
  split; [exact Hw |].
  destruct (epoch_ended_thread_exit 0 77 two_sockets_one_requested
              two_sockets_one_requested Hw) as (Hend & _ & Hrec).
  split; [exact Hend |].
  destruct (RA.epoch_reclaimed 0 (Some 0) two_sockets_one_requested)
    as [g3 | f] eqn:E.
  - exists g3. split; [reflexivity |].
    exact (proj1 (Hrec g3 E)).
  - vm_compute in E. discriminate E.
Defined.

(** ** The cold allocator *)

Lemma total_nonneg (sizes : list Z) :
  Forall (fun size => 0 <= size) sizes -> 0 <= total sizes.
Proof.
  induction 1 as [| size sizes Hs _ IH]; cbn; [lia |].
  unfold total in IH. lia.
Qed.

Lemma total_take_le (sizes : list Z) (i : nat) :
  Forall (fun size => 0 <= size) sizes ->
  0 <= total (take i sizes) <= total sizes.
Proof.
  intros H. revert i.
  induction H as [| size sizes Hs Hrest IH]; intros i.
  - rewrite take_nil. cbn. lia.
  - destruct i as [| i]; cbn.
    + pose proof (total_nonneg sizes Hrest). unfold total in *. lia.
    + specialize (IH i). unfold total in *. lia.
Qed.

Lemma total_take_S (sizes : list Z) (i : nat) (size : Z) :
  sizes !! i = Some size ->
  total (take (S i) sizes) = total (take i sizes) + size.
Proof.
  revert i. induction sizes as [| s0 sizes IH]; intros i Hi; [discriminate |].
  destruct i as [| i]; cbn in *.
  - inversion Hi; subst. rewrite take_0. cbn. lia.
  - specialize (IH i Hi). unfold total in *. cbn in IH. lia.
Qed.

Lemma total_take_mono (sizes : list Z) (i j : nat) :
  Forall (fun size => 0 <= size) sizes -> (i <= j)%nat ->
  total (take i sizes) <= total (take j sizes).
Proof.
  intros H Hij.
  replace (take i sizes) with (take i (take j sizes))
    by (rewrite take_take; f_equal; lia).
  apply total_take_le. apply Forall_take. exact H.
Qed.

(** One [allocate_cold] that fits: where it points and what it leaves. *)
Lemma allocate_cold_fits (k size : Z) (r : region_allocator) :
  cold_ring k r ->
  0 <= _allocated_cold_offset r -> 0 <= size ->
  _allocated_cold_offset r + size <= _cold_capacity r ->
  allocate_cold size r
  = (Returned (_cold_data r
               + Z.land (_allocated_cold_offset r) (_cold_mask r)),
     with_allocated_cold_offset (_allocated_cold_offset r + size) r).
Proof.
  intros (Hk & Hcap & Hmask) Hoff Hsize Hfit.
  assert (H64 : 2 ^ k < 2 ^ 64) by (apply Z.pow_lt_mono_r; lia).
  unfold allocate_cold.
  assert (Hn : wrap64 (_allocated_cold_offset r + size)
               = _allocated_cold_offset r + size)
    by (unfold wrap64; apply Z.mod_small; lia).
  rewrite Hn. cbn.
  destruct (Z.ltb_spec (_cold_capacity r) (_allocated_cold_offset r + size));
    [lia |].
  replace (_allocated_cold_offset r + size - size)
    with (_allocated_cold_offset r) by lia.
  unfold wrap64. rewrite (Z.mod_small (_allocated_cold_offset r)) by lia.
  reflexivity.
Qed.

Lemma allocate_cold_all_nth (k : Z) (sizes : list Z) :
  forall (r : region_allocator) (i : nat) (size : Z),
    cold_ring k r ->
    0 <= _allocated_cold_offset r ->
    Forall (fun size => 0 <= size) sizes ->
    _allocated_cold_offset r + total sizes <= _cold_capacity r ->
    sizes !! i = Some size ->
    fst (allocate_cold_all sizes r) !! i
    = Some (Returned
              (_cold_data r
               + Z.land (_allocated_cold_offset r + total (take i sizes))
                        (_cold_mask r))).
Proof.
  induction sizes as [| s0 sizes IH]; intros r i size Hring Hoff Hpos Hfit Hi;
    [discriminate |].
  inversion Hpos as [| ? ? Hs0 Hrest]; subst.
  pose proof (total_nonneg sizes Hrest) as Htot.
  cbn [total foldr] in Hfit. fold (total sizes) in Hfit.
  cbn [allocate_cold_all].
  rewrite (allocate_cold_fits k s0 r Hring Hoff Hs0) by lia.
  set (r1 := with_allocated_cold_offset (_allocated_cold_offset r + s0) r).
  destruct (allocate_cold_all sizes r1) as [ress r2] eqn:E.
  destruct i as [| i]; cbn.
  - rewrite Z.add_0_r. reflexivity.
  - cbn in Hi.
    assert (Hring1 : cold_ring k r1) by exact Hring.
    pose proof (IH r1 i size Hring1 ltac:(cbn; lia) Hrest ltac:(cbn; lia) Hi)
      as H.
    rewrite E in H. cbn in H. unfold total in H.
    rewrite Z.add_assoc. exact H.
Qed.

Lemma new_region_allocator_cold_ring (hot_base cold_base s skt : Z) :
  0 <= s <= 61 ->
  cold_ring (s + 1) (new_region_allocator hot_base cold_base s skt)
  /\ _cold_capacity (new_region_allocator hot_base cold_base s skt) = 2 * 2 ^ s.
Proof.
  intros Hs.
  assert (Hpos : 0 < 2 ^ s) by (apply Z.pow_pos_nonneg; lia).
  assert (H63 : 2 ^ s < 2 ^ 63) by (apply Z.pow_lt_mono_r; lia).
  assert (Hsucc : 2 ^ (s + 1) = 2 * 2 ^ s)
    by (rewrite Z.pow_add_r by lia; lia).
  assert (Hc : wrap64 (shl64 1 s * 2) = 2 * 2 ^ s).
  { unfold shl64, wrap64. rewrite Z.shiftl_1_l.
    rewrite (Z.mod_small (2 ^ s)) by lia.
    rewrite Z.mod_small by lia. lia. }
  unfold cold_ring; cbn. rewrite Hc, Hsucc.
  repeat split; try lia.
  unfold wrap64. apply Z.mod_small. lia.
Qed.

Lemma cold_address (k before : Z) :
  0 <= k -> 0 <= before <= 2 ^ k ->
  Z.land before (2 ^ k - 1) = if before <? 2 ^ k then before else 0.
Proof.
  intros Hk Hb.
  replace (2 ^ k - 1) with (Z.ones k) by (rewrite Z.ones_equiv; lia).
  rewrite Z.land_ones by assumption.
  destruct (Z.ltb_spec before (2 ^ k)).
  - apply Z.mod_small. lia.
  - replace before with (2 ^ k) by lia. apply Z.mod_same. lia.
Qed.

(** C10, as stated, fails: with the shipped segment size, a request that
    fills the cold region to its last byte followed by a request of no
    bytes keeps within the capacity, yet the second call returns
    [_cold_data] and not [_cold_data] plus the bytes given out before. *)
Lemma allocate_cold_empty_request_when_full :
  let r0 := new_region_allocator 65536 (2 ^ 40) RAconst.MEM_SEGMENT_BITS 0 in
  total fill_then_empty <= _cold_capacity r0
  /\ _cold_capacity r0 = 2 * 2 ^ _segment_bits r0
  /\ fst (allocate_cold_all fill_then_empty r0)
     = [Returned (_cold_data r0); Returned (_cold_data r0)]
  /\ fst (allocate_cold_all fill_then_empty r0) !! 1%nat
     <> Some (Returned (_cold_data r0 + total (take 1 fill_then_empty))).
Proof.
  vm_compute. split; [discriminate |].
  split; [reflexivity |]. split; [reflexivity |]. discriminate.
Qed.

(** C10, amended.  On a new allocator, for requests whose sizes add up to
    at most the cold capacity [2 * 2^segment_bits], every [allocate_cold]
    returns; the call returns [_cold_data] plus the bytes given out before
    it when these are fewer than the capacity, which covers every request
    of at least one byte, and returns [_cold_data] when the region is full
    already (the request is then for no bytes); every returned range lies
    within the cold region and ranges of different calls have no byte in
    common. *)
Theorem allocate_cold_sequence (hot_base cold_base s skt : Z) (sizes : list Z) :
  let r0 := new_region_allocator hot_base cold_base s skt in
  let capacity := 2 * 2 ^ s in
  0 <= s <= 61 ->
  Forall (fun size => 0 <= size) sizes ->
  total sizes <= capacity ->
  forall (i : nat) (size : Z),
    sizes !! i = Some size ->
    let before := total (take i sizes) in
    exists p,
      fst (allocate_cold_all sizes r0) !! i = Some (Returned p)
      /\ p = cold_base + (if before <? capacity then before else 0)
      /\ (0 < size -> p = cold_base + before)
      /\ cold_base <= p /\ p + size <= cold_base + capacity
      /\ forall (j : nat) (size' p' : Z),
           (i < j)%nat -> sizes !! j = Some size' ->
           fst (allocate_cold_all sizes r0) !! j = Some (Returned p') ->
           disjoint_ranges p size p' size'.
Proof.
  intros r0 capacity Hs Hpos Hfit.
  destruct (new_region_allocator_cold_ring hot_base cold_base s skt Hs)
    as [Hring Hcap].
  fold r0 in Hring, Hcap.
  assert (Hsucc : 2 ^ (s + 1) = capacity)
    by (unfold capacity; rewrite Z.pow_add_r by lia; lia).
  assert (Hmask : _cold_mask r0 = 2 ^ (s + 1) - 1) by apply Hring.
  assert (Hoff0 : _allocated_cold_offset r0 = 0) by reflexivity.
  assert (Hdata : _cold_data r0 = cold_base) by reflexivity.
  assert (Hnth : forall (i : nat) (size : Z),
             sizes !! i = Some size ->
             0 <= total (take i sizes)
             /\ total (take i sizes) + size <= capacity
             /\ fst (allocate_cold_all sizes r0) !! i
                = Some (Returned
                          (cold_base
                           + (if total (take i sizes) <? capacity
                              then total (take i sizes) else 0)))).
  { intros i size Hi.
    pose proof (total_take_le sizes i Hpos) as Hb.
    pose proof (total_take_le sizes (S i) Hpos) as Hb'.
    rewrite (total_take_S sizes i size Hi) in Hb'.
    split; [lia |]. split; [lia |].
    rewrite (allocate_cold_all_nth (s + 1) sizes r0 i size Hring
               ltac:(rewrite Hoff0; lia) Hpos
               ltac:(rewrite Hoff0, Hcap; fold capacity; lia) Hi).
    rewrite Hmask, Hoff0, Hdata.
    rewrite Z.add_0_l, cold_address by lia.
    rewrite Hsucc. reflexivity. }
  intros i size Hi before.
  destruct (Hnth i size Hi) as (Hb0 & Hb1 & Hres). fold before in Hb0, Hb1, Hres.
  assert (Hsize : 0 <= size)
    by (exact (proj1 (Forall_lookup _ _) Hpos i size Hi)).
  eexists. split; [exact Hres |]. split; [reflexivity |].
  destruct (Z.ltb_spec before capacity) as [Hlt | Hge].
  - repeat split; try lia.
    intros j size' p' Hij Hj Hp'.
    destruct (Hnth j size' Hj) as (Hc0 & Hc1 & Hres').
    rewrite Hres' in Hp'. inversion Hp' as [Hp'']; clear Hp'.
    pose proof (total_take_mono sizes (S i) j Hpos ltac:(lia)) as Hmono.
    rewrite (total_take_S sizes i size Hi) in Hmono. fold before in Hmono.
    intros x.
    destruct (Z.ltb_spec (total (take j sizes)) capacity); lia.
  - repeat split; try lia.
    intros j size' p' Hij Hj Hp' x. lia.
Qed.

Lemma allocate_cold_sequence_witness :
  0 <= 30 <= 61
  /\ Forall (fun size => 0 <= size) three_cold_requests
  /\ total three_cold_requests <= 2 * 2 ^ 30
  /\ three_cold_requests !! 2%nat = Some (2 ^ 31 - 100)
  /\ exists p,
      fst (allocate_cold_all three_cold_requests
             (new_region_allocator 65536 (2 ^ 40) 30 0)) !! 2%nat
      = Some (Returned p)
      /\ p = 2 ^ 40 + 100.
Proof.
  assert (Hs : 0 <= 30 <= 61) by lia.
  assert (Hpos : Forall (fun size => 0 <= size) three_cold_requests).
  { repeat (constructor; [vm_compute; discriminate |]). constructor. }
  assert (Hfit : total three_cold_requests <= 2 * 2 ^ 30)
    by (vm_compute; discriminate).
  repeat (split; [assumption || reflexivity |]).
  destruct (allocate_cold_sequence 65536 (2 ^ 40) 30 0 three_cold_requests
              Hs Hpos Hfit 2%nat (2 ^ 31 - 100) eq_refl)
    as (p & Hres & _ & Hp & _).
  exists p. split; [exact Hres |].
  rewrite Hp; [reflexivity | reflexivity].
Defined.

(** ** Reader-bitmap slots *)

Lemma testbit_pow2 (i n : Z) :
  0 <= i -> 0 <= n -> Z.testbit (2 ^ i) n = (i =? n).
Proof.
  intros Hi Hn. rewrite Z.pow2_bits_eqb by assumption. reflexivity.
Qed.

Lemma land_pow2 (b i : Z) :
  0 <= i -> Z.land b (2 ^ i) = if Z.testbit b i then 2 ^ i else 0.
Proof.
  intros Hi. apply Z.bits_inj'. intros n Hn.
  rewrite Z.land_spec, testbit_pow2 by assumption.
  destruct (Z.eqb_spec i n) as [-> | Hne].
  - destruct (Z.testbit b n); cbn.
    + rewrite testbit_pow2, Z.eqb_refl by assumption. reflexivity.
    + rewrite Z.bits_0. reflexivity.
  - rewrite andb_false_r.
    destruct (Z.testbit b i).
    + rewrite testbit_pow2 by assumption.
      symmetry. apply Z.eqb_neq. exact Hne.
    + rewrite Z.bits_0. reflexivity.
Qed.

Lemma land_pow2_eqb (b i : Z) :
  0 <= i -> (Z.land b (2 ^ i) =? 0) = negb (Z.testbit b i).
Proof.
  intros Hi. rewrite land_pow2 by assumption.
  assert (0 < 2 ^ i) by (apply Z.pow_pos_nonneg; lia).
  destruct (Z.testbit b i); cbn; [apply Z.eqb_neq; lia | reflexivity].
Qed.

Lemma lxor_pow2_testbit (b i n : Z) :
  0 <= i -> 0 <= n ->
  Z.testbit (Z.lxor b (2 ^ i)) n = xorb (Z.testbit b n) (i =? n).
Proof.
  intros Hi Hn. rewrite Z.lxor_spec, testbit_pow2 by assumption. reflexivity.
Qed.

Section Deregister.

Variables (i : Z) (Hi : 0 <= i).

(** One call: the thread's bit is off afterwards, the others are as
    before, and both [ASSERT]s hold. *)
Lemma deregister_once (t : TXN.dbtuple) :
  exists t',
    TXN.serial_deregister_reader_tx (2 ^ i) t = Ok t'
    /\ Z.testbit (TXN.rl_bitmap t') i = false
    /\ (forall j, 0 <= j -> j <> i ->
          Z.testbit (TXN.rl_bitmap t') j = Z.testbit (TXN.rl_bitmap t) j).
Proof.
  unfold TXN.serial_deregister_reader_tx.
  assert (Hpos : 0 < 2 ^ i) by (apply Z.pow_pos_nonneg; lia).
  destruct (Z.eqb_spec (2 ^ i) 0) as [H0 | _]; [lia |].
  rewrite !land_pow2_eqb by assumption.
  destruct (Z.testbit (TXN.rl_bitmap t) i) eqn:Hbit; cbn.
  - rewrite lxor_pow2_testbit, Hbit, Z.eqb_refl by assumption.
    cbn. eexists. split; [reflexivity |]. cbn.
    split.
    + rewrite lxor_pow2_testbit, Hbit, Z.eqb_refl by assumption. reflexivity.
    + intros j Hj Hne. rewrite lxor_pow2_testbit by assumption.
      destruct (Z.eqb_spec i j); [congruence |]. apply xorb_false_r.
  - rewrite Hbit. cbn.
    exists t. repeat split. exact Hbit.
Qed.

(** A call on a tuple whose bit is off changes nothing. *)
Lemma deregister_again (t : TXN.dbtuple) :
  Z.testbit (TXN.rl_bitmap t) i = false ->
  TXN.serial_deregister_reader_tx (2 ^ i) t = Ok t.
Proof.
  intros Hbit. unfold TXN.serial_deregister_reader_tx.
  assert (Hpos : 0 < 2 ^ i) by (apply Z.pow_pos_nonneg; lia).
  destruct (Z.eqb_spec (2 ^ i) 0) as [H0 | _]; [lia |].
  rewrite !land_pow2_eqb, Hbit by assumption. cbn.
  rewrite Hbit. reflexivity.
Qed.

(** C6. After one or more calls of [serial_deregister_reader_tx] by the
    thread that holds the one-bit mask [2^i], whatever the bitmap was,
    every call has returned with its [ASSERT]s holding,
    [rl_bitmap & 2^i] is [0], every other bit of [rl_bitmap] is as it
    was, and one more call leaves the tuple as it is. *)
Theorem deregister_clears_slot (n : nat) (t : TXN.dbtuple) :
  (1 <= n)%nat ->
  exists t',
    TXN.deregister_times n (2 ^ i) t = Ok t'
    /\ Z.land (TXN.rl_bitmap t') (2 ^ i) = 0
    /\ (forall j, 0 <= j -> j <> i ->
          Z.testbit (TXN.rl_bitmap t') j = Z.testbit (TXN.rl_bitmap t) j)
    /\ TXN.serial_deregister_reader_tx (2 ^ i) t' = Ok t'.
Proof.
  intros Hn. destruct n as [| n]; [lia |]. clear Hn.
  cbn [TXN.deregister_times].
  destruct (deregister_once t) as (t1 & E1 & Hoff & Hsame).
  rewrite E1. cbn [bind].
  assert (Hrest : TXN.deregister_times n (2 ^ i) t1 = Ok t1).
  { induction n as [| n IH]; [reflexivity |].
    cbn [TXN.deregister_times].
    rewrite (deregister_again t1 Hoff). cbn [bind]. exact IH. }
  exists t1. split; [exact Hrest |].
  split; [rewrite land_pow2, Hoff by assumption; reflexivity |].
  split; [exact Hsame |].
  apply deregister_again. exact Hoff.
Qed.

End Deregister.

Lemma deregister_clears_slot_witness :
  0 <= 3 /\ (1 <= 3)%nat
  /\ exists t',
      TXN.deregister_times 3 (2 ^ 3) {| TXN.rl_bitmap := 13 |} = Ok t'
      /\ Z.land (TXN.rl_bitmap t') (2 ^ 3) = 0
      /\ (forall j, 0 <= j -> j <> 3 ->
            Z.testbit (TXN.rl_bitmap t') j = Z.testbit 13 j)
      /\ TXN.serial_deregister_reader_tx (2 ^ 3) t' = Ok t'.
Proof.
  assert (Hi : 0 <= 3) by lia.
  assert (Hn : (1 <= 3)%nat) by lia.
  split; [exact Hi |]. split; [exact Hn |].
  exact (deregister_clears_slot 3 Hi 3 {| TXN.rl_bitmap := 13 |} Hn).
Defined.

(** *** Claiming a slot *)

Lemma testbit_case (P : Z -> Prop) :
  P 0 -> (forall m, 0 <= m -> P (Z.succ m)) -> forall n, 0 <= n -> P n.
Proof.
  intros H0 HS n Hn.
  destruct (Z.eq_dec n 0) as [-> | Hne]; [exact H0 |].
  replace n with (Z.succ (n - 1)) by lia. apply HS. lia.
Qed.

Lemma claim_even (k : Z) :
  Z.lxor (Z.lor (2 * k) (2 * k + 1)) (2 * k) = 1.
Proof.
  apply Z.bits_inj'. intros n Hn. revert n Hn.
  apply testbit_case.
  - rewrite Z.lxor_spec, Z.lor_spec, Z.testbit_even_0, Z.testbit_odd_0.
    reflexivity.
  - intros m Hm.
    rewrite Z.lxor_spec, Z.lor_spec, Z.testbit_even_succ,
      Z.testbit_odd_succ by assumption.
    rewrite orb_diag, xorb_nilpotent.
    change 1 with (2 * 0 + 1).
    rewrite Z.testbit_odd_succ, Z.bits_0 by assumption. reflexivity.
Qed.

Lemma claim_odd (k : Z) :
  Z.lxor (Z.lor (2 * k + 1) (2 * k + 1 + 1)) (2 * k + 1)
  = 2 * Z.lxor (Z.lor k (k + 1)) k.
Proof.
  replace (2 * k + 1 + 1) with (2 * (k + 1)) by lia.
  apply Z.bits_inj'. intros n Hn. revert n Hn.
  apply testbit_case.
  - rewrite Z.lxor_spec, Z.lor_spec, !Z.testbit_even_0, Z.testbit_odd_0.
    reflexivity.
  - intros m Hm.
    rewrite Z.lxor_spec, Z.lor_spec, !Z.testbit_even_succ,
      Z.testbit_odd_succ by assumption.
    rewrite Z.lxor_spec, Z.lor_spec. reflexivity.
Qed.

(** [(b | (b+1)) ^ b] is the lowest bit that is off in [b]. *)
Lemma lowest_unset_bit (b : Z) :
  0 <= b ->
  exists i,
    0 <= i /\ Z.testbit b i = false
    /\ (forall j, 0 <= j < i -> Z.testbit b j = true)
    /\ Z.lxor (Z.lor b (b + 1)) b = 2 ^ i
    /\ 2 ^ i <= b + 1.
Proof.
  revert b. apply (Wf_Z.Zlt_0_ind
    (fun b => exists i,
       0 <= i /\ Z.testbit b i = false
       /\ (forall j, 0 <= j < i -> Z.testbit b j = true)
       /\ Z.lxor (Z.lor b (b + 1)) b = 2 ^ i
       /\ 2 ^ i <= b + 1)).
  intros b IH Hb.
  pose proof (Z.div_mod b 2 ltac:(lia)) as Hdm.
  pose proof (Z.mod_pos_bound b 2 ltac:(lia)) as Hm.
  set (k := b / 2) in *.
  destruct (Z.eq_dec (b mod 2) 0) as [Hev | Hodd].
  - exists 0.
    assert (Eb : b = 2 * k) by lia. rewrite Eb.
    split; [lia |]. split; [apply Z.testbit_even_0 |].
    split; [intros j Hj; lia |].
    split; [apply claim_even | cbn; lia].
  - assert (Eb : b = 2 * k + 1) by lia.
    destruct (IH k ltac:(lia)) as (i & Hi & Hoff & Hon & Hx & Hle).
    exists (Z.succ i). rewrite Eb.
    split; [lia |].
    split; [rewrite Z.testbit_odd_succ by assumption; exact Hoff |].
    split.
    + intros j Hj. revert j Hj Hon. 
      intros j [Hj0 Hj1] Hon.
      destruct (Z.eq_dec j 0) as [-> | Hne]; [apply Z.testbit_odd_0 |].
      replace j with (Z.succ (j - 1)) by lia.
      rewrite Z.testbit_odd_succ by lia. apply Hon. lia.
    + rewrite claim_odd, Hx, Z.pow_succ_r by assumption.
      split; [reflexivity | lia].
Qed.

Lemma lor_succ_setbit (b i : Z) :
  0 <= i -> Z.testbit b i = false ->
  Z.lxor (Z.lor b (b + 1)) b = 2 ^ i ->
  Z.lor b (b + 1) = Z.setbit b i /\ Z.lxor (Z.setbit b i) (2 ^ i) = b.
Proof.
  intros Hi Hoff Hx.
  assert (Hset : Z.lxor (2 ^ i) b = Z.setbit b i).
  { apply Z.bits_inj'. intros n Hn.
    rewrite Z.lxor_spec, testbit_pow2, Z.setbit_eqb by assumption.
    destruct (Z.eqb_spec i n) as [-> | Hne]; [rewrite Hoff |]; reflexivity. }
  assert (Hlor : Z.lor b (b + 1) = Z.setbit b i).
  { rewrite <- Hset, <- Hx.
    rewrite Z.lxor_assoc, Z.lxor_nilpotent, Z.lxor_0_r. reflexivity. }
  split; [exact Hlor |].
  rewrite <- Hset, (Z.lxor_comm (2 ^ i) b).
  rewrite Z.lxor_assoc, Z.lxor_nilpotent, Z.lxor_0_r. reflexivity.
Qed.

Lemma lxor_pow2_clearbit (c i : Z) :
  0 <= i -> Z.testbit c i = true -> Z.lxor c (2 ^ i) = Z.clearbit c i.
Proof.
  intros Hi Hon. apply Z.bits_inj'. intros n Hn.
  rewrite lxor_pow2_testbit, Z.clearbit_eqb by assumption.
  destruct (Z.eqb_spec i n) as [-> | Hne]; cbn.
  - rewrite Hon. reflexivity.
  - rewrite xorb_false_r, andb_true_r. reflexivity.
Qed.

Section Slots.

Variables (W : Z) (HW : 0 < W).

(** C7. For a claimed-bits word [b] with a bit off, a thread without a
    slot that calls [assign_reader_bitmap_entry] while no other thread
    writes the word gets as [tls_bitmap_entry] the lowest bit that is off
    in [b], which is [(b | (b+1)) ^ b] and has one bit on, and leaves
    the word as [b] with that bit on; [deassign_reader_bitmap_entry]
    then gives back [b] and a zero [tls_bitmap_entry], and on any word
    [c] that has the bit on it turns off that bit and no other. *)
Theorem assign_claims_lowest_unset_bit (b : Z) :
  0 <= b < 2 ^ W - 1 ->
  let s := {| TXN.tls_bitmap_entry := 0; TXN.claimed_bitmap_entries := b |} in
  let s' := TXN.assign_reader_bitmap_entry W [] s in
  exists i,
    0 <= i < W
    /\ Z.testbit b i = false
    /\ (forall j, 0 <= j < i -> Z.testbit b j = true)
    /\ TXN.tls_bitmap_entry s' = 2 ^ i
    /\ TXN.tls_bitmap_entry s' = Z.lxor (Z.lor b (b + 1)) b
    /\ TXN.claimed_bitmap_entries s' = Z.setbit b i
    /\ TXN.deassign_reader_bitmap_entry s'
       = Ok {| TXN.tls_bitmap_entry := 0; TXN.claimed_bitmap_entries := b |}
    /\ (forall c, Z.testbit c i = true ->
          TXN.deassign_reader_bitmap_entry
            {| TXN.tls_bitmap_entry := 2 ^ i;
               TXN.claimed_bitmap_entries := c |}
          = Ok {| TXN.tls_bitmap_entry := 0;
                  TXN.claimed_bitmap_entries := Z.clearbit c i |}).
Proof.
  intros Hb s s'.
  destruct (lowest_unset_bit b ltac:(lia)) as (i & Hi & Hoff & Hon & Hx & Hle).
  assert (Hpos : 0 < 2 ^ i) by (apply Z.pow_pos_nonneg; lia).
  assert (HiW : i < W).
  { apply (Z.pow_lt_mono_r_iff 2); lia. }
  destruct (lor_succ_setbit b i Hi Hoff Hx) as [Hlor Hback].
  assert (Hwrap : TXN.wrapW W (b + 1) = b + 1)
    by (unfold TXN.wrapW; apply Z.mod_small; lia).
  assert (Hdeassign : forall c, Z.testbit c i = true ->
            TXN.deassign_reader_bitmap_entry
              {| TXN.tls_bitmap_entry := 2 ^ i;
                 TXN.claimed_bitmap_entries := c |}
            = Ok {| TXN.tls_bitmap_entry := 0;
                    TXN.claimed_bitmap_entries := Z.clearbit c i |}).
  { intros c Hc. unfold TXN.deassign_reader_bitmap_entry; cbn.
    destruct (Z.eqb_spec (2 ^ i) 0) as [H0 | _]; [lia |].
    rewrite land_pow2_eqb, Hc by assumption. cbn.
    rewrite lxor_pow2_clearbit by assumption. reflexivity. }
  assert (Es' : s' = {| TXN.tls_bitmap_entry := 2 ^ i;
                        TXN.claimed_bitmap_entries := Z.setbit b i |}).
  { unfold s', s, TXN.assign_reader_bitmap_entry; cbn.
    rewrite Hwrap, Hx, Hlor. reflexivity. }
  exists i. rewrite Es'. cbn.
  split; [lia |]. split; [exact Hoff |]. split; [exact Hon |].
  split; [reflexivity |]. split; [symmetry; exact Hx |].
  split; [reflexivity |].
  split; [| exact Hdeassign].
  rewrite Hdeassign.
  - rewrite <- lxor_pow2_clearbit, Hback; [reflexivity | assumption |].
    rewrite Z.setbit_eqb, Z.eqb_refl by assumption. reflexivity.
  - rewrite Z.setbit_eqb, Z.eqb_refl by assumption. reflexivity.
Qed.

(** When other threads get their stores in first, the thread ends up
    claiming on one of the values the word went through. *)
Lemma assign_retry_stores (stores : list Z) :
  forall old_bitmap,
    exists b, In b (old_bitmap :: stores)
              /\ TXN.assign_retry W stores old_bitmap
                 = TXN.assign_retry W [] b.
Proof.
  induction stores as [| cur stores IH]; intros old.
  - exists old. split; [left; reflexivity | reflexivity].
  - cbn [TXN.assign_retry].
    destruct (Z.eqb_spec old cur) as [-> | Hne]; cbn.
    + exists cur. split; [left; reflexivity | reflexivity].
    + destruct (IH cur) as (b & Hin & E).
      exists b. split; [right; exact Hin | exact E].
Qed.

(** With every slot taken the call returns as usual: nothing is thrown,
    the word is as it was and the thread's mask is zero. *)
Lemma assign_all_claimed :
  TXN.assign_reader_bitmap_entry W []
    {| TXN.tls_bitmap_entry := 0;
       TXN.claimed_bitmap_entries := 2 ^ W - 1 |}
  = {| TXN.tls_bitmap_entry := 0;
       TXN.claimed_bitmap_entries := 2 ^ W - 1 |}.
Proof.
  unfold TXN.assign_reader_bitmap_entry; cbn.
  assert (Hwrap : TXN.wrapW W (2 ^ W - 1 + 1) = 0).
  { unfold TXN.wrapW. replace (2 ^ W - 1 + 1) with (2 ^ W) by lia.
    apply Z.mod_same. apply Z.pow_nonzero; lia. }
  rewrite Hwrap, Z.lor_0_r, Z.lxor_nilpotent. reflexivity.
Qed.

End Slots.

Lemma assign_claims_lowest_unset_bit_witness :
  0 < 64 /\ 0 <= 11 < 2 ^ 64 - 1
  /\ TXN.assign_reader_bitmap_entry 64 []
       {| TXN.tls_bitmap_entry := 0; TXN.claimed_bitmap_entries := 11 |}
     = {| TXN.tls_bitmap_entry := 4; TXN.claimed_bitmap_entries := 15 |}
  /\ exists i,
      0 <= i < 64 /\ Z.testbit 11 i = false
      /\ TXN.tls_bitmap_entry
           (TXN.assign_reader_bitmap_entry 64 []
              {| TXN.tls_bitmap_entry := 0;
                 TXN.claimed_bitmap_entries := 11 |}) = 2 ^ i.
Proof.
  assert (HW : 0 < 64) by lia.
  assert (Hb : 0 <= 11 < 2 ^ 64 - 1) by lia.
  split; [exact HW |]. split; [exact Hb |]. split; [reflexivity |].
  destruct (assign_claims_lowest_unset_bit 64 HW 11 Hb)
    as (i & Hi & Hoff & _ & Htls & _).
  exists i. split; [exact Hi |]. split; [exact Hoff | exact Htls].
Defined.

(** C4 fails on the code: with a 64-bit [rl_bitmap_t] and all 64 slots
    taken, [assign_reader_bitmap_entry] returns without any error and
    leaves the thread with the mask [0]; registering a read with that mask
    then trips the [ASSERT] of [serial_register_reader_tx], and so does
    [deassign_reader_bitmap_entry] when the thread leaves. *)
Theorem assign_with_no_free_slot :
  let s := {| TXN.tls_bitmap_entry := 0;
              TXN.claimed_bitmap_entries := 2 ^ 64 - 1 |} in
  let s' := TXN.assign_reader_bitmap_entry 64 [] s in
  s' = s
  /\ TXN.tls_bitmap_entry s' = 0
  /\ TXN.serial_register_reader_tx (TXN.tls_bitmap_entry s')
       {| TXN.rl_bitmap := 0 |} = Fault AssertionFailed
  /\ TXN.deassign_reader_bitmap_entry s' = Fault AssertionFailed.
Proof.
  cbn zeta. rewrite (assign_all_claimed 64 ltac:(lia)).
  repeat split.
Qed.


(** * Beyond the claims *)

(** ** What [allocate] hands out *)

(** A pass that returns: where the chunk starts, and that it ends before
    the next segment boundary and before [_reclaimed_offset]. *)
Lemma pass_chunk (size : Z) (adv : bool) (r : region_allocator) (p : Z) :
  0 <= _segment_bits r < 64 ->
  0 <= _allocated_hot_offset r ->
  0 <= size ->
  _allocated_hot_offset r + size < 2 ^ 64 ->
  fst (allocate_pass size adv r) = Finished (Returned p) ->
  _allocated_hot_offset r + size <= _reclaimed_offset r
  /\ _allocated_hot_offset r mod 2 ^ _segment_bits r + size
     <= 2 ^ _segment_bits r
  /\ p = _hot_data r + Z.land (_allocated_hot_offset r) (_hot_mask r).
Proof.
  destruct r as [hd cd s hb cap ccap hm cm rec sk a ac al st].
  cbn. intros Hbits Hcursor Hsize Hfit.
  unfold allocate_pass; cbn.
  assert (Hpow : 0 < 2 ^ s) by (apply Z.pow_pos_nonneg; lia).
  assert (Hn : wrap64 (a + size) = a + size)
    by (unfold wrap64; apply Z.mod_small; lia).
  assert (Hn0 : wrap64 (a + size - size) = a)
    by (unfold wrap64; replace (a + size - size) with a by lia;
        apply Z.mod_small; lia).
  rewrite Hn, Hn0.
  destruct (Z.ltb_spec rec (a + size)); cbn; [discriminate |].
  rewrite !Z.shiftr_div_pow2 by lia.
  destruct (Z.eqb_spec (wrap64 (a + size - 1) / 2 ^ s) (a / 2 ^ s))
    as [Heq | Hne]; cbn.
  - intros E.
    assert (Hp : p = hd + Z.land a hm).
    { revert E. case_ifs; cbn; intros E; inversion E; reflexivity. }
    split; [lia |]. split; [| exact Hp].
    pose proof (Z.div_mod a (2 ^ s) ltac:(lia)) as Hdm.
    pose proof (Z.mod_pos_bound a (2 ^ s) Hpow) as Hmb.
    destruct (Z.eq_dec (a + size) 0) as [Hz | Hnz].
    + exfalso.
      assert (a = 0) by lia. subst a.
      replace (0 + size - 1) with (-1) in Heq by lia.
      rewrite Z.div_0_l in Heq by lia.
      assert (H1 : 2 ^ s <= wrap64 (-1)).
      { unfold wrap64. change ((-1) mod 2 ^ 64) with (2 ^ 64 - 1).
        assert (2 ^ s <= 2 ^ 63) by (apply Z.pow_le_mono_r; lia). lia. }
      pose proof (Z.div_le_mono (2 ^ s) (wrap64 (-1)) (2 ^ s) Hpow H1) as H2.
      rewrite Z.div_same in H2 by lia. lia.
    + assert (Hn1 : wrap64 (a + size - 1) = a + size - 1)
        by (unfold wrap64; apply Z.mod_small; lia).
      rewrite Hn1 in Heq.
      pose proof (Z.div_mod (a + size - 1) (2 ^ s) ltac:(lia)) as Hdm1.
      pose proof (Z.mod_pos_bound (a + size - 1) (2 ^ s) Hpow) as Hmb1.
      rewrite Heq in Hdm1. lia.
  - unfold state; cbn. destruct (negb (st =? RA_NORMAL)); cbn; discriminate.
Qed.

(** The cursor after a pass that does not wrap. *)
Lemma pass_cursor_exact (size : Z) (adv : bool) (r : region_allocator) :
  0 <= _allocated_hot_offset r -> 0 <= size ->
  _allocated_hot_offset r + size < 2 ^ 64 ->
  _allocated_hot_offset (snd (allocate_pass size adv r))
  = _allocated_hot_offset r + size.
Proof.
  intros Hcursor Hsize Hfit. rewrite allocate_pass_cursor.
  unfold wrap64. apply Z.mod_small. lia.
Qed.

(** The cursor never moves back in a call that does not wrap. *)
Lemma allocate_cursor_mono (size : Z) (adv : bool) (r : region_allocator) :
  0 <= _allocated_hot_offset r -> 0 <= size ->
  _allocated_hot_offset r + 2 * size < 2 ^ 64 ->
  _allocated_hot_offset r + size
  <= _allocated_hot_offset (snd (allocate size adv r))
  <= _allocated_hot_offset r + 2 * size.
Proof.
  intros Hcursor Hsize Hfit.
  destruct (allocate_unfold size adv r)
    as [(res & E & _) | (r1 & res & E1 & E2 & _)].
  - pose proof (pass_cursor_exact size adv r Hcursor Hsize ltac:(lia)) as Hc.
    rewrite E in Hc. cbn in Hc. lia.
  - pose proof (pass_cursor_exact size adv r Hcursor Hsize ltac:(lia)) as Hc1.
    rewrite E1 in Hc1. cbn in Hc1.
    pose proof (pass_cursor_exact size adv r1 ltac:(lia) Hsize ltac:(lia))
      as Hc2.
    rewrite E2 in Hc2. cbn in Hc2. lia.
Qed.

(** A call that returns: the chunk starts at an offset [o] at or after the
    cursor the call found, ends where the call leaves the cursor, does not
    reach past [_reclaimed_offset] and does not cross a segment boundary. *)
Lemma allocate_chunk (size : Z) (adv : bool) (r : region_allocator) (p : Z) :
  0 <= _segment_bits r < 64 ->
  0 <= _allocated_hot_offset r ->
  0 <= size ->
  _allocated_hot_offset r + 2 * size < 2 ^ 64 ->
  fst (allocate size adv r) = Returned p ->
  exists o,
    _allocated_hot_offset r <= o
    /\ o + size = _allocated_hot_offset (snd (allocate size adv r))
    /\ o + size <= _reclaimed_offset r
    /\ o mod 2 ^ _segment_bits r + size <= 2 ^ _segment_bits r
    /\ p = _hot_data r + Z.land o (_hot_mask r).
Proof.
  intros Hbits Hcursor Hsize Hfit Hp.
  destruct (allocate_unfold size adv r)
    as [(res & E & Hres) | (r1 & res & E1 & E2 & Hres)].
  - rewrite Hp in Hres. subst res.
    pose proof (pass_chunk size adv r p Hbits Hcursor Hsize ltac:(lia)) as H.
    pose proof (pass_cursor_exact size adv r Hcursor Hsize ltac:(lia)) as Hc.
    rewrite E in H, Hc. cbn in H, Hc.
    destruct (H eq_refl) as (H1 & H2 & H3).
    exists (_allocated_hot_offset r). rewrite Hc.
    repeat split; lia || assumption.
  - rewrite Hp in Hres. subst res.
    pose proof (pass_cursor_exact size adv r Hcursor Hsize ltac:(lia)) as Hc1.
    pose proof (allocate_pass_layout size adv r) as HL.
    pose proof (allocate_pass_reclaimed size adv r) as HR.
    rewrite E1 in Hc1, HL, HR. cbn in Hc1, HL, HR.
    destruct HL as (Hd & _ & Hs & _ & _ & _ & Hm & _).
    pose proof (pass_chunk size adv r1 p ltac:(rewrite Hs; assumption)
                  ltac:(lia) Hsize ltac:(lia)) as H.
    pose proof (pass_cursor_exact size adv r1 ltac:(lia) Hsize ltac:(lia))
      as Hc2.
    rewrite E2 in H, Hc2. cbn in H, Hc2.
    destruct (H eq_refl) as (H1 & H2 & H3).
    exists (_allocated_hot_offset r1). rewrite Hc2.
    rewrite Hs, Hd, Hm, HR in *.
    repeat split; lia || assumption.
Qed.

(** X1. [allocate] never hands out more than one segment: for a request
    larger than [2^_segment_bits] (cursor not wrapping) the call does not
    return, it throws. *)
Theorem allocate_at_most_one_segment (size : Z) (adv : bool)
    (r : region_allocator) :
  0 <= _segment_bits r < 64 ->
  0 <= _allocated_hot_offset r ->
  _allocated_hot_offset r + 2 * size < 2 ^ 64 ->
  2 ^ _segment_bits r < size ->
  fst (allocate size adv r) = BadAlloc
  \/ fst (allocate size adv r) = RuntimeError.
Proof.
  intros Hbits Hcursor Hfit Hbig.
  assert (Hpow : 0 < 2 ^ _segment_bits r) by (apply Z.pow_pos_nonneg; lia).
  destruct (fst (allocate size adv r)) as [p | | | ] eqn:E; auto.
  - exfalso.
    destruct (allocate_chunk size adv r p Hbits Hcursor ltac:(lia) Hfit E)
      as (o & _ & _ & _ & Hseg & _).
    pose proof (Z.mod_pos_bound o (2 ^ _segment_bits r) Hpow). lia.
  - exfalso. exact (proj2 (allocate_loop_fuel 0 size adv r) E).
Qed.

Lemma allocate_at_most_one_segment_witness :
  let r := new_region_allocator 65536 (2 ^ 40) 30 0 in
  0 <= _segment_bits r < 64
  /\ 0 <= _allocated_hot_offset r
  /\ _allocated_hot_offset r + 2 * (2 ^ 30 + 1) < 2 ^ 64
  /\ 2 ^ _segment_bits r < 2 ^ 30 + 1
  /\ (fst (allocate (2 ^ 30 + 1) false r) = BadAlloc
      \/ fst (allocate (2 ^ 30 + 1) false r) = RuntimeError).
Proof.
  intros r.
  assert (H1 : 0 <= _segment_bits r < 64) by (cbn; lia).
  assert (H2 : 0 <= _allocated_hot_offset r) by (cbn; lia).
  assert (H3 : _allocated_hot_offset r + 2 * (2 ^ 30 + 1) < 2 ^ 64)
    by (cbn; lia).
  assert (H4 : 2 ^ _segment_bits r < 2 ^ 30 + 1) by (cbn; lia).
  repeat (split; [assumption |]).
  exact (allocate_at_most_one_segment (2 ^ 30 + 1) false r H1 H2 H3 H4).
Defined.

Lemma ring_offset (s o : Z) :
  0 <= s ->
  Z.land o (2 ^ (s + 2) - 1)
  = 2 ^ s * ((o / 2 ^ s) mod 4) + o mod 2 ^ s.
Proof.
  intros Hs.
  assert (Hpow : 0 < 2 ^ s) by (apply Z.pow_pos_nonneg; lia).
  replace (2 ^ (s + 2) - 1) with (Z.ones (s + 2))
    by (rewrite Z.ones_equiv; lia).
  rewrite Z.land_ones by lia.
  rewrite Z.pow_add_r by lia. change (2 ^ 2) with 4.
  rewrite Z.rem_mul_r by lia. lia.
Qed.

Lemma new_region_allocator_laid_out (hot_base cold_base s skt : Z) :
  0 <= s <= 61 -> laid_out s (new_region_allocator hot_base cold_base s skt).
Proof.
  intros Hs.
  destruct (new_region_allocator_hot_ring hot_base cold_base s skt Hs)
    as (k & Hk & Hcap & Hmask).
  assert (H64 : 2 ^ (s + 2) < 2 ^ 64) by (apply Z.pow_lt_mono_r; lia).
  assert (Hb : wrap64 (NUM_SEGMENT_BITS + s) = s + 2).
  { unfold wrap64, NUM_SEGMENT_BITS. rewrite Z.mod_small; lia. }
  assert (Hc : shl64 1 (s + 2) = 2 ^ (s + 2)).
  { unfold shl64, wrap64. rewrite Z.shiftl_1_l. apply Z.mod_small.
    assert (0 < 2 ^ (s + 2)) by (apply Z.pow_pos_nonneg; lia). lia. }
  unfold laid_out; cbn. rewrite Hb, Hc.
  repeat split; try lia.
  unfold wrap64. apply Z.mod_small.
  assert (0 < 2 ^ (s + 2)) by (apply Z.pow_pos_nonneg; lia). lia.
Qed.

Lemma laid_out_layout (s : Z) (r r' : region_allocator) :
  same_layout r r' -> laid_out s r -> laid_out s r'.
Proof.
  unfold same_layout, laid_out. intuition congruence.
Qed.

(** A request so large that the 64-bit cursor wraps can return: with the
    cursor at [8], a request of [2^64 - 4] bytes brings it to [4], both
    ends of the chunk fall into the first segment, and the call returns
    the address at offset [8] for a chunk that no segment holds. *)
Lemma allocate_wrapping_request :
  let r := with_allocated_hot_offset 8
             (new_region_allocator 65536 (2 ^ 40) 30 0) in
  allocate (2 ^ 64 - 4) false r
  = (Returned (65536 + 8), with_allocated (2 ^ 64 - 4)
                             (with_allocated_hot_offset 4 r)).
Proof. vm_compute. reflexivity. Qed.

(** X2. On an allocator laid out as the constructor leaves it, and as
    long as the 64-bit cursor does not wrap in the call (the cursor plus
    twice the size is below [2^64]; a call adds the size once or twice), a
    chunk that [allocate] returns lies inside one of the four segments of
    the hot region: it starts at or after the segment's first byte and
    ends at or before its last.  Without the bound the chunk need not:
    [allocate_wrapping_request]. *)
Theorem allocate_within_one_segment (s size : Z) (adv : bool)
    (r : region_allocator) (p : Z) :
  laid_out s r ->
  0 <= _allocated_hot_offset r ->
  0 <= size ->
  _allocated_hot_offset r + 2 * size < 2 ^ 64 ->
  fst (allocate size adv r) = Returned p ->
  exists k,
    0 <= k < 4
    /\ _hot_data r + k * 2 ^ s <= p
    /\ p + size <= _hot_data r + (k + 1) * 2 ^ s.
Proof.
  intros (Hs & Hbits & Hcap & Hmask) Hcursor Hsize Hfit Hp.
  destruct (allocate_chunk size adv r p ltac:(lia) Hcursor Hsize Hfit Hp)
    as (o & _ & _ & _ & Hseg & ->).
  rewrite Hbits in Hseg. rewrite Hmask, ring_offset by lia.
  assert (Hpow : 0 < 2 ^ s) by (apply Z.pow_pos_nonneg; lia).
  pose proof (Z.mod_pos_bound o (2 ^ s) Hpow).
  pose proof (Z.mod_pos_bound (o / 2 ^ s) 4 ltac:(lia)).
  exists ((o / 2 ^ s) mod 4). split; [lia |]. nia.
Qed.

Lemma allocate_within_one_segment_witness :
  let r := with_allocated_hot_offset (2 ^ 31 + 5)
             (new_region_allocator 65536 (2 ^ 40) 30 0) in
  laid_out 30 r
  /\ 0 <= _allocated_hot_offset r
  /\ 0 <= 4096
  /\ _allocated_hot_offset r + 2 * 4096 < 2 ^ 64
  /\ fst (allocate 4096 false r) = Returned (65536 + 2 ^ 31 + 5)
  /\ exists k,
      0 <= k < 4
      /\ _hot_data r + k * 2 ^ 30 <= 65536 + 2 ^ 31 + 5
      /\ 65536 + 2 ^ 31 + 5 + 4096 <= _hot_data r + (k + 1) * 2 ^ 30.
Proof.
  intros r.
  assert (H1 : laid_out 30 r).
  { apply (laid_out_layout 30 (new_region_allocator 65536 (2 ^ 40) 30 0)).
    - unfold same_layout, r; cbn. tauto.
    - apply new_region_allocator_laid_out. lia. }
  assert (H2 : 0 <= _allocated_hot_offset r) by (cbn; lia).
  assert (H3 : 0 <= 4096) by lia.
  assert (H4 : _allocated_hot_offset r + 2 * 4096 < 2 ^ 64) by (cbn; lia).
  assert (H5 : fst (allocate 4096 false r) = Returned (65536 + 2 ^ 31 + 5))
    by (vm_compute; reflexivity).
  repeat (split; [assumption |]).
  exact (allocate_within_one_segment 30 4096 false r _ H1 H2 H3 H4 H5).
Defined.

(** ** Chunks of successive calls *)

(** Two stretches of a ring of [cap] bytes that lie one after the other
    inside a window of [cap] offsets and do not run over the end of the
    ring have no byte in common. *)
Lemma ring_disjoint (h cap o1 n1 o2 n2 R : Z) :
  0 < cap -> 0 <= o1 ->
  o1 + n1 <= o2 -> o2 + n2 <= R -> R <= o1 + cap ->
  o1 mod cap + n1 <= cap -> o2 mod cap + n2 <= cap ->
  disjoint_ranges (h + o1 mod cap) n1 (h + o2 mod cap) n2.
Proof.
  intros Hcap Ho1 Hord Hend Hwin Hfit1 Hfit2 x [Hx1 Hx2].
  pose proof (Z.div_mod o1 cap ltac:(lia)) as Hd1.
  pose proof (Z.div_mod o2 cap ltac:(lia)) as Hd2.
  pose proof (Z.mod_pos_bound o1 cap Hcap) as Hm1.
  pose proof (Z.mod_pos_bound o2 cap Hcap) as Hm2.
  assert (Hq : o1 / cap <= o2 / cap) by (apply Z.div_le_mono; lia).
  assert (Hq' : o2 / cap <= o1 / cap + 1).
  { replace (o1 / cap + 1) with ((o1 + 1 * cap) / cap)
      by (rewrite Z.div_add by lia; reflexivity).
    apply Z.div_le_mono; lia. }
  destruct (Z.eq_dec (o2 / cap) (o1 / cap)) as [E | E].
  - rewrite E in Hd2. lia.
  - assert (E' : o2 / cap = o1 / cap + 1) by lia.
    rewrite E' in Hd2. lia.
Qed.

Lemma twice_total_nonneg (requests : list (Z * bool)) :
  Forall (fun q => 0 <= fst q) requests -> 0 <= twice_total requests.
Proof.
  induction 1 as [| q requests Hq _ IH]; cbn; [lia |].
  unfold twice_total in IH. lia.
Qed.

(** Every chunk of a run starts at or after the cursor the run found. *)
Lemma allocate_all_chunk (requests : list (Z * bool)) :
  forall (r : region_allocator) (i : nat) (size : Z) (adv : bool) (p : Z),
    0 <= _segment_bits r < 64 ->
    0 <= _allocated_hot_offset r ->
    Forall (fun q => 0 <= fst q) requests ->
    _allocated_hot_offset r + twice_total requests < 2 ^ 64 ->
    requests !! i = Some (size, adv) ->
    fst (allocate_all requests r) !! i = Some (Returned p) ->
    exists o,
      _allocated_hot_offset r <= o
      /\ o + size <= _reclaimed_offset r
      /\ o mod 2 ^ _segment_bits r + size <= 2 ^ _segment_bits r
      /\ p = _hot_data r + Z.land o (_hot_mask r).
Proof.
  induction requests as [| [size0 adv0] requests IH];
    intros r i size adv p Hbits Hcursor Hpos Hfit Hi Hp; [discriminate |].
  inversion Hpos as [| ? ? Hs0 Hrest]; subst. cbn in Hs0.
  pose proof (twice_total_nonneg requests Hrest) as Htot.
  cbn [twice_total foldr fst] in Hfit. fold (twice_total requests) in Hfit.
  cbn [allocate_all] in Hp.
  destruct (allocate size0 adv0 r) as [res r1] eqn:E1.
  destruct (allocate_all requests r1) as [ress r2] eqn:E2.
  pose proof (allocate_cursor_mono size0 adv0 r Hcursor Hs0 ltac:(lia)) as Hmono.
  pose proof (allocate_layout size0 adv0 r) as HL.
  pose proof (allocate_reclaimed size0 adv0 r) as HR.
  rewrite E1 in Hmono, HL, HR. cbn in Hmono, HL, HR.
  destruct i as [| i]; cbn in Hi, Hp.
  - inversion Hi; subst size0 adv0. inversion Hp; subst res.
    pose proof (allocate_chunk size adv r p Hbits Hcursor Hs0 ltac:(lia)) as H.
    rewrite E1 in H. cbn in H.
    destruct (H eq_refl) as (o & H1 & H2 & H3 & H4 & H5).
    exists o. repeat split; assumption.
  - destruct HL as (Hd & _ & Hs & _ & _ & _ & Hm & _).
    pose proof (IH r1 i size adv p ltac:(rewrite Hs; assumption)
                  ltac:(lia) Hrest ltac:(lia) Hi) as H.
    rewrite E2 in H. cbn in H.
    destruct (H Hp) as (o & H1 & H2 & H3 & H4).
    exists o. rewrite Hs in H3. rewrite HR in H2. rewrite Hd, Hm in H4.
    repeat split; lia || assumption.
Qed.

(** X3. Between two reclaimed epochs the chunks that [allocate] returns
    never overlap: for a run of calls on an allocator whose window is at
    most [_hot_capacity] (cursor not wrapping), the byte ranges of any two
    calls that return have no byte in common. *)
Theorem allocate_chunks_disjoint (s : Z) (requests : list (Z * bool)) :
  forall (r : region_allocator) (i j : nat) (n m : Z) (a b : bool) (p q : Z),
    laid_out s r ->
    0 <= _allocated_hot_offset r ->
    window r <= _hot_capacity r ->
    Forall (fun q => 0 <= fst q) requests ->
    _allocated_hot_offset r + twice_total requests < 2 ^ 64 ->
    (i < j)%nat ->
    requests !! i = Some (n, a) ->
    requests !! j = Some (m, b) ->
    fst (allocate_all requests r) !! i = Some (Returned p) ->
    fst (allocate_all requests r) !! j = Some (Returned q) ->
    disjoint_ranges p n q m.
Proof.
  induction requests as [| [size0 adv0] requests IH];
    intros r i j n m a b p q Hlay Hcursor Hwin Hpos Hfit Hij Hi Hj Hp Hq;
    [discriminate |].
  inversion Hpos as [| ? ? Hs0 Hrest]; subst. cbn in Hs0.
  pose proof (twice_total_nonneg requests Hrest) as Htot.
  pose proof Hlay as (Hs & Hbits & Hcap & Hmask).
  cbn [twice_total foldr fst] in Hfit. fold (twice_total requests) in Hfit.
  cbn [allocate_all] in Hp, Hq.
  destruct (allocate size0 adv0 r) as [res r1] eqn:E1.
  destruct (allocate_all requests r1) as [ress r2] eqn:E2.
  pose proof (allocate_cursor_mono size0 adv0 r Hcursor Hs0 ltac:(lia)) as Hmono.
  pose proof (allocate_layout size0 adv0 r) as HL.
  pose proof (allocate_reclaimed size0 adv0 r) as HR.
  rewrite E1 in Hmono, HL, HR. cbn in Hmono, HL, HR.
  assert (Hlay1 : laid_out s r1) by (eapply laid_out_layout; eassumption).
  destruct j as [| j]; [lia |]. cbn in Hj, Hq.
  destruct i as [| i]; cbn in Hi, Hp.
  - inversion Hi; subst size0 adv0. inversion Hp; subst res.
    pose proof (allocate_chunk n a r p ltac:(lia) Hcursor Hs0 ltac:(lia)) as H.
    rewrite E1 in H. cbn in H.
    destruct (H eq_refl) as (o1 & Ho1 & Hend1 & _ & Hseg1 & ->).
    pose proof (allocate_all_chunk requests r1 j m b q
                  ltac:(destruct Hlay1 as (? & -> & _); lia) ltac:(lia)
                  Hrest ltac:(lia) Hj) as H'.
    rewrite E2 in H'. cbn in H'.
    destruct (H' Hq) as (o2 & Ho2 & Hend2 & Hseg2 & ->).
    destruct HL as (Hd & _ & Hs1 & _ & _ & _ & Hm & _).
    rewrite Hs1, Hbits in Hseg2. rewrite Hbits in Hseg1.
    rewrite Hd, Hm, Hmask. rewrite HR in Hend2.
    assert (Hpow : 0 < 2 ^ s) by (apply Z.pow_pos_nonneg; lia).
    assert (Hcap4 : 2 ^ (s + 2) = 2 ^ s * 4)
      by (rewrite Z.pow_add_r by lia; reflexivity).
    replace (2 ^ (s + 2) - 1) with (Z.ones (s + 2))
      by (rewrite Z.ones_equiv; lia).
    rewrite !Z.land_ones by lia.
    assert (Hm1 : forall o k, o mod 2 ^ s + k <= 2 ^ s ->
                   o mod 2 ^ (s + 2) + k <= 2 ^ (s + 2)).
    { intros o k Hk. rewrite Hcap4, Z.rem_mul_r by lia.
      pose proof (Z.mod_pos_bound (o / 2 ^ s) 4 ltac:(lia)). nia. }
    unfold window in Hwin. rewrite Hcap in Hwin.
    apply (ring_disjoint (_hot_data r) (2 ^ (s + 2)) o1 n o2 m
             (_reclaimed_offset r)); try lia; auto.
  - apply (IH r1 i j n m a b p q); try assumption; try lia.
    + unfold window in *. destruct HL as (_ & _ & _ & _ & Hc & _).
      rewrite Hc, HR. lia.
    + rewrite E2. exact Hp.
    + rewrite E2. exact Hq.
Qed.

Lemma allocate_chunks_disjoint_witness :
  let r := new_region_allocator 65536 (2 ^ 40) 30 0 in
  laid_out 30 r
  /\ 0 <= _allocated_hot_offset r
  /\ window r <= _hot_capacity r
  /\ Forall (fun q => 0 <= fst q) four_requests
  /\ _allocated_hot_offset r + twice_total four_requests < 2 ^ 64
  /\ fst (allocate_all four_requests r)
     = [Returned 65536; Returned (65536 + 2 ^ 29);
        Returned (65536 + 2 ^ 30 + 48); Returned (65536 + 2 ^ 30 + 112)]
  /\ disjoint_ranges (65536 + 2 ^ 29) (2 ^ 29 - 16) (65536 + 2 ^ 30 + 48) 64.
Proof.
  intros r.
  assert (H1 : laid_out 30 r) by (apply new_region_allocator_laid_out; lia).
  assert (H2 : 0 <= _allocated_hot_offset r) by (cbn; lia).
  assert (H3 : window r <= _hot_capacity r) by (vm_compute; discriminate).
  assert (H4 : Forall (fun q => 0 <= fst q) four_requests).
  { repeat (constructor; [vm_compute; discriminate |]). constructor. }
  assert (H5 : _allocated_hot_offset r + twice_total four_requests < 2 ^ 64)
    by (vm_compute; reflexivity).
  assert (H6 : fst (allocate_all four_requests r)
               = [Returned 65536; Returned (65536 + 2 ^ 29);
                  Returned (65536 + 2 ^ 30 + 48);
                  Returned (65536 + 2 ^ 30 + 112)])
    by (vm_compute; reflexivity).
  repeat (split; [assumption |]).
  apply (allocate_chunks_disjoint 30 four_requests r 1 2
           (2 ^ 29 - 16) 64 true false _ _ H1 H2 H3 H4 H5);
    [lia | reflexivity | reflexivity | rewrite H6; reflexivity
    | rewrite H6; reflexivity].
Defined.


(** ** Failed requests *)

Lemma allocate_cold_bad_alloc_cursor (size : Z) (r : region_allocator) :
  fst (allocate_cold size r) = BadAlloc ->
  _cold_capacity r < _allocated_cold_offset (snd (allocate_cold size r)).
Proof.
  unfold allocate_cold; cbn.
  destruct (Z.ltb_spec (_cold_capacity r)
              (wrap64 (_allocated_cold_offset r + size))); cbn;
    [intros _; assumption | discriminate].
Qed.

Lemma allocate_cold_all_after_failure (sizes : list Z) :
  forall (size : Z) (r : region_allocator),
    fst (allocate_cold size r) = BadAlloc ->
    Forall (fun n => 0 <= n) sizes ->
    _allocated_cold_offset (snd (allocate_cold size r)) + total sizes < 2 ^ 64 ->
    Forall (fun res => res = BadAlloc)
           (fst (allocate_cold_all sizes (snd (allocate_cold size r)))).
Proof.
  induction sizes as [| n sizes IH]; intros size r Hbad Hpos Hfit;
    [constructor |].
  inversion Hpos as [| ? ? Hn Hrest]; subst.
  pose proof (total_nonneg sizes Hrest) as Htot.
  cbn [total foldr] in Hfit. fold (total sizes) in Hfit.
  set (r1 := snd (allocate_cold size r)) in *.
  assert (Hover : _cold_capacity r1 < _allocated_cold_offset r1).
  { unfold r1. revert Hbad. unfold allocate_cold; cbn.
    destruct (Z.ltb_spec (_cold_capacity r)
                (wrap64 (_allocated_cold_offset r + size))); cbn;
      [intros _; assumption | discriminate]. }
  assert (Hbad1 : fst (allocate_cold n r1) = BadAlloc
                  /\ _allocated_cold_offset (snd (allocate_cold n r1))
                     = _allocated_cold_offset r1 + n).
  { unfold allocate_cold; cbn.
    assert (Hw : wrap64 (_allocated_cold_offset r1 + n)
                 = _allocated_cold_offset r1 + n).
    { unfold wrap64. apply Z.mod_small.
      assert (0 <= _allocated_cold_offset r1).
      { unfold r1, allocate_cold; cbn.
        destruct (_ <? _); cbn; unfold wrap64;
          apply Z.mod_pos_bound; lia. }
      lia. }
    rewrite Hw.
    destruct (Z.ltb_spec (_cold_capacity r1) (_allocated_cold_offset r1 + n));
      cbn; [split; reflexivity | lia]. }
  destruct Hbad1 as [Hbad1 Hcur1].
  cbn [allocate_cold_all].
  specialize (IH n r1 Hbad1 Hrest ltac:(rewrite Hcur1; lia)).
  destruct (allocate_cold n r1) as [res r2] eqn:E1. cbn in *.
  destruct (allocate_cold_all sizes r2) as [ress r3] eqn:E2. cbn in *.
  constructor; assumption.
Qed.

(** After a failed request, a request large enough to wrap the 64-bit
    cursor returns: the cursor stands at [2^31 + 100], a request of
    [2^64 - 2^31 - 92] bytes brings it to [8]. *)
Lemma allocate_cold_wrapping_request :
  let r := with_allocated_cold_offset (2 ^ 31 - 100)
             (new_region_allocator 65536 (2 ^ 40) 30 0) in
  fst (allocate_cold 200 r) = BadAlloc
  /\ fst (allocate_cold (2 ^ 64 - 2 ^ 31 - 92) (snd (allocate_cold 200 r)))
     = Returned (2 ^ 40 + 100).
Proof. split; vm_compute; reflexivity. Qed.

(** X4. A failed [allocate_cold] leaves the cursor past the capacity,
    because the addition is not taken back.  Every later request then
    fails as well, also one that the bytes still free would have held, as
    long as the sizes asked for do not wrap the 64-bit cursor (the cursor
    plus their sum is below [2^64]).  A request that wraps the cursor can
    return again: [allocate_cold_wrapping_request]. *)
Theorem allocate_cold_failure_sticks (sizes : list Z) (size : Z)
    (r : region_allocator) :
  fst (allocate_cold size r) = BadAlloc ->
  Forall (fun n => 0 <= n) sizes ->
  _allocated_cold_offset (snd (allocate_cold size r)) + total sizes < 2 ^ 64 ->
  _cold_capacity r < _allocated_cold_offset (snd (allocate_cold size r))
  /\ Forall (fun res => res = BadAlloc)
            (fst (allocate_cold_all sizes (snd (allocate_cold size r)))).
Proof.
  intros Hbad Hpos Hfit. split.
  - apply allocate_cold_bad_alloc_cursor. exact Hbad.
  - apply allocate_cold_all_after_failure; assumption.
Qed.

Lemma allocate_cold_failure_sticks_witness :
  let r := with_allocated_cold_offset (2 ^ 31 - 100)
             (new_region_allocator 65536 (2 ^ 40) 30 0) in
  fst (allocate_cold 200 r) = BadAlloc
  /\ Forall (fun n => 0 <= n) late_cold_requests
  /\ _allocated_cold_offset (snd (allocate_cold 200 r))
     + total late_cold_requests < 2 ^ 64
  /\ _cold_capacity r < _allocated_cold_offset (snd (allocate_cold 200 r))
  /\ Forall (fun res => res = BadAlloc)
            (fst (allocate_cold_all late_cold_requests
                    (snd (allocate_cold 200 r)))).
Proof.
  intros r.
  assert (H1 : fst (allocate_cold 200 r) = BadAlloc) by (vm_compute; reflexivity).
  assert (H2 : Forall (fun n => 0 <= n) late_cold_requests).
  { repeat (constructor; [vm_compute; discriminate |]). constructor. }
  assert (H3 : _allocated_cold_offset (snd (allocate_cold 200 r))
               + total late_cold_requests < 2 ^ 64)
    by (vm_compute; reflexivity).
  destruct (allocate_cold_failure_sticks late_cold_requests 200 r H1 H2 H3)
    as [H4 H5].
  split; [exact H1 |]. split; [exact H2 |]. split; [exact H3 |].
  split; [exact H4 | exact H5].
Defined.

Lemma allocate_bad_alloc_cursor (size : Z) (adv : bool) (r : region_allocator) :
  fst (allocate size adv r) = BadAlloc ->
  _reclaimed_offset r < _allocated_hot_offset (snd (allocate size adv r)).
Proof.
  intros Hbad.
  destruct (allocate_unfold size adv r)
    as [(res & E & Hres) | (r1 & res & E1 & E2 & Hres)].
  - pose proof (allocate_pass_bad_alloc size adv r) as Hb.
    pose proof (allocate_pass_cursor size adv r) as Hc.
    rewrite E in Hb, Hc. cbn in Hb, Hc. rewrite Hc.
    apply Hb. congruence.
  - pose proof (allocate_pass_bad_alloc size adv r1) as Hb.
    pose proof (allocate_pass_cursor size adv r1) as Hc.
    pose proof (allocate_pass_reclaimed size adv r) as Hr.
    rewrite E2 in Hb, Hc. rewrite E1 in Hr. cbn in Hb, Hc, Hr.
    rewrite Hc, <- Hr. apply Hb. congruence.
Qed.

Lemma allocate_over_the_bound (size : Z) (adv : bool) (r : region_allocator) :
  0 <= _reclaimed_offset r < _allocated_hot_offset r ->
  0 <= size -> _allocated_hot_offset r + size < 2 ^ 64 ->
  allocate size adv r
  = (BadAlloc, with_allocated_hot_offset (_allocated_hot_offset r + size) r).
Proof.
  intros Hover Hsize Hfit.
  unfold allocate; cbn [allocate_loop]. unfold allocate_pass.
  assert (Hw : wrap64 (_allocated_hot_offset r + size)
               = _allocated_hot_offset r + size)
    by (unfold wrap64; apply Z.mod_small; lia).
  rewrite Hw. cbn.
  destruct (Z.ltb_spec (_reclaimed_offset r) (_allocated_hot_offset r + size));
    [reflexivity | lia].
Qed.

Lemma allocate_all_after_failure (requests : list (Z * bool)) :
  forall (size : Z) (adv : bool) (r : region_allocator),
    0 <= _reclaimed_offset r ->
    fst (allocate size adv r) = BadAlloc ->
    Forall (fun q => 0 <= fst q) requests ->
    _allocated_hot_offset (snd (allocate size adv r))
    + twice_total requests < 2 ^ 64 ->
    Forall (fun res => res = BadAlloc)
           (fst (allocate_all requests (snd (allocate size adv r)))).
Proof.
  intros size adv r Hrec Hbad Hpos Hfit.
  pose proof (allocate_bad_alloc_cursor size adv r Hbad) as Hover.
  rewrite <- (allocate_reclaimed size adv r) in Hover, Hrec.
  revert Hover Hrec Hfit.
  generalize (snd (allocate size adv r)). clear Hbad.
  induction Hpos as [| [n b] requests Hn Hrest IH]; intros r1 Hover Hrec Hfit;
    [constructor |].
  cbn in Hn.
  pose proof (twice_total_nonneg requests Hrest) as Htot.
  cbn [twice_total foldr fst] in Hfit. fold (twice_total requests) in Hfit.
  cbn [allocate_all].
  rewrite (allocate_over_the_bound n b r1) by lia.
  specialize (IH (with_allocated_hot_offset (_allocated_hot_offset r1 + n) r1)).
  cbn in IH.
  destruct (allocate_all requests
              (with_allocated_hot_offset (_allocated_hot_offset r1 + n) r1))
    as [ress r2] eqn:E2.
  constructor; [reflexivity |].
  apply IH; lia.
Qed.

(** After a failed request, a request large enough to wrap the 64-bit
    cursor returns: the cursor stands at [2^32 + 1], a request of
    [2^64 - 4] bytes brings it to [2^32 - 3], asks for a collection, and
    its second pass returns. *)
Lemma allocate_wrapping_request_after_failure :
  let r := new_region_allocator 65536 (2 ^ 40) 30 0 in
  fst (allocate (2 ^ 32 + 1) false r) = BadAlloc
  /\ fst (allocate (2 ^ 64 - 4) false (snd (allocate (2 ^ 32 + 1) false r)))
     = Returned (65536 + 2 ^ 32 - 3).
Proof. split; vm_compute; reflexivity. Qed.

(** X5. An [allocate] that threw [std::bad_alloc] leaves the cursor past
    [_reclaimed_offset] and the bound where it was.  Every further
    [allocate] made before the bound is moved throws [std::bad_alloc] too,
    as long as the sizes asked for do not wrap the 64-bit cursor (the
    cursor plus twice their sum is below [2^64]).  A request that wraps
    the cursor can return again:
    [allocate_wrapping_request_after_failure]. *)
Theorem allocate_failure_sticks (requests : list (Z * bool)) (size : Z)
    (adv : bool) (r : region_allocator) :
  0 <= _reclaimed_offset r ->
  fst (allocate size adv r) = BadAlloc ->
  Forall (fun q => 0 <= fst q) requests ->
  _allocated_hot_offset (snd (allocate size adv r))
  + twice_total requests < 2 ^ 64 ->
  _reclaimed_offset r < _allocated_hot_offset (snd (allocate size adv r))
  /\ _reclaimed_offset (snd (allocate size adv r)) = _reclaimed_offset r
  /\ Forall (fun res => res = BadAlloc)
            (fst (allocate_all requests (snd (allocate size adv r)))).
Proof.
  intros Hrec Hbad Hpos Hfit. split.
  - apply allocate_bad_alloc_cursor. exact Hbad.
  - split; [apply allocate_reclaimed |].
    apply allocate_all_after_failure; assumption.
Qed.

Lemma allocate_failure_sticks_witness :
  let r := new_region_allocator 65536 (2 ^ 40) 30 0 in
  0 <= _reclaimed_offset r
  /\ fst (allocate (2 ^ 32 + 1) false r) = BadAlloc
  /\ Forall (fun q => 0 <= fst q) late_requests
  /\ _allocated_hot_offset (snd (allocate (2 ^ 32 + 1) false r))
     + twice_total late_requests < 2 ^ 64
  /\ _reclaimed_offset r
     < _allocated_hot_offset (snd (allocate (2 ^ 32 + 1) false r))
  /\ _reclaimed_offset (snd (allocate (2 ^ 32 + 1) false r))
     = _reclaimed_offset r
  /\ Forall (fun res => res = BadAlloc)
            (fst (allocate_all late_requests
                    (snd (allocate (2 ^ 32 + 1) false r)))).
Proof.
  intros r.
  assert (H0 : 0 <= _reclaimed_offset r) by (vm_compute; discriminate).
  assert (H1 : fst (allocate (2 ^ 32 + 1) false r) = BadAlloc)
    by (vm_compute; reflexivity).
  assert (H2 : Forall (fun q => 0 <= fst q) late_requests).
  { repeat (constructor; [vm_compute; discriminate |]). constructor. }
  assert (H3 : _allocated_hot_offset (snd (allocate (2 ^ 32 + 1) false r))
               + twice_total late_requests < 2 ^ 64)
    by (vm_compute; reflexivity).
  destruct (allocate_failure_sticks late_requests (2 ^ 32 + 1) false r
              H0 H1 H2 H3) as (H4 & H5 & H6).
  split; [exact H0 |]. split; [exact H1 |]. split; [exact H2 |].
  split; [exact H3 |]. split; [exact H4 |]. split; [exact H5 | exact H6].
Defined.

(** ** The bytes counted towards the next epoch *)

Lemma wrap64_cancel (x : Z) : wrap64 (wrap64 x + wrap64 (- wrap64 x)) = 0.
Proof.
  unfold wrap64.
  pose proof (Z.mod_pos_bound x (2 ^ 64) ltac:(lia)) as Hb.
  generalize dependent (x mod 2 ^ 64). intros y Hb.
  destruct (Z.eq_dec y 0) as [-> | Hne]; [reflexivity |].
  replace ((- y) mod 2 ^ 64) with (2 ^ 64 - y).
  - replace (y + (2 ^ 64 - y)) with (2 ^ 64) by lia. reflexivity.
  - apply Z.mod_unique with (q := -1); lia.
Qed.

(** X6. When the epoch manager agrees to a new epoch each time it is
    asked, a call of [allocate] that returns leaves [_allocated] below
    [TRIM_MARK]: at the mark or above it the counter is set back to [0]. *)
Theorem allocate_trim_mark (size : Z) (r : region_allocator) (p : Z) :
  fst (allocate size true r) = Returned p ->
  0 <= _allocated (snd (allocate size true r)) < RAconst.TRIM_MARK.
Proof.
  intros Hp.
  assert (Hpass : forall r0 r',
             allocate_pass size true r0 = (Finished (Returned p), r') ->
             0 <= _allocated r' < RAconst.TRIM_MARK).
  { intros r0 r'. unfold allocate_pass.
    destruct (_ <? _); [discriminate |].
    destruct (negb (_ =? _)).
    { destruct (negb (_ =? _)); discriminate. }
    cbn.
    destruct (Z.leb_spec RAconst.TRIM_MARK (wrap64 (_allocated r0 + size)))
      as [Hge | Hlt]; intros E; inversion E; subst; cbn.
    - rewrite wrap64_cancel. unfold RAconst.TRIM_MARK. lia.
    - split; [| assumption].
      unfold wrap64. apply Z.mod_pos_bound. lia. }
  destruct (allocate_unfold size true r)
    as [(res & E & Hres) | (r1 & res & E1 & E2 & Hres)];
    rewrite Hp in Hres; subst res; eapply Hpass; eassumption.
Qed.

Lemma allocate_trim_mark_witness :
  let r := with_allocated (RAconst.TRIM_MARK - 8)
             (new_region_allocator 65536 (2 ^ 40) 30 0) in
  fst (allocate 64 true r) = Returned 65536
  /\ _allocated (snd (allocate 64 true r)) = 0
  /\ 0 <= _allocated (snd (allocate 64 true r)) < RAconst.TRIM_MARK.
Proof.
  intros r.
  assert (H1 : fst (allocate 64 true r) = Returned 65536)
    by (vm_compute; reflexivity).
  split; [exact H1 |]. split; [vm_compute; reflexivity |].
  exact (allocate_trim_mark 64 r 65536 H1).
Defined.

(** ** The collection cycle *)

Lemma allocate_pass_state (size : Z) (adv : bool) (r : region_allocator) :
  (state (snd (allocate_pass size adv r)) = state r
   /\ fst (allocate_pass size adv r) <> Retry)
  \/ (state r = RA_NORMAL
      /\ state (snd (allocate_pass size adv r)) = RA_GC_REQUESTED
      /\ fst (allocate_pass size adv r) = Retry).
Proof.
  unfold allocate_pass, state; cbn.
  destruct (_ <? _); cbn; [left; split; [reflexivity | discriminate] |].
  destruct (negb (_ =? _)); cbn.
  - destruct (Z.eqb_spec (_state r) RA_NORMAL) as [Hst | Hst]; cbn.
    + right. repeat split; assumption || reflexivity.
    + left. split; [reflexivity | discriminate].
  - left. split; [| discriminate]. case_ifs; reflexivity.
Qed.

Lemma allocate_gc_arc (size : Z) (adv : bool) (r : region_allocator) :
  gc_arc r (snd (allocate size adv r)).
Proof.
  unfold gc_arc. rewrite allocate_reclaimed.
  destruct (allocate_unfold size adv r)
    as [(res & E & _) | (r1 & res & E1 & E2 & _)].
  - destruct (allocate_pass_state size adv r) as [[H _] | (_ & _ & H)];
      rewrite E in H; cbn in H; [left; auto | discriminate].
  - destruct (allocate_pass_state size adv r) as [[_ H] | (H1 & H2 & _)];
      rewrite E1 in *; cbn in *; [congruence |].
    destruct (allocate_pass_state size adv r1) as [[H _] | (_ & _ & H)];
      rewrite E2 in H; cbn in H; [| discriminate].
    right. left. repeat split; congruence.
Qed.

Lemma allocate_cold_unchanged (size : Z) (r : region_allocator) :
  same_layout r (snd (allocate_cold size r))
  /\ state (snd (allocate_cold size r)) = state r
  /\ _reclaimed_offset (snd (allocate_cold size r)) = _reclaimed_offset r
  /\ _allocated_hot_offset (snd (allocate_cold size r))
     = _allocated_hot_offset r.
Proof.
  unfold allocate_cold, same_layout, state; cbn.
  destruct (_ <? _); cbn; tauto.
Qed.

Lemma daemon_finish_inv (r r' : region_allocator) :
  RA.reclaim_daemon_finish r = Ok r' ->
  state r = RA_GC_IN_PROG /\ r' = set_state RA_GC_FINISHED r.
Proof.
  unfold RA.reclaim_daemon_finish.
  destruct (Z.eqb_spec (state r) RA_GC_IN_PROG); [| discriminate].
  intros E; inversion E. split; [assumption | reflexivity].
Qed.

Lemma reclaim_one_gc_arc (r r' : region_allocator) :
  RA.reclaim_one r = Ok r' -> gc_arc r r' /\ same_layout r r'.
Proof.
  unfold RA.reclaim_one, gc_arc, same_layout.
  destruct (Z.eqb_spec (state r) RA_GC_REQUESTED) as [Hreq | Hreq].
  { intros E; inversion E; subst; cbn. split; [| tauto].
    right. right. left. repeat split; assumption || reflexivity. }
  destruct (Z.eqb_spec (state r) RA_GC_FINISHED) as [Hfin | Hfin].
  - destruct (int_one_shl (_segment_bits r)) as [d | ] eqn:Ed; [| discriminate].
    intros E; inversion E; subst; cbn. split; [| tauto].
    do 4 right. split; [assumption |]. split; [reflexivity |].
    exists d. split; reflexivity.
  - intros E; inversion E; subst. split; [left |]; tauto.
Qed.

(** X7. Every step of a history moves the collection state of every
    allocator along the cycle normal, requested, in progress, finished,
    normal, by one arc or not at all, and [_reclaimed_offset] changes only
    on the arc from finished to normal, by [1 << _segment_bits]. *)
Theorem exec_gc_arcs (INVALID_LSN : LSN) (ev : RA.event) (g g' : RA.globals) :
  RA.exec INVALID_LSN ev g = Ok g' ->
  Forall2 gc_arc (RA.ra g) (RA.ra g').
Proof.
  apply exec_related.
  - intros r. left. split; reflexivity.
  - apply allocate_gc_arc.
  - intros size r. left.
    destruct (allocate_cold_unchanged size r) as (_ & H1 & H2 & _). auto.
  - intros r r' E. apply daemon_finish_inv in E as [Hst ->].
    right. right. right. left. repeat split; assumption || reflexivity.
  - intros r r' E. apply reclaim_one_gc_arc. exact E.
Qed.

Lemma exec_gc_arcs_witness :
  exists g',
    RA.exec 0 (RA.EvEpochReclaimed (Some 9)) two_sockets_one_requested = Ok g'
    /\ Forall2 gc_arc (RA.ra two_sockets_one_requested) (RA.ra g').
Proof.
  destruct (RA.exec 0 (RA.EvEpochReclaimed (Some 9)) two_sockets_one_requested)
    as [g' | f] eqn:E.
  - exists g'. split; [reflexivity |].
    exact (exec_gc_arcs 0 _ _ g' E).
  - vm_compute in E. discriminate E.
Defined.

(** X8. A history never changes the number of sockets, and never changes
    what the constructor put into an allocator's addresses, segment bits,
    capacities and masks. *)
Theorem run_keeps_layout (INVALID_LSN : LSN) (evs : list RA.event)
    (g g' : RA.globals) :
  RA.run INVALID_LSN evs g = Ok g' ->
  RA.ra_nsock g' = RA.ra_nsock g
  /\ Forall2 same_layout (RA.ra g) (RA.ra g').
Proof.
  intros E.
  assert (H : Forall2 same_layout (RA.ra g) (RA.ra g')).
  { revert E. apply run_related.
    - apply same_layout_refl.
    - apply allocate_layout.
    - intros size r. apply allocate_cold_unchanged.
    - intros r r' Ed. apply daemon_finish_inv in Ed as [_ ->].
      unfold same_layout; cbn. tauto.
    - intros r r' Er. apply reclaim_one_gc_arc. exact Er.
    - apply same_layout_trans. }
  split; [| exact H].
  unfold RA.ra_nsock. symmetry. eapply Forall2_length. exact H.
Qed.

Lemma run_keeps_layout_witness :
  exists g,
    RA.run 0 one_cycle one_socket = Ok g
    /\ RA.ra_nsock g = RA.ra_nsock one_socket
    /\ Forall2 same_layout (RA.ra one_socket) (RA.ra g).
Proof.
  destruct (RA.run 0 one_cycle one_socket) as [g | f] eqn:E.
  - exists g. split; [reflexivity |].
    exact (run_keeps_layout 0 one_cycle one_socket g E).
  - vm_compute in E. discriminate E.
Defined.

Lemma fresh_aligned (r : region_allocator) : fresh r -> aligned r.
Proof.
  intros (hb & cb & s & skt & Hs & ->).
  pose proof (new_region_allocator_laid_out hb cb s skt ltac:(lia)) as Hlay.
  unfold aligned.
  change (_segment_bits (new_region_allocator hb cb s skt)) with s.
  split; [lia |]. split; [exact Hlay |].
  destruct Hlay as (_ & _ & Hcap & _).
  change (_reclaimed_offset (new_region_allocator hb cb s skt))
    with (_hot_capacity (new_region_allocator hb cb s skt)).
  rewrite Hcap.
  assert (Hpow : 0 < 2 ^ s) by (apply Z.pow_pos_nonneg; lia).
  rewrite Z.pow_add_r by lia. change (2 ^ 2) with 4.
  split; [lia |].
  rewrite Z.mul_comm. apply Z.mod_mul. lia.
Qed.

Lemma aligned_transfer (r r' : region_allocator) :
  same_layout r r' -> _reclaimed_offset r' = _reclaimed_offset r ->
  aligned r -> aligned r'.
Proof.
  intros HL HR (Hs & Hlay & Hr & Hmod).
  pose proof HL as (_ & _ & Hbits & _).
  unfold aligned. rewrite Hbits, HR.
  split; [lia |]. split; [apply (laid_out_layout _ r r' HL Hlay) |].
  split; assumption.
Qed.

Lemma reclaim_one_aligned (r r' : region_allocator) :
  aligned r -> _reclaimed_offset r + 2 ^ _segment_bits r < 2 ^ 64 ->
  RA.reclaim_one r = Ok r' -> aligned r'.
Proof.
  intros Hal Hfit E.
  destruct (reclaim_one_gc_arc r r' E) as [Harc HL].
  pose proof Hal as (Hs & Hlay & Hr & Hmod).
  destruct Harc as [[_ HR] | [(_ & _ & HR) | [(_ & _ & HR)
                   | [(_ & _ & HR) | (_ & _ & d & Hd & HR)]]]];
    try (eapply aligned_transfer; eassumption).
  unfold int_one_shl in Hd.
  destruct (Z.ltb_spec (_segment_bits r) 31); [| lia].
  inversion Hd; subst d.
  assert (Hpow : 0 < 2 ^ _segment_bits r) by (apply Z.pow_pos_nonneg; lia).
  assert (Hw : wrap64 (_reclaimed_offset r + 2 ^ _segment_bits r)
               = _reclaimed_offset r + 2 ^ _segment_bits r)
    by (unfold wrap64; apply Z.mod_small; lia).
  rewrite Hw in HR.
  pose proof HL as (_ & _ & Hbits & _).
  unfold aligned. rewrite Hbits, HR.
  split; [lia |]. split; [apply (laid_out_layout _ r r' HL Hlay) |].
  split; [lia |].
  rewrite <- (Z.mul_1_l (2 ^ _segment_bits r)) at 1.
  rewrite Z.mod_add by lia. exact Hmod.
Qed.

Lemma aligned_segment (r : region_allocator) :
  aligned r ->
  exists k,
    0 <= k < 4
    /\ RA.reclaim_daemon_segment r
       = Ok (k * 2 ^ _segment_bits r, (k + 1) * 2 ^ _segment_bits r).
Proof.
  intros (Hs & (_ & _ & Hcap & Hmask) & Hr & Hmod).
  set (s := _segment_bits r) in *.
  assert (Hpow : 0 < 2 ^ s) by (apply Z.pow_pos_nonneg; lia).
  assert (H30 : 2 ^ s <= 2 ^ 30) by (apply Z.pow_le_mono_r; lia).
  pose proof (Z.mod_pos_bound (_reclaimed_offset r / 2 ^ s) 4 ltac:(lia)) as Hk.
  set (k := (_reclaimed_offset r / 2 ^ s) mod 4) in *.
  exists k. split; [lia |].
  unfold RA.reclaim_daemon_segment, int_one_shl. fold s.
  destruct (Z.ltb_spec s 31); [| lia].
  rewrite Hmask, ring_offset by lia. fold k. rewrite Hmod, Z.add_0_r.
  assert (Hones : wrap64 (2 ^ s - 1) = Z.ones s).
  { rewrite Z.ones_equiv. unfold wrap64. rewrite Z.mod_small; lia. }
  assert (Hend : wrap64 (2 ^ s * k + 2 ^ s) = 2 ^ s * (k + 1)).
  { unfold wrap64. rewrite Z.mod_small; nia. }
  rewrite Hones, Hend, !Z.land_ones by lia.
  rewrite (Z.mul_comm (2 ^ s) k), (Z.mul_comm (2 ^ s) (k + 1)).
  rewrite !Z.mod_mul by lia. cbn. reflexivity.
Qed.

(** X9. At the end of every history that starts from new allocators and
    keeps the counters in range, [_reclaimed_offset] is a whole number of
    segments, so both [ASSERT]s at the start of a daemon round hold and
    the range the daemon drains is exactly one of the four segments of the
    hot region. *)
Theorem daemon_drains_a_whole_segment (INVALID_LSN : LSN)
    (evs : list RA.event) (g0 g : RA.globals) :
  Forall fresh (RA.ra g0) ->
  RA.run INVALID_LSN evs g0 = Ok g ->
  RA.every_step INVALID_LSN RA.in_range evs g0 = true ->
  Forall (fun r =>
            exists k,
              0 <= k < 4
              /\ RA.reclaim_daemon_segment r
                 = Ok (k * 2 ^ _segment_bits r, (k + 1) * 2 ^ _segment_bits r))
         (RA.ra g).
Proof.
  intros Hfresh Hrun Hfit.
  assert (H : Forall aligned (RA.ra g)).
  { apply (run_kept INVALID_LSN aligned) with (evs := evs) (g := g0);
      try assumption.
    - intros size adv r. apply aligned_transfer;
        [apply allocate_layout | apply allocate_reclaimed].
    - intros size r. destruct (allocate_cold_unchanged size r) as (H1 & _ & H2 & _).
      apply aligned_transfer; assumption.
    - intros r r' Hal Ed. apply daemon_finish_inv in Ed as [_ ->].
      revert Hal. apply aligned_transfer; [| reflexivity].
      unfold same_layout; cbn. tauto.
    - apply reclaim_one_aligned.
    - eapply Forall_impl; [exact Hfresh | apply fresh_aligned]. }
  eapply Forall_impl; [exact H | apply aligned_segment].
Qed.

Lemma daemon_drains_a_whole_segment_witness :
  Forall fresh (RA.ra one_socket)
  /\ RA.every_step 0 RA.in_range one_cycle one_socket = true
  /\ exists g,
      RA.run 0 one_cycle one_socket = Ok g
      /\ Forall (fun r =>
                   exists k,
                     0 <= k < 4
                     /\ RA.reclaim_daemon_segment r
                        = Ok (k * 2 ^ _segment_bits r,
                              (k + 1) * 2 ^ _segment_bits r))
                (RA.ra g).
Proof.
  assert (Hfresh : Forall fresh (RA.ra one_socket)).
  { constructor; [| constructor].
    exists 65536, (2 ^ 40), 30, 0. split; [lia | reflexivity]. }
  assert (Hfit : RA.every_step 0 RA.in_range one_cycle one_socket = true)
    by (vm_compute; reflexivity).
  split; [exact Hfresh |]. split; [exact Hfit |].
  destruct (RA.run 0 one_cycle one_socket) as [g | f] eqn:Hrun.
  - exists g. split; [reflexivity |].
    exact (daemon_drains_a_whole_segment 0 one_cycle one_socket g
             Hfresh Hrun Hfit).
  - vm_compute in Hrun. discriminate Hrun.
Defined.


(** ** Threads and their allocators *)

(** X10. On a machine with sockets, the thread that draws ticket [n]
    from [ra_nthreads] is bound to socket [n mod ra_nsock], an index inside
    the allocator array, and the counter goes up by one; a thread that is
    bound already keeps its socket and draws no ticket. *)
Theorem register_thread_round_robin (g : RA.globals) (n : Z) :
  (0 < RA.ra_nsock g)%nat ->
  0 <= n < 2 ^ 31 - 1 ->
  let snum := n mod Z.of_nat (RA.ra_nsock g) in
  RA.register_thread g n None = Done (n + 1, Some snum)
  /\ 0 <= snum < Z.of_nat (RA.ra_nsock g)
  /\ RA.register_thread g (n + 1) (Some snum) = Done (n + 1, Some snum).
Proof.
  intros Hsock Hn snum.
  assert (Hmod : 0 <= snum < Z.of_nat (RA.ra_nsock g))
    by (apply Z.mod_pos_bound; lia).
  split; [| split; [exact Hmod | reflexivity]].
  unfold RA.register_thread.
  destruct (Nat.eqb_spec (RA.ra_nsock g) 0) as [H0 | _]; [lia |].
  rewrite Z.rem_mod_nonneg by lia.
  unfold wrap_int. rewrite Z.mod_small by lia.
  fold snum. do 2 f_equal. lia.
Qed.

Lemma register_thread_round_robin_witness :
  (0 < RA.ra_nsock four_sockets)%nat
  /\ 0 <= 6 < 2 ^ 31 - 1
  /\ RA.register_thread four_sockets 6 None = Done (7, Some 2).
Proof.
  assert (H1 : (0 < RA.ra_nsock four_sockets)%nat) by (vm_compute; lia).
  assert (H2 : 0 <= 6 < 2 ^ 31 - 1) by lia.
  split; [exact H1 |]. split; [exact H2 |].
  exact (proj1 (register_thread_round_robin four_sockets 6 H1 H2)).
Defined.

Lemma my_ra_in_bounds (g : RA.globals) (i : Z) (cpu : Z) :
  0 <= i < Z.of_nat (RA.ra_nsock g) ->
  RA.my_ra g (Some i) cpu = Done (Z.to_nat i)
  /\ exists r, RA.ra g !! Z.to_nat i = Some r.
Proof.
  intros Hi. unfold RA.my_ra.
  destruct (Z.leb_spec 0 i); [| lia].
  destruct (Z.ltb_spec i (Z.of_nat (RA.ra_nsock g))); [| lia].
  split; [reflexivity |].
  apply lookup_lt_is_Some. unfold RA.ra_nsock in Hi. lia.
Qed.

(** X11. A thread bound by [register_thread] allocates from the
    allocator of its socket, never from outside the array, whatever
    [sched_getcpu] says: while [system_loading] is set [RA::allocate] is
    [allocate_cold] on that allocator, afterwards it is [allocate] on it,
    and no other socket's allocator changes. *)
Theorem allocate_on_own_socket (g : RA.globals) (n cpu size : Z)
    (adv : bool) :
  (0 < RA.ra_nsock g)%nat ->
  0 <= n < 2 ^ 31 - 1 ->
  let snum := Z.to_nat (n mod Z.of_nat (RA.ra_nsock g)) in
  exists tls_ra myra,
    RA.register_thread g n None = Done (n + 1, tls_ra)
    /\ RA.ra g !! snum = Some myra
    /\ RA.allocate tls_ra cpu size adv g
       = (if RA.system_loading g
          then Done (fst (allocate_cold size myra),
                     RA.update_ra snum (snd (allocate_cold size myra)) g)
          else Done (fst (allocate size adv myra),
                     RA.update_ra snum (snd (allocate size adv myra)) g))
    /\ RA.allocate_cold tls_ra cpu size g
       = Done (fst (allocate_cold size myra),
               RA.update_ra snum (snd (allocate_cold size myra)) g)
    /\ forall j r res g',
         RA.allocate tls_ra cpu size adv g = Done (res, g') ->
         j <> snum -> RA.ra g !! j = Some r -> RA.ra g' !! j = Some r.
Proof.
  intros Hsock Hn snum.
  destruct (register_thread_round_robin g n Hsock Hn) as (Hreg & Hb & _).
  destruct (my_ra_in_bounds g _ cpu Hb) as [Hmy [myra Hra]].
  fold snum in Hmy, Hra.
  assert (Halloc : RA.allocate (Some (n mod Z.of_nat (RA.ra_nsock g)))
                     cpu size adv g
                   = (if RA.system_loading g
                      then Done (fst (allocate_cold size myra),
                                 RA.update_ra snum
                                   (snd (allocate_cold size myra)) g)
                      else Done (fst (allocate size adv myra),
                                 RA.update_ra snum
                                   (snd (allocate size adv myra)) g))).
  { unfold RA.allocate. rewrite Hmy, Hra.
    destruct (RA.system_loading g); cbn.
    - destruct (allocate_cold size myra); reflexivity.
    - destruct (allocate size adv myra); reflexivity. }
  exists (Some (n mod Z.of_nat (RA.ra_nsock g))), myra.
  split; [exact Hreg |]. split; [exact Hra |]. split; [exact Halloc |].
  split.
  - unfold RA.allocate_cold. rewrite Hmy, Hra.
    destruct (allocate_cold size myra); reflexivity.
  - intros j r res g' E Hj Hr. rewrite Halloc in E.
    destruct (RA.system_loading g); inversion E; subst; cbn;
      rewrite list_lookup_insert_ne by congruence; exact Hr.
Qed.

Lemma allocate_on_own_socket_witness :
  (0 < RA.ra_nsock four_sockets)%nat
  /\ 0 <= 6 < 2 ^ 31 - 1
  /\ exists tls_ra myra,
      RA.register_thread four_sockets 6 None = Done (7, tls_ra)
      /\ RA.ra four_sockets !! 2%nat = Some myra
      /\ RA.allocate tls_ra (-1) 64 false four_sockets
         = Done (fst (allocate_cold 64 myra),
                 RA.update_ra 2 (snd (allocate_cold 64 myra)) four_sockets).
Proof.
  assert (H1 : (0 < RA.ra_nsock four_sockets)%nat) by (vm_compute; lia).
  assert (H2 : 0 <= 6 < 2 ^ 31 - 1) by lia.
  split; [exact H1 |]. split; [exact H2 |].
  destruct (allocate_on_own_socket four_sockets 6 (-1) 64 false H1 H2)
    as (tls_ra & myra & Hreg & Hra & Halloc & _).
  exists tls_ra, myra.
  split; [exact Hreg |]. split; [exact Hra |]. exact Halloc.
Defined.

(** A thread that never registered is served by the allocator numbered
    [sched_getcpu() % ra_nsock]. *)
Lemma my_ra_unregistered (g : RA.globals) (cpu : Z) :
  (0 < RA.ra_nsock g)%nat -> 0 <= cpu ->
  RA.my_ra g None cpu = Done (Z.to_nat (cpu mod Z.of_nat (RA.ra_nsock g))).
Proof.
  intros Hsock Hcpu. unfold RA.my_ra.
  destruct (Nat.eqb_spec (RA.ra_nsock g) 0) as [H0 | _]; [lia |].
  rewrite Z.rem_mod_nonneg by lia.
  pose proof (Z.mod_pos_bound cpu (Z.of_nat (RA.ra_nsock g)) ltac:(lia)).
  destruct (Z.leb_spec 0 (cpu mod Z.of_nat (RA.ra_nsock g))); [| lia].
  destruct (Z.ltb_spec (cpu mod Z.of_nat (RA.ra_nsock g))
              (Z.of_nat (RA.ra_nsock g))); [| lia].
  reflexivity.
Qed.

(** X12. [RA::init] on a machine with at least one node builds one
    allocator per node, numbered by socket, each as the constructor leaves
    it for the shipped segment size, sets [trim_lsn] to [INVALID_LSN] and
    [system_loading]; calling it again changes nothing. *)
Theorem init_builds_the_array (INVALID_LSN : LSN) (regions regions' : list (Z * Z)) :
  regions <> [] ->
  let g := RA.init INVALID_LSN regions RA.at_startup in
  RA.ra_nsock g = length regions
  /\ (forall i hot cold,
        regions !! i = Some (hot, cold) ->
        RA.ra g !! i
        = Some (new_region_allocator hot cold RAconst.MEM_SEGMENT_BITS
                  (Z.of_nat i)))
  /\ Forall fresh (RA.ra g)
  /\ RA.trim_lsn g = INVALID_LSN
  /\ RA.system_loading g = true
  /\ RA.init INVALID_LSN regions' g = g.
Proof.
  intros Hne g.
  assert (Hlen : RA.ra_nsock g = length regions).
  { unfold g, RA.init, RA.ra_nsock; cbn. apply length_imap. }
  split; [exact Hlen |].
  split.
  { intros i hot cold Hi. unfold g, RA.init; cbn.
    rewrite list_lookup_imap, Hi. reflexivity. }
  split.
  { apply Forall_lookup. intros i r Hi.
    unfold g, RA.init in Hi; cbn in Hi.
    rewrite list_lookup_imap in Hi.
    destruct (regions !! i) as [[hot cold] | ]; [| discriminate].
    inversion Hi; subst.
    exists hot, cold, RAconst.MEM_SEGMENT_BITS, (Z.of_nat i).
    split; [unfold RAconst.MEM_SEGMENT_BITS; lia | reflexivity]. }
  split; [reflexivity |]. split; [reflexivity |].
  unfold RA.init at 1. rewrite Hlen.
  destruct regions; [contradiction | reflexivity].
Qed.

Lemma init_builds_the_array_witness :
  [(65536, 2 ^ 40)] <> []
  /\ RA.ra_nsock one_socket = 1%nat
  /\ RA.init 0 [(1, 2); (3, 4)] one_socket = one_socket.
Proof.
  assert (H : [(65536, 2 ^ 40)] <> ([] : list (Z * Z))) by discriminate.
  split; [exact H |].
  destruct (init_builds_the_array 0 [(65536, 2 ^ 40)] [(1, 2); (3, 4)] H)
    as (Hlen & _ & _ & _ & _ & Hagain).
  split; [exact Hlen | exact Hagain].
Defined.


(** ** Readers of a tuple *)

Lemma lor_pow2_testbit (b i n : Z) :
  0 <= i -> 0 <= n ->
  Z.testbit (Z.lor b (2 ^ i)) n = Z.testbit b n || (i =? n).
Proof.
  intros Hi Hn. rewrite Z.lor_spec, testbit_pow2 by assumption. reflexivity.
Qed.

(** One registration: the thread's bit is on afterwards, the others are as
    before, the call returns [true] and its [ASSERT] holds. *)
Lemma register_once (i : Z) (t : TXN.dbtuple) :
  0 <= i ->
  exists t',
    TXN.serial_register_reader_tx (2 ^ i) t = Ok (true, t')
    /\ forall k, 0 <= k ->
         Z.testbit (TXN.rl_bitmap t') k
         = if i =? k then true else Z.testbit (TXN.rl_bitmap t) k.
Proof.
  intros Hi. unfold TXN.serial_register_reader_tx.
  rewrite land_pow2_eqb by assumption.
  destruct (Z.testbit (TXN.rl_bitmap t) i) eqn:Hbit; cbn.
  - exists t. split; [reflexivity |].
    intros k Hk. destruct (Z.eqb_spec i k); [congruence | reflexivity].
  - rewrite land_pow2_eqb, lor_pow2_testbit, Z.eqb_refl, orb_true_r
      by assumption.
    cbn. eexists. split; [reflexivity |]. cbn.
    intros k Hk. rewrite lor_pow2_testbit by assumption.
    destruct (i =? k); [apply orb_true_r | apply orb_false_r].
Qed.

Lemma reader_step_bits (ev : TXN.reader_event) (t : TXN.dbtuple) :
  0 <= event_slot ev ->
  exists t',
    TXN.reader_step ev t = Ok t'
    /\ forall k, 0 <= k ->
         Z.testbit (TXN.rl_bitmap t') k
         = bit_after [ev] k (Z.testbit (TXN.rl_bitmap t) k).
Proof.
  destruct ev as [i | i]; cbn; intros Hi.
  - destruct (register_once i t Hi) as (t' & E & Hbits).
    rewrite E. cbn. exists t'. split; [reflexivity | exact Hbits].
  - destruct (deregister_once i Hi t) as (t' & E & Hoff & Hsame).
    exists t'. split; [exact E |].
    intros k Hk. destruct (Z.eqb_spec i k) as [<- | Hne];
      [exact Hoff | apply Hsame; congruence || assumption].
Qed.

(** X13. Whatever the order in which threads register and deregister as
    readers of a tuple, every call returns with its [ASSERT]s holding, and
    afterwards each bit of [rl_bitmap] is what the last call of its owner
    made it: on after a registration, off after a deregistration, untouched
    if the owner made no call.  So registering twice is registering once, a
    deregistration undoes any number of registrations, and the calls of one
    thread never disturb the bit of another. *)
Theorem reader_history (evs : list TXN.reader_event) :
  forall t : TXN.dbtuple,
    Forall (fun ev => 0 <= event_slot ev) evs ->
    exists t',
      TXN.reader_run evs t = Ok t'
      /\ forall k, 0 <= k ->
           Z.testbit (TXN.rl_bitmap t') k
           = bit_after evs k (Z.testbit (TXN.rl_bitmap t) k).
Proof.
  induction evs as [| ev evs IH]; intros t Hpos.
  - exists t. split; reflexivity.
  - inversion Hpos as [| ? ? Hev Hrest]; subst.
    destruct (reader_step_bits ev t Hev) as (t1 & E1 & Hbits1).
    destruct (IH t1 Hrest) as (t' & E & Hbits).
    exists t'. cbn [TXN.reader_run]. rewrite E1. cbn [bind].
    split; [exact E |].
    intros k Hk. rewrite (Hbits k Hk), (Hbits1 k Hk). reflexivity.
Qed.

Lemma reader_history_witness :
  Forall (fun ev => 0 <= event_slot ev) two_readers
  /\ exists t',
      TXN.reader_run two_readers {| TXN.rl_bitmap := 8 |} = Ok t'
      /\ forall k, 0 <= k ->
           Z.testbit (TXN.rl_bitmap t') k
           = bit_after two_readers k (Z.testbit 8 k).
Proof.
  assert (H : Forall (fun ev => 0 <= event_slot ev) two_readers).
  { repeat (constructor; [vm_compute; discriminate |]). constructor. }
  split; [exact H |].
  exact (reader_history two_readers {| TXN.rl_bitmap := 8 |} H).
Defined.

(** X14. Registering as a reader and then deregistering puts the bitmap
    back as it was, if the thread's bit was off before. *)
Theorem register_deregister_round_trip (i : Z) (t : TXN.dbtuple) :
  0 <= i ->
  Z.testbit (TXN.rl_bitmap t) i = false ->
  exists t1,
    TXN.serial_register_reader_tx (2 ^ i) t = Ok (true, t1)
    /\ Z.testbit (TXN.rl_bitmap t1) i = true
    /\ TXN.serial_deregister_reader_tx (2 ^ i) t1 = Ok t.
Proof.
  intros Hi Hoff.
  destruct (register_once i t Hi) as (t1 & E1 & Hbits1).
  destruct (deregister_once i Hi t1) as (t2 & E2 & Hoff2 & Hsame2).
  exists t1. split; [exact E1 |].
  split; [rewrite (Hbits1 i Hi), Z.eqb_refl; reflexivity |].
  rewrite E2. f_equal.
  destruct t2 as [b2], t as [b]. cbn in *. f_equal.
  apply Z.bits_inj'. intros n Hn.
  destruct (Z.eq_dec n i) as [-> | Hne]; [congruence |].
  rewrite (Hsame2 n Hn Hne), (Hbits1 n Hn).
  destruct (Z.eqb_spec i n); [congruence | reflexivity].
Qed.

Lemma register_deregister_round_trip_witness :
  0 <= 5 /\ Z.testbit 9 5 = false
  /\ exists t1,
      TXN.serial_register_reader_tx (2 ^ 5) {| TXN.rl_bitmap := 9 |}
      = Ok (true, t1)
      /\ Z.testbit (TXN.rl_bitmap t1) 5 = true
      /\ TXN.serial_deregister_reader_tx (2 ^ 5) t1
         = Ok {| TXN.rl_bitmap := 9 |}.
Proof.
  assert (H1 : 0 <= 5) by lia.
  assert (H2 : Z.testbit 9 5 = false) by reflexivity.
  split; [exact H1 |]. split; [exact H2 |].
  exact (register_deregister_round_trip 5 {| TXN.rl_bitmap := 9 |} H1 H2).
Defined.

(** ** Reading the readers of a tuple *)

Lemma bits_above (W x : Z) :
  0 <= W -> 0 <= x < 2 ^ W ->
  forall n, W <= n -> Z.testbit x n = false.
Proof.
  intros HW Hx n Hn.
  rewrite <- (Z.mod_small x (2 ^ W)) by assumption.
  apply Z.mod_pow2_bits_high. lia.
Qed.

Lemma bound_of_bits (W x : Z) :
  0 <= W -> 0 <= x ->
  (forall n, W <= n -> Z.testbit x n = false) ->
  x < 2 ^ W.
Proof.
  intros HW Hx Hbits.
  assert (E : x mod 2 ^ W = x).
  { apply Z.bits_inj'. intros n Hn.
    rewrite Z.testbit_mod_pow2 by assumption.
    destruct (Z.ltb_spec n W); cbn; [reflexivity |].
    symmetry. apply Hbits. assumption. }
  rewrite <- E. apply Z.mod_pos_bound. apply Z.pow_pos_nonneg; lia.
Qed.

(** X15. With [exclude_self], [serial_get_tuple_readers] gives the
    tuple's bitmap with the caller's own bit turned off and every other
    bit as it is; without, the bitmap itself. *)
Theorem serial_get_tuple_readers_excludes_self (W i : Z) (t : TXN.dbtuple) :
  0 < W -> 0 <= i ->
  0 <= TXN.rl_bitmap t < 2 ^ W ->
  TXN.serial_get_tuple_readers W (2 ^ i) t true
  = Z.clearbit (TXN.rl_bitmap t) i
  /\ TXN.serial_get_tuple_readers W (2 ^ i) t false = TXN.rl_bitmap t.
Proof.
  intros HW Hi Hb. split; [| reflexivity].
  unfold TXN.serial_get_tuple_readers, TXN.wrapW.
  apply Z.bits_inj'. intros n Hn.
  rewrite Z.land_spec, Z.testbit_mod_pow2, Z.clearbit_eqb by lia.
  destruct (Z.ltb_spec n W) as [Hlow | Hhigh]; cbn.
  - rewrite Z.lnot_spec, testbit_pow2 by assumption. reflexivity.
  - rewrite (bits_above W _ ltac:(lia) Hb n Hhigh). reflexivity.
Qed.

Lemma serial_get_tuple_readers_excludes_self_witness :
  0 < 64 /\ 0 <= 2 /\ 0 <= 13 < 2 ^ 64
  /\ TXN.serial_get_tuple_readers 64 (2 ^ 2) {| TXN.rl_bitmap := 13 |} true
     = 9.
Proof.
  assert (H1 : 0 < 64) by lia.
  assert (H2 : 0 <= 2) by lia.
  assert (H3 : 0 <= 13 < 2 ^ 64) by lia.
  repeat (split; [assumption |]).
  exact (proj1 (serial_get_tuple_readers_excludes_self 64 2
                  {| TXN.rl_bitmap := 13 |} H1 H2 H3)).
Defined.

(** ** More on claiming slots *)

(** A call by a thread without a slot on a word with a bit off, no other
    thread writing: the lowest bit that is off is claimed. *)
Lemma assign_retry_quiet (W b : Z) :
  0 <= b < 2 ^ W - 1 ->
  exists i,
    0 <= i < W /\ Z.testbit b i = false
    /\ (forall j, 0 <= j < i -> Z.testbit b j = true)
    /\ TXN.assign_retry W [] b = (2 ^ i, Z.setbit b i).
Proof.
  intros Hb.
  assert (HW : 0 <= W).
  { destruct (Z.lt_ge_cases W 0) as [Hneg | ]; [| assumption].
    rewrite Z.pow_neg_r in Hb by assumption. lia. }
  destruct (lowest_unset_bit b ltac:(lia)) as (i & Hi & Hoff & Hon & Hx & Hle).
  assert (HiW : i < W) by (apply (Z.pow_lt_mono_r_iff 2); lia).
  destruct (lor_succ_setbit b i Hi Hoff Hx) as [Hlor _].
  exists i. split; [lia |]. split; [exact Hoff |]. split; [exact Hon |].
  cbn. unfold TXN.wrapW. rewrite Z.mod_small by lia.
  rewrite Hx, Hlor. reflexivity.
Qed.

(** X16. While nobody gives a slot back, slots go out in order: when the
    slots [0 .. k-1] are taken, the next thread gets slot [k] and leaves
    the slots [0 .. k] taken. *)
Theorem assign_next_slot (W k : Z) :
  0 <= k < W ->
  TXN.assign_reader_bitmap_entry W []
    {| TXN.tls_bitmap_entry := 0; TXN.claimed_bitmap_entries := 2 ^ k - 1 |}
  = {| TXN.tls_bitmap_entry := 2 ^ k;
       TXN.claimed_bitmap_entries := 2 ^ (k + 1) - 1 |}.
Proof.
  intros Hk.
  assert (Hpow : 0 < 2 ^ k) by (apply Z.pow_pos_nonneg; lia).
  assert (HkW : 2 ^ k < 2 ^ W) by (apply Z.pow_lt_mono_r; lia).
  destruct (assign_retry_quiet W (2 ^ k - 1) ltac:(lia))
    as (i & Hi & Hoff & Hon & E).
  assert (Hones : 2 ^ k - 1 = Z.ones k) by (rewrite Z.ones_equiv; lia).
  assert (Eik : i = k).
  { rewrite Hones in Hoff, Hon.
    destruct (Z.lt_trichotomy i k) as [Hlt | [Heq | Hgt]]; [| exact Heq |].
    - rewrite Z.ones_spec_low in Hoff by lia. discriminate.
    - specialize (Hon k ltac:(lia)).
      rewrite Z.ones_spec_high in Hon by lia. discriminate. }
  subst i.
  unfold TXN.assign_reader_bitmap_entry. cbn [TXN.tls_bitmap_entry
    TXN.claimed_bitmap_entries Z.eqb negb].
  rewrite E. f_equal.
  rewrite Z.setbit_spec'.
  assert (Hland : Z.land (2 ^ k - 1) (2 ^ k) = 0)
    by (rewrite land_pow2, Hoff by lia; reflexivity).
  rewrite <- (Z.lxor_lor _ _ Hland), <- (Z.add_nocarry_lxor _ _ Hland).
  rewrite Z.pow_add_r by lia. lia.
Qed.

Lemma assign_next_slot_witness :
  0 <= 3 < 64
  /\ TXN.assign_reader_bitmap_entry 64 []
       {| TXN.tls_bitmap_entry := 0; TXN.claimed_bitmap_entries := 7 |}
     = {| TXN.tls_bitmap_entry := 8; TXN.claimed_bitmap_entries := 15 |}.
Proof.
  assert (H : 0 <= 3 < 64) by lia.
  split; [exact H |].
  exact (assign_next_slot 64 3 H).
Defined.

(** X17. When other threads change the claimed word between the attempts
    of the compare-and-swap, the call still ends, and it ends having
    claimed the lowest bit that was off in the value its last attempt
    found, one of the values the word went through: the thread's mask is
    that one bit and the word is left as that value with the bit on. *)
Theorem assign_under_contention (W : Z) (stores : list Z) (s : TXN.slots) :
  TXN.tls_bitmap_entry s = 0 ->
  Forall (fun b => 0 <= b < 2 ^ W - 1)
         (TXN.claimed_bitmap_entries s :: stores) ->
  exists b i,
    In b (TXN.claimed_bitmap_entries s :: stores)
    /\ 0 <= i < W /\ Z.testbit b i = false
    /\ (forall j, 0 <= j < i -> Z.testbit b j = true)
    /\ TXN.assign_reader_bitmap_entry W stores s
       = {| TXN.tls_bitmap_entry := 2 ^ i;
            TXN.claimed_bitmap_entries := Z.setbit b i |}.
Proof.
  intros Htls Hall.
  destruct (assign_retry_stores W stores (TXN.claimed_bitmap_entries s))
    as (b & Hin & E).
  assert (Hb : 0 <= b < 2 ^ W - 1).
  { rewrite Forall_forall in Hall. apply Hall.
    apply list_elem_of_In. exact Hin. }
  destruct (assign_retry_quiet W b Hb) as (i & Hi & Hoff & Hon & Eq).
  exists b, i. split; [exact Hin |]. split; [exact Hi |].
  split; [exact Hoff |]. split; [exact Hon |].
  unfold TXN.assign_reader_bitmap_entry. rewrite Htls. cbn [Z.eqb negb].
  rewrite E, Eq. reflexivity.
Qed.

Lemma assign_under_contention_witness :
  TXN.tls_bitmap_entry
    {| TXN.tls_bitmap_entry := 0; TXN.claimed_bitmap_entries := 3 |} = 0
  /\ Forall (fun b => 0 <= b < 2 ^ 64 - 1) (3 :: [7; 5])
  /\ TXN.assign_reader_bitmap_entry 64 [7; 5]
       {| TXN.tls_bitmap_entry := 0; TXN.claimed_bitmap_entries := 3 |}
     = {| TXN.tls_bitmap_entry := 2; TXN.claimed_bitmap_entries := 7 |}
  /\ exists b i,
      In b (3 :: [7; 5]) /\ 0 <= i < 64
      /\ TXN.assign_reader_bitmap_entry 64 [7; 5]
           {| TXN.tls_bitmap_entry := 0; TXN.claimed_bitmap_entries := 3 |}
         = {| TXN.tls_bitmap_entry := 2 ^ i;
              TXN.claimed_bitmap_entries := Z.setbit b i |}.
Proof.
  assert (H1 : TXN.tls_bitmap_entry
                 {| TXN.tls_bitmap_entry := 0;
                    TXN.claimed_bitmap_entries := 3 |} = 0) by reflexivity.
  assert (H2 : Forall (fun b => 0 <= b < 2 ^ 64 - 1) (3 :: [7; 5])).
  { repeat (constructor; [lia |]). constructor. }
  split; [exact H1 |]. split; [exact H2 |]. split; [reflexivity |].
  destruct (assign_under_contention 64 [7; 5] _ H1 H2)
    as (b & i & Hin & Hi & _ & _ & E).
  exists b, i. split; [exact Hin |]. split; [exact Hi | exact E].
Defined.


(** ** Threads coming and going *)

Lemma pow2_inj (i k : Z) : 0 <= i -> 0 <= k -> 2 ^ i = 2 ^ k -> i = k.
Proof.
  intros Hi Hk E. apply (Z.pow_inj_r 2); lia.
Qed.

Lemma pow2_nonzero (k : Z) : 0 <= k -> 2 ^ k <> 0.
Proof.
  intros Hk. assert (0 < 2 ^ k) by (apply Z.pow_pos_nonneg; lia). lia.
Qed.

Lemma slots_ok_assign (W : Z) (t : nat) (p : TXN.process) (tls : Z) :
  0 < W -> slots_ok W p -> TXN.threads p !! t = Some tls ->
  let s := TXN.assign_reader_bitmap_entry W []
             {| TXN.tls_bitmap_entry := tls;
                TXN.claimed_bitmap_entries := TXN.claimed p |} in
  slots_ok W {| TXN.threads := <[t := TXN.tls_bitmap_entry s]> (TXN.threads p);
                TXN.claimed := TXN.claimed_bitmap_entries s |}.
Proof.
  intros HW (Hc & Hshape & Hbits & Huniq) Ht s.
  destruct p as [ths c]. cbn in *.
  destruct (Z.eq_dec tls 0) as [-> | Htls].
  2: { assert (Es : s = {| TXN.tls_bitmap_entry := tls;
                           TXN.claimed_bitmap_entries := c |}).
       { unfold s, TXN.assign_reader_bitmap_entry; cbn.
         destruct (Z.eqb_spec tls 0); [contradiction | reflexivity]. }
       rewrite Es; cbn. rewrite list_insert_id by assumption.
       unfold slots_ok; cbn. auto. }
  destruct (Z.eq_dec c (2 ^ W - 1)) as [-> | Hfull].
  { assert (Es : s = {| TXN.tls_bitmap_entry := 0;
                        TXN.claimed_bitmap_entries := 2 ^ W - 1 |})
      by (apply assign_all_claimed; assumption).
    rewrite Es; cbn. rewrite list_insert_id by assumption.
    unfold slots_ok; cbn. auto. }
  destruct (assign_retry_quiet W c ltac:(lia)) as (i & Hi & Hoff & _ & E).
  assert (Es : s = {| TXN.tls_bitmap_entry := 2 ^ i;
                      TXN.claimed_bitmap_entries := Z.setbit c i |}).
  { unfold s, TXN.assign_reader_bitmap_entry.
    cbn [TXN.tls_bitmap_entry TXN.claimed_bitmap_entries Z.eqb negb].
    rewrite E. reflexivity. }
  rewrite Es; cbn. clear s Es E.
  assert (Hlen : (t < length ths)%nat) by (eapply lookup_lt_Some; eassumption).
  assert (Hnone : forall t', ths !! t' <> Some (2 ^ i)).
  { intros t' Ht'.
    assert (Z.testbit c i = true) by (apply Hbits; [lia | eauto]).
    congruence. }
  unfold slots_ok; cbn. repeat split.
  - rewrite Z.setbit_spec'. apply Z.lor_nonneg. split; [lia |].
    apply Z.pow_nonneg. lia.
  - apply bound_of_bits; [lia | |].
    + rewrite Z.setbit_spec'. apply Z.lor_nonneg. split; [lia |].
      apply Z.pow_nonneg. lia.
    + intros n Hn. rewrite Z.setbit_eqb by lia.
      rewrite (bits_above W c ltac:(lia) Hc n Hn).
      destruct (Z.eqb_spec i n); [lia | reflexivity].
  - intros t' m Hm.
    destruct (Nat.eq_dec t t') as [<- | Hne].
    + rewrite list_lookup_insert_eq in Hm by assumption.
      inversion Hm; subst. right. exists i. split; [assumption | reflexivity].
    + rewrite list_lookup_insert_ne in Hm by assumption. eauto.
  - intros Hon. rewrite Z.setbit_eqb in Hon by lia.
    destruct (Z.eqb_spec i k) as [<- | Hne]; cbn in Hon.
    + exists t. apply list_lookup_insert_eq. assumption.
    + apply Hbits in Hon; [| assumption]. destruct Hon as [t' Ht'].
      exists t'. rewrite list_lookup_insert_ne; [assumption |].
      intros <-. rewrite Ht in Ht'. inversion Ht' as [E0].
      symmetry in E0. revert E0. apply pow2_nonzero. assumption.
  - intros [t' Ht']. rewrite Z.setbit_eqb by lia.
    destruct (Z.eqb_spec i k) as [<- | Hne]; cbn; [reflexivity |].
    apply Hbits; [assumption |]. exists t'.
    destruct (Nat.eq_dec t t') as [<- | Hnet].
    + rewrite list_lookup_insert_eq in Ht' by assumption.
      inversion Ht' as [E0]. apply pow2_inj in E0; [contradiction | lia ..].
    + rewrite list_lookup_insert_ne in Ht' by assumption. exact Ht'.
  - intros t1 t2 k Hk H1 H2.
    destruct (Nat.eq_dec t t1) as [<- | Hn1];
      destruct (Nat.eq_dec t t2) as [<- | Hn2]; [reflexivity | | |].
    + rewrite list_lookup_insert_eq in H1 by assumption.
      rewrite list_lookup_insert_ne in H2 by assumption.
      inversion H1 as [E0]. rewrite <- E0 in H2.
      exfalso. exact (Hnone t2 H2).
    + rewrite list_lookup_insert_eq in H2 by assumption.
      rewrite list_lookup_insert_ne in H1 by assumption.
      inversion H2 as [E0]. rewrite <- E0 in H1.
      exfalso. exact (Hnone t1 H1).
    + rewrite list_lookup_insert_ne in H1, H2 by assumption.
      eapply Huniq; eassumption.
Qed.

Lemma slots_ok_deassign (W : Z) (t : nat) (p : TXN.process) (tls : Z)
    (s : TXN.slots) :
  0 < W -> slots_ok W p -> TXN.threads p !! t = Some tls ->
  TXN.deassign_reader_bitmap_entry
    {| TXN.tls_bitmap_entry := tls;
       TXN.claimed_bitmap_entries := TXN.claimed p |} = Ok s ->
  slots_ok W {| TXN.threads := <[t := TXN.tls_bitmap_entry s]> (TXN.threads p);
                TXN.claimed := TXN.claimed_bitmap_entries s |}.
Proof.
  intros HW (Hc & Hshape & Hbits & Huniq) Ht E.
  destruct p as [ths c]. cbn in *.
  unfold TXN.deassign_reader_bitmap_entry in E. cbn in E.
  destruct (Z.eqb_spec tls 0) as [| Htls]; [discriminate |].
  destruct (Z.land c tls =? 0); [discriminate |].
  inversion E; subst s; cbn. clear E.
  destruct (Hshape t tls Ht) as [| (k & Hk & ->)]; [contradiction |].
  assert (Hlen : (t < length ths)%nat) by (eapply lookup_lt_Some; eassumption).
  unfold slots_ok; cbn. repeat split.
  - apply Z.lxor_nonneg. split; intros _; [apply Z.pow_nonneg; lia | lia].
  - apply bound_of_bits; [lia | |].
    + apply Z.lxor_nonneg. split; intros _; [apply Z.pow_nonneg; lia | lia].
    + intros n Hn. rewrite lxor_pow2_testbit by lia.
      rewrite (bits_above W c ltac:(lia) Hc n Hn).
      destruct (Z.eqb_spec k n); [lia | reflexivity].
  - intros t' m Hm.
    destruct (Nat.eq_dec t t') as [<- | Hne].
    + rewrite list_lookup_insert_eq in Hm by assumption.
      inversion Hm. left. reflexivity.
    + rewrite list_lookup_insert_ne in Hm by assumption. eauto.
  - intros Hon. rewrite lxor_pow2_testbit in Hon by lia.
    destruct (Z.eqb_spec k k0) as [<- | Hne].
    + assert (Z.testbit c k = true) by (apply Hbits; [lia | eauto]).
      rewrite H0 in Hon. discriminate.
    + rewrite xorb_false_r in Hon.
      apply Hbits in Hon; [| assumption]. destruct Hon as [t' Ht'].
      exists t'. rewrite list_lookup_insert_ne; [assumption |].
      intros <-. rewrite Ht in Ht'. inversion Ht' as [E0].
      apply pow2_inj in E0; [contradiction | lia ..].
  - intros [t' Ht']. rewrite lxor_pow2_testbit by lia.
    destruct (Nat.eq_dec t t') as [<- | Hnet].
    { rewrite list_lookup_insert_eq in Ht' by assumption.
      inversion Ht' as [E0]. symmetry in E0.
      exfalso. revert E0. apply pow2_nonzero. assumption. }
    rewrite list_lookup_insert_ne in Ht' by assumption.
    destruct (Z.eqb_spec k k0) as [<- | Hne].
    + exfalso. apply Hnet. eapply (Huniq t t' k); [lia | assumption ..].
    + rewrite xorb_false_r. apply Hbits; eauto.
  - intros t1 t2 k1 Hk1 H1 H2.
    destruct (Nat.eq_dec t t1) as [<- | Hn1].
    { rewrite list_lookup_insert_eq in H1 by assumption.
      inversion H1 as [E0]. symmetry in E0.
      exfalso. revert E0. apply pow2_nonzero. assumption. }
    destruct (Nat.eq_dec t t2) as [<- | Hn2].
    { rewrite list_lookup_insert_eq in H2 by assumption.
      inversion H2 as [E0]. symmetry in E0.
      exfalso. revert E0. apply pow2_nonzero. assumption. }
    rewrite list_lookup_insert_ne in H1, H2 by assumption.
    eapply Huniq; eassumption.
Qed.

(** X18. However threads take and give back slots, one call after the
    other, a bit of [claimed_bitmap_entries] is on exactly when one thread
    holds it, every thread holds one bit or none, and no two threads ever
    hold the same bit. *)
Theorem slots_never_shared (W : Z) (evs : list TXN.slot_event) :
  forall p p' : TXN.process,
    0 < W -> slots_ok W p ->
    TXN.slot_run W evs p = Ok p' ->
    slots_ok W p'.
Proof.
  induction evs as [| ev evs IH]; intros p p' HW Hok E; cbn in E.
  - inversion E; subst. exact Hok.
  - destruct (TXN.slot_step W ev p) as [p1 | ] eqn:E1; cbn in E;
      [| discriminate].
    apply (IH p1 p' HW); [| exact E].
    clear IH E.
    destruct ev as [t | t]; cbn in E1;
      destruct (TXN.threads p !! t) as [tls | ] eqn:Ht;
      try (inversion E1; subst; exact Hok).
    + inversion E1; subst. apply slots_ok_assign; assumption.
    + destruct (TXN.deassign_reader_bitmap_entry _) as [s | ] eqn:Ed;
        cbn in E1; [| discriminate].
      inversion E1; subst. eapply slots_ok_deassign; eassumption.
Qed.

Lemma slots_never_shared_witness :
  0 < 2 /\ slots_ok 2 three_threads
  /\ TXN.slot_run 2 crowded three_threads
     = Ok {| TXN.threads := [0; 2; 1]; TXN.claimed := 3 |}
  /\ slots_ok 2 {| TXN.threads := [0; 2; 1]; TXN.claimed := 3 |}.
Proof.
  assert (HW : 0 < 2) by lia.
  assert (Hok : slots_ok 2 three_threads).
  { unfold slots_ok, three_threads; cbn. split; [lia |].
    assert (Hzero : forall t m, [0; 0; 0] !! t = Some m -> m = 0).
    { intros [| [| [| t]]] m Hm; inversion Hm; reflexivity. }
    split; [intros t m Hm; left; eauto |].
    split.
    - intros k Hk. rewrite Z.bits_0. split; [discriminate |].
      intros [t Ht]. apply Hzero in Ht.
      exfalso. revert Ht. apply pow2_nonzero. assumption.
    - intros t t' k Hk Ht. apply Hzero in Ht.
      exfalso. revert Ht. apply pow2_nonzero. assumption. }
  assert (Hrun : TXN.slot_run 2 crowded three_threads
                 = Ok {| TXN.threads := [0; 2; 1]; TXN.claimed := 3 |})
    by (vm_compute; reflexivity).
  split; [exact HW |]. split; [exact Hok |]. split; [exact Hrun |].
  exact (slots_never_shared 2 crowded three_threads _ HW Hok Hrun).
Defined.


(** ** The readers list *)

Lemma ctzll_pow2 (i : Z) :
  0 <= i -> TXN.ctzll (2 ^ i) = Done (Z.to_nat i).
Proof.
  revert i. apply natlike_ind; [reflexivity |].
  intros i Hi IH.
  rewrite Z.pow_succ_r, Z2Nat.inj_succ by assumption.
  destruct (2 ^ i) as [| p | p]; cbn in IH; try discriminate.
  inversion IH as [E].
  change (2 * Z.pos p) with (Z.pos (xO p)).
  cbn [TXN.ctzll TXN.trailing_zeros]. rewrite E. reflexivity.
Qed.

(** X19. A thread whose mask is the single bit [i] registers its
    transaction in [xids[i]] and nowhere else; while that transaction is
    registered a second registration trips the [ASSERT]; and
    deregistering puts the list back as it was before. *)
Theorem serial_register_tx_round_trip (i xid xid' : Z)
    (rlist : TXN.readers_list) :
  0 <= i -> xid <> 0 ->
  TXN.xids rlist !! Z.to_nat i = Some 0 ->
  exists rlist',
    TXN.serial_register_tx (2 ^ i) xid rlist = Done rlist'
    /\ TXN.xids rlist' !! Z.to_nat i = Some xid
    /\ (forall j, j <> Z.to_nat i ->
          TXN.xids rlist' !! j = TXN.xids rlist !! j)
    /\ TXN.last_read_mostly_clsns rlist' = TXN.last_read_mostly_clsns rlist
    /\ TXN.serial_register_tx (2 ^ i) xid' rlist' = Asserted
    /\ TXN.serial_deregister_tx (2 ^ i) xid rlist' = Done rlist.
Proof.
  intros Hi Hxid Hslot.
  assert (Hlen : (Z.to_nat i < length (TXN.xids rlist))%nat)
    by (eapply lookup_lt_Some; eassumption).
  unfold TXN.serial_register_tx, TXN.serial_deregister_tx.
  rewrite ctzll_pow2, Hslot by assumption. cbn.
  eexists. split; [reflexivity |]. cbn.
  rewrite list_lookup_insert_eq by assumption.
  split; [reflexivity |].
  split; [intros j Hj; apply list_lookup_insert_ne; congruence |].
  split; [reflexivity |].
  split.
  - destruct (Z.eqb_spec xid 0); [contradiction | reflexivity].
  - rewrite list_insert_insert_eq, list_insert_id by assumption.
    destruct rlist; reflexivity.
Qed.

Lemma serial_register_tx_round_trip_witness :
  0 <= 2 /\ 99 <> 0
  /\ TXN.xids small_rlist !! Z.to_nat 2 = Some 0
  /\ exists rlist',
      TXN.serial_register_tx (2 ^ 2) 99 small_rlist = Done rlist'
      /\ TXN.xids rlist' = [0; 77; 99; 0]
      /\ TXN.serial_deregister_tx (2 ^ 2) 99 rlist' = Done small_rlist.
Proof.
  assert (H1 : 0 <= 2) by lia.
  assert (H2 : 99 <> 0) by discriminate.
  assert (H3 : TXN.xids small_rlist !! Z.to_nat 2 = Some 0) by reflexivity.
  repeat (split; [assumption |]).
  destruct (serial_register_tx_round_trip 2 99 5 small_rlist H1 H2 H3)
    as (rlist' & E & _ & _ & _ & _ & Hback).
  exists rlist'. split; [exact E |]. split; [| exact Hback].
  vm_compute in E. inversion E. reflexivity.
Defined.

(** X20. A thread that asked for a slot when all [W] were taken holds the
    mask [0]; its calls of [serial_register_tx], [serial_deregister_tx]
    and [serial_stamp_last_committed_lsn] then take [__builtin_ctzll(0)],
    which is undefined, as the index into the readers list. *)
Theorem readers_list_without_a_slot (W xid : Z) (lsn : LSN)
    (rlist : TXN.readers_list) :
  0 < W ->
  let s := TXN.assign_reader_bitmap_entry W []
             {| TXN.tls_bitmap_entry := 0;
                TXN.claimed_bitmap_entries := 2 ^ W - 1 |} in
  TXN.serial_register_tx (TXN.tls_bitmap_entry s) xid rlist = Undefined
  /\ TXN.serial_deregister_tx (TXN.tls_bitmap_entry s) xid rlist = Undefined
  /\ TXN.serial_stamp_last_committed_lsn (TXN.tls_bitmap_entry s) lsn rlist
     = Undefined.
Proof.
  intros HW s. unfold s. rewrite (assign_all_claimed W HW). cbn.
  repeat split.
Qed.

Lemma readers_list_without_a_slot_witness :
  0 < 64
  /\ TXN.serial_register_tx
       (TXN.tls_bitmap_entry
          (TXN.assign_reader_bitmap_entry 64 []
             {| TXN.tls_bitmap_entry := 0;
                TXN.claimed_bitmap_entries := 2 ^ 64 - 1 |}))
       99 small_rlist = Undefined.
Proof.
  assert (H : 0 < 64) by lia.
  split; [exact H |].
  exact (proj1 (readers_list_without_a_slot 64 99 0 small_rlist H)).
Defined.

(** X21. What a thread with the single bit [i] stamps as its last
    commit is what [serial_get_last_read_mostly_cstamp(i)] then gives, as
    an offset; the stamps of the other slots and all transaction ids stay
    as they are; an index below zero or beyond the array is undefined. *)
Theorem serial_stamp_then_get (offset : LSN -> Z) (i : Z) (lsn : LSN)
    (rlist : TXN.readers_list) :
  0 <= i ->
  (Z.to_nat i < length (TXN.last_read_mostly_clsns rlist))%nat ->
  exists rlist',
    TXN.serial_stamp_last_committed_lsn (2 ^ i) lsn rlist = Done rlist'
    /\ TXN.serial_get_last_read_mostly_cstamp offset i rlist'
       = Done (offset lsn)
    /\ (forall j, j <> i ->
          TXN.serial_get_last_read_mostly_cstamp offset j rlist'
          = TXN.serial_get_last_read_mostly_cstamp offset j rlist)
    /\ TXN.xids rlist' = TXN.xids rlist
    /\ (forall j,
          j < 0
          \/ Z.of_nat (length (TXN.last_read_mostly_clsns rlist)) <= j ->
          TXN.serial_get_last_read_mostly_cstamp offset j rlist' = Undefined).
Proof.
  intros Hi Hlen.
  destruct (lookup_lt_is_Some_2 _ _ Hlen) as [old Hold].
  unfold TXN.serial_stamp_last_committed_lsn.
  rewrite ctzll_pow2, Hold by assumption.
  eexists. split; [reflexivity |].
  unfold TXN.serial_get_last_read_mostly_cstamp. cbn.
  split.
  { destruct (Z.ltb_spec i 0); [lia |].
    rewrite list_lookup_insert_eq by assumption. reflexivity. }
  split.
  { intros j Hj. destruct (Z.ltb_spec j 0); [reflexivity |].
    rewrite list_lookup_insert_ne; [reflexivity |]. lia. }
  split; [reflexivity |].
  intros j [Hneg | Hbig].
  - destruct (Z.ltb_spec j 0); [reflexivity | lia].
  - destruct (Z.ltb_spec j 0); [reflexivity |].
    rewrite (proj2 (lookup_ge_None _ _)); [reflexivity |].
    rewrite length_insert. unfold LSN in *. lia.
Qed.

Lemma serial_stamp_then_get_witness :
  0 <= 3
  /\ (Z.to_nat 3 < length (TXN.last_read_mostly_clsns small_rlist))%nat
  /\ exists rlist',
      TXN.serial_stamp_last_committed_lsn (2 ^ 3) 900 small_rlist
      = Done rlist'
      /\ TXN.serial_get_last_read_mostly_cstamp (fun l => l) 3 rlist'
         = Done 900.
Proof.
  assert (H1 : 0 <= 3) by lia.
  assert (H2 : (Z.to_nat 3
                < length (TXN.last_read_mostly_clsns small_rlist))%nat)
    by (vm_compute; lia).
  split; [exact H1 |]. split; [exact H2 |].
  destruct (serial_stamp_then_get (fun l => l) 3 900 small_rlist H1 H2)
    as (rlist' & E & Hget & _).
  exists rlist'. split; [exact E | exact Hget].
Defined.

(** ** The table walk of the daemon *)

Section DaemonWalk.

Variable from_ptr : Z -> LSN.
Variable lsn_lt : LSN -> LSN -> bool.
Variables (tlsn : LSN) (start_offset end_offset : Z).

#[local, warnings="-notation-for-abbreviation"]
Notation in_segment := (Reclaim.in_segment start_offset end_offset).
#[local, warnings="-notation-for-abbreviation"]
Notation chain_loop :=
  (Reclaim.chain_loop from_ptr lsn_lt tlsn start_offset end_offset).
#[local, warnings="-notation-for-abbreviation"]
Notation walk_oid :=
  (Reclaim.walk_oid from_ptr lsn_lt tlsn start_offset end_offset).
#[local, warnings="-notation-for-abbreviation"]
Notation walk_oids :=
  (Reclaim.walk_oids from_ptr lsn_lt tlsn start_offset end_offset).
#[local, warnings="-notation-for-abbreviation"]
Notation walk_tables :=
  (Reclaim.walk_tables from_ptr lsn_lt tlsn start_offset end_offset).


Lemma chain_loop_outside (table oid : nat) (head : Z) (st : Reclaim.store)
    (l : list (Z * Reclaim.object)) :
  forall (cur prev : Z) (fuel : nat),
    chain (Reclaim.heap st) cur l ->
    outside start_offset end_offset st l ->
    (length l < fuel)%nat ->
    chain_loop fuel table oid head cur prev st = Reclaim.Went (true, st).
Proof.
  induction l as [| [p o] l IH]; intros cur prev fuel Hchain Hout Hfuel;
    inversion Hchain; subst; (destruct fuel as [| fuel]; [cbn in Hfuel; lia |]).
  - reflexivity.
  - inversion Hout as [| ? ? Hp Hrest]; subst. cbn in Hp.
    cbn [Reclaim.chain_loop].
    destruct (Z.eqb_spec p 0); [contradiction |].
    match goal with H : Reclaim.heap st !! p = Some o |- _ => rewrite H end.
    rewrite Hp.
    apply IH; [assumption | assumption | cbn in Hfuel; lia].
Qed.

Lemma walk_oid_outside (table oid : nat) (head : Z) (st : Reclaim.store)
    (l : list (Z * Reclaim.object)) (fuel : nat) :
  Reclaim.begin table oid st = Some head ->
  chain (Reclaim.heap st) head l ->
  outside start_offset end_offset st l ->
  (length l + 1 < fuel)%nat ->
  walk_oid fuel table oid st = Reclaim.Went st.
Proof.
  intros Hbegin Hchain Hout Hfuel.
  destruct fuel as [| fuel]; [lia |].
  cbn [Reclaim.walk_oid]. rewrite Hbegin.
  destruct (Z.eqb_spec head 0) as [| Hne]; [reflexivity |].
  inversion Hchain as [| p o rest _ Hp Hrest]; subst; [contradiction |].
  rewrite Hp.
  inversion Hout as [| ? ? Ho _]; subst. cbn in Ho. rewrite Ho. cbn [andb].
  rewrite (chain_loop_outside table oid head st ((head, o) :: rest));
    [reflexivity | assumption | assumption | lia].
Qed.

(** X22. A daemon round changes nothing but the collection state when no
    version of any tuple lies in the segment it drains: every chain, every
    head pointer and the allocator's cursors are as before, and the state
    goes from in progress to finished. *)
Theorem daemon_leaves_other_chains (fuel : nat) (st : Reclaim.store) :
  RA.reclaim_daemon_segment (Reclaim.myra st) = Ok (start_offset, end_offset) ->
  state (Reclaim.myra st) = RA_GC_IN_PROG ->
  (forall table v oid head,
     Reclaim.tables st !! table = Some v -> v !! oid = Some head ->
     (1 <= oid)%nat ->
     exists l,
       chain (Reclaim.heap st) head l
       /\ outside start_offset end_offset st l
       /\ (length l + 1 < fuel)%nat) ->
  Reclaim.reclaim_daemon_round from_ptr lsn_lt fuel tlsn st
  = Reclaim.Went
      (Reclaim.mk_store (Reclaim.heap st) (Reclaim.tables st)
         (set_state RA_GC_FINISHED (Reclaim.myra st)) (Reclaim.answers st)).
Proof.
  intros Hseg Hstate Hchains.
  assert (Hoids : forall table v oids,
             Reclaim.tables st !! table = Some v ->
             Forall (fun oid => (1 <= oid < length v)%nat) oids ->
             walk_oids fuel table oids st = Reclaim.Went st).
  { intros table v oids Hv Hall.
    induction Hall as [| oid oids [Hone Hoid] _ IH]; [reflexivity |].
    cbn [Reclaim.walk_oids].
    destruct (lookup_lt_is_Some_2 v oid Hoid) as [head Hhead].
    destruct (Hchains table v oid head Hv Hhead Hone) as (l & Hc & Ho & Hf).
    rewrite (walk_oid_outside table oid head st l fuel); try assumption.
    unfold Reclaim.begin. rewrite Hv. exact Hhead. }
  assert (Htables : forall todo,
             Forall (fun table => (table < length (Reclaim.tables st))%nat) todo ->
             walk_tables fuel todo st = Reclaim.Went st).
  { intros todo Hall.
    induction Hall as [| table todo Ht _ IH]; [reflexivity |].
    cbn [Reclaim.walk_tables].
    destruct (lookup_lt_is_Some_2 _ table Ht) as [v Hv].
    rewrite Hv, (Hoids table v); [exact IH | exact Hv |].
    apply Forall_forall. intros oid Hin.
    apply list_elem_of_In, in_seq in Hin. lia. }
  unfold Reclaim.reclaim_daemon_round. rewrite Hseg, Htables.
  - unfold RA.reclaim_daemon_finish. rewrite Hstate. reflexivity.
  - apply Forall_forall. intros table Hin.
    apply list_elem_of_In, in_seq in Hin. lia.
Qed.




End DaemonWalk.

Lemma daemon_leaves_other_chains_witness :
  Reclaim.reclaim_daemon_round (fun p => p) Z.ltb 3 10 only_cold
  = Reclaim.Went
      (Reclaim.mk_store (Reclaim.heap only_cold) (Reclaim.tables only_cold)
         (set_state RA_GC_FINISHED draining) []).
Proof.
  apply (daemon_leaves_other_chains (fun p => p) Z.ltb 10 0 (2 ^ 30) 3
           only_cold).
  - vm_compute. reflexivity.
  - reflexivity.
  - intros table v oid head Hv Hhead Hone.
    destruct table as [| table]; [| discriminate Hv].
    injection Hv as <-.
    destruct oid as [| [| oid]]; [lia | | discriminate Hhead].
    injection Hhead as <-.
    exists [(cold_base + 8, version_C)].
    split.
    { apply chain_link; [discriminate | reflexivity | apply chain_end]. }
    split.
    { constructor; [vm_compute; reflexivity | constructor]. }
    cbn. lia.
Defined.


